(** * MicroContract (ContractGuard): the contract-analysis pipeline

    A shallow embedding of the request/response pipeline of
    [src/services/contractAnalyzer.ts] ([extractTextFromFile],
    [getGroqClient], [analyzeContract]) and of its caller
    [handleFileUpload] in [src/App.tsx], together with the parts of the
    JavaScript run time the pipeline relies on: strings of UTF-16 code
    units, [String.prototype.trim], [String.prototype.replace] with a
    global regular expression, [JSON.parse], property access, object
    spread and [Array.prototype.map].

    How the program is modelled:
    - a string is the list of its code units, so that [length] and
      [trim] count and classify what JavaScript counts and classifies;
    - an object is a finite map from property names to values: the
      pipeline reads and copies properties and never looks at their
      order;
    - a number is kept as the decimal it was written as, and only its
      truthiness is interpreted;
    - an [async] function is a computation that reads the platform
      (environment, file reader, document library, completion endpoint,
      clock), threads the world (the React state and a log of effects)
      and returns or throws; [await] is sequencing;
    - the message of an error that the engine raises is kept symbolic,
      its wording being the engine's;
    - the depth limit of the engine's parser is not modelled.

    Around the pipeline, the embedding covers the other handlers of
    [src/App.tsx] (payment, navigation, export, the counters and the
    markup of its pages), the catalogue and the price format of
    [src/stripe-config.ts], the effect of
    [src/components/SuccessPage.tsx] and the effect of
    [src/hooks/useSubscription.ts], with [URLSearchParams] and the two
    other regular expressions of the source. A handler of this part is a
    computation over the services it calls (checkout, authentication,
    export: they are not among the sources at hand and are kept abstract)
    and the shell, which is the React state of [App] and the list of the
    effects so far. *)

From Stdlib Require Import ZArith NArith Ascii DecimalNat.
From Stdlib Require DecimalN DecimalFacts.
From stdpp Require Import gmap list strings.

Local Open Scope N_scope.

(** ** JavaScript strings *)

(** A JavaScript string is a sequence of UTF-16 code units; [length] is
    its [.length]. *)
Definition jsstring : Type := list N.

(** The string whose code units are the characters of an ASCII literal. *)
Definition js (s : string) : jsstring :=
  N_of_ascii <$> String.list_ascii_of_string s.

Arguments js : simpl never.

(** The double quote, which the literals of this file cannot hold. *)
Definition dquote : N := 34.

(** [js] of a literal in which every double quote is written [@]. *)
Definition jsq (s : string) : jsstring :=
  (fun c => if N.eqb c 64 then dquote else c) <$> js s.

(** [!s] for a string: only the empty string is falsy. *)
Definition string_falsy (s : jsstring) : bool :=
  match s with [] => true | _ => false end.

(** [!s] for [string | undefined] (an environment variable). *)
Definition optional_string_falsy (s : option jsstring) : bool :=
  match s with None => true | Some s => string_falsy s end.

(** ECMAScript [WhiteSpace] and [LineTerminator] code points, the ones
    [String.prototype.trim] removes. *)
Definition is_white_space (c : N) : bool :=
  bool_decide (c ∈ [9; 10; 11; 12; 13; 32; 160; 5760; 8232; 8233; 8239;
                    8287; 12288; 65279])
  || ((8192 <=? c) && (c <=? 8202)).

Fixpoint trimStart (s : jsstring) : jsstring :=
  match s with
  | c :: s' => if is_white_space c then trimStart s' else s
  | [] => []
  end.

Definition trimEnd (s : jsstring) : jsstring :=
  reverse (trimStart (reverse s)).

(** [s.trim()] *)
Definition trim (s : jsstring) : jsstring := trimEnd (trimStart s).

(** [Number.prototype.toString] of a non-negative integer below 10^21:
    its decimal digits. *)
Fixpoint digits_of_uint (u : Decimal.uint) : jsstring :=
  match u with
  | Decimal.Nil => []
  | Decimal.D0 u => 48 :: digits_of_uint u
  | Decimal.D1 u => 49 :: digits_of_uint u
  | Decimal.D2 u => 50 :: digits_of_uint u
  | Decimal.D3 u => 51 :: digits_of_uint u
  | Decimal.D4 u => 52 :: digits_of_uint u
  | Decimal.D5 u => 53 :: digits_of_uint u
  | Decimal.D6 u => 54 :: digits_of_uint u
  | Decimal.D7 u => 55 :: digits_of_uint u
  | Decimal.D8 u => 56 :: digits_of_uint u
  | Decimal.D9 u => 57 :: digits_of_uint u
  end.

Definition nat_to_string (n : nat) : jsstring :=
  digits_of_uint (Nat.to_uint n).

(** ** Regular expressions

    The fragment of ECMAScript patterns the source uses: literal
    characters, [r?] (greedy), concatenation and ordered alternation,
    matched by backtracking with a continuation as in the language
    specification. *)
Module RegExp.

Inductive regex : Type :=
| Chars (lit : jsstring)
| Opt (r : regex)
| Seq (r1 r2 : regex)
| Alt (r1 r2 : regex).

Fixpoint strip_prefix (lit s : jsstring) : option jsstring :=
  match lit, s with
  | [], _ => Some s
  | c :: lit', d :: s' => if N.eqb c d then strip_prefix lit' s' else None
  | _ :: _, [] => None
  end.

(** [matcher r s k]: match [r] at the head of [s] and hand what is left
    to the continuation [k]; the first success wins. *)
Fixpoint matcher (r : regex) (s : jsstring)
    (k : jsstring → option jsstring) : option jsstring :=
  match r with
  | Chars lit =>
      match strip_prefix lit s with Some rest => k rest | None => None end
  | Opt r' =>
      match matcher r' s k with Some rest => Some rest | None => k s end
  | Seq r1 r2 => matcher r1 s (λ s', matcher r2 s' k)
  | Alt r1 r2 =>
      match matcher r1 s k with
      | Some rest => Some rest
      | None => matcher r2 s k
      end
  end.

(** A match anchored at the head of [s]: what follows the match. *)
Definition exec_at (r : regex) (s : jsstring) : option jsstring :=
  matcher r s Some.

(** The scan of [s.replace(/r/g, by)] for a replacement [by] without
    [$] patterns: at each position the pattern is tried; a match is
    replaced and the scan resumes after it (one character further when
    the match is empty), a character that starts no match is kept. *)
Fixpoint replace_go (fuel : nat) (r : regex) (by_ s : jsstring) : jsstring :=
  match fuel with
  | O => s
  | S fuel' =>
      match exec_at r s with
      | Some rest =>
          if decide (length rest < length s)%nat
          then by_ ++ replace_go fuel' r by_ rest
          else match s with
               | [] => by_
               | c :: s' => by_ ++ c :: replace_go fuel' r by_ s'
               end
      | None =>
          match s with
          | [] => []
          | c :: s' => c :: replace_go fuel' r by_ s'
          end
      end
  end.

Definition replace (r : regex) (by_ s : jsstring) : jsstring :=
  replace_go (S (length s)) r by_ s.

End RegExp.

(** ** The response cleaner of [analyzeContract]
    [response.replace(/```json\n?|\n?```/g, '').trim()] *)

Definition fence : jsstring := Eval vm_compute in js "```".
Definition fence_json : jsstring := Eval vm_compute in js "```json".
Definition newline : jsstring := [10].

Definition fence_re : RegExp.regex :=
  RegExp.Alt
    (RegExp.Seq (RegExp.Chars fence_json) (RegExp.Opt (RegExp.Chars newline)))
    (RegExp.Seq (RegExp.Opt (RegExp.Chars newline)) (RegExp.Chars fence)).

(** [response.replace(/```json\n?|\n?```/g, '')] *)
Definition strip_fences (response : jsstring) : jsstring :=
  RegExp.replace fence_re [] response.

Definition cleanResponse (response : jsstring) : jsstring :=
  trim (strip_fences response).

(** ** JavaScript values *)

(** A number that came out of a JSON text, kept as the decimal it was
    written as: [(-1)^negative * mantissa * 10^exponent]. The pipeline
    never computes with a number; it copies it and tests it for
    truthiness. *)
Record number : Type := MkNumber {
  negative : bool;
  mantissa : N;
  exponent : Z
}.

#[warnings="-register-all"]
Inductive value : Type :=
| VUndefined
| VNull
| VBool (b : bool)
| VNumber (n : number)
| VString (s : jsstring)
| VArray (elements : list value)
| VObject (properties : gmap (list N) value).

(** Whether the double nearest to the decimal is zero: the decimals of
    magnitude at most 2^-1075 (half the smallest subnormal, the tie going
    to the even neighbour 0) and only those round to zero. *)
Definition number_is_zero (n : number) : bool :=
  match exponent n with
  | Z.neg e => (mantissa n * 2 ^ 1075 <=? 10 ^ N.pos e)
  | _ => mantissa n =? 0
  end.

(** [ToBoolean] *)
Definition ToBoolean (v : value) : bool :=
  match v with
  | VUndefined | VNull => false
  | VBool b => b
  | VNumber n => negb (number_is_zero n)
  | VString s => negb (string_falsy s)
  | VArray _ | VObject _ => true
  end.

(** The own enumerable properties that an object spread [{...v}] copies:
    those of an object, the indexed elements of an array, the indexed
    characters of a string, nothing for the other primitives. *)
Definition own_enumerable_properties (v : value) : gmap (list N) value :=
  match v with
  | VObject m => m
  | VArray l => list_to_map (imap (λ i x, (nat_to_string i, x)) l)
  | VString s => list_to_map (imap (λ i c, (nat_to_string i, VString [c])) s)
  | _ => ∅
  end.

(** ** JSON.parse *)
Module JSON.

(** The outcome of a parsing function: a result and the rest of the
    input, a syntax error, or recursion budget exhausted (which
    [parse] never runs into, see [parse_value_fuel]). *)
Inductive parsed (A : Type) : Type :=
| Parsed (a : A) (rest : jsstring)
| Invalid
| OutOfFuel.
Arguments Parsed {A} a rest.
Arguments Invalid {A}.
Arguments OutOfFuel {A}.

Definition is_ws (c : N) : bool :=
  (c =? 9) || (c =? 10) || (c =? 13) || (c =? 32).

Fixpoint skip_ws (s : jsstring) : jsstring :=
  match s with
  | c :: s' => if is_ws c then skip_ws s' else s
  | [] => []
  end.

Definition is_digit (c : N) : bool := (48 <=? c) && (c <=? 57).

Definition hex_digit (c : N) : option N :=
  if is_digit c then Some (c - 48)
  else if (65 <=? c) && (c <=? 70) then Some (c - 55)
  else if (97 <=? c) && (c <=? 102) then Some (c - 87)
  else None.

(** The character a single-letter escape stands for. *)
Definition unescape (c : N) : option N :=
  if c =? 34 then Some 34          (* quote *)
  else if c =? 92 then Some 92     (* backslash *)
  else if c =? 47 then Some 47     (* slash *)
  else if c =? 98 then Some 8      (* b: backspace *)
  else if c =? 102 then Some 12    (* f: form feed *)
  else if c =? 110 then Some 10    (* n: line feed *)
  else if c =? 114 then Some 13    (* r: carriage return *)
  else if c =? 116 then Some 9     (* t: tab *)
  else None.

(** The characters of a string literal, after its opening quote. *)
Fixpoint parse_chars (s : jsstring) : option (jsstring * jsstring) :=
  match s with
  | [] => None
  | c :: s' =>
      if c =? 34 then Some ([], s')
      else if c =? 92 then
        match s' with
        | [] => None
        | e :: s'' =>
            if e =? 117 then
              match s'' with
              | h1 :: h2 :: h3 :: h4 :: s3 =>
                  match hex_digit h1, hex_digit h2, hex_digit h3, hex_digit h4 with
                  | Some d1, Some d2, Some d3, Some d4 =>
                      match parse_chars s3 with
                      | Some (str, rest) =>
                          Some (((d1 * 16 + d2) * 16 + d3) * 16 + d4 :: str, rest)
                      | None => None
                      end
                  | _, _, _, _ => None
                  end
              | _ => None
              end
            else
              match unescape e with
              | Some u =>
                  match parse_chars s'' with
                  | Some (str, rest) => Some (u :: str, rest)
                  | None => None
                  end
              | None => None
              end
        end
      else if c <? 32 then None
      else
        match parse_chars s' with
        | Some (str, rest) => Some (c :: str, rest)
        | None => None
        end
  end.

(** The longest run of decimal digits at the head of [s], as digit
    values. *)
Fixpoint take_digits (s : jsstring) : list N * jsstring :=
  match s with
  | c :: s' =>
      if is_digit c
      then let '(ds, rest) := take_digits s' in (c - 48 :: ds, rest)
      else ([], s)
  | [] => ([], [])
  end.

Definition digits_value (ds : list N) : N :=
  foldl (λ acc d, 10 * acc + d) 0 ds.

(** [int]: a single 0, or a digit run that does not start with 0. *)
Definition parse_int (s : jsstring) : option (list N * jsstring) :=
  match s with
  | c :: s' =>
      if c =? 48 then Some ([0], s')
      else if is_digit c then Some (take_digits s)
      else None
  | [] => None
  end.

(** [frac]: nothing, or a point and at least one digit. *)
Definition parse_frac (s : jsstring) : option (list N * jsstring) :=
  match s with
  | c :: s' =>
      if c =? 46 then
        match take_digits s' with
        | ([], _) => None
        | (ds, rest) => Some (ds, rest)
        end
      else Some ([], s)
  | [] => Some ([], [])
  end.

(** [exp]: nothing, or e/E, an optional sign and at least one digit. *)
Definition parse_exp (s : jsstring) : option (Z * jsstring) :=
  match s with
  | c :: s' =>
      if (c =? 101) || (c =? 69) then
        let '(neg, s1) :=
          match s' with
          | d :: s'' =>
              if d =? 45 then (true, s'')
              else if d =? 43 then (false, s'')
              else (false, s')
          | [] => (false, s')
          end in
        match take_digits s1 with
        | ([], _) => None
        | (ds, rest) =>
            let e := Z.of_N (digits_value ds) in
            Some (if neg : bool then (- e)%Z else e, rest)
        end
      else Some (0%Z, s)
  | [] => Some (0%Z, [])
  end.

Definition parse_number (s : jsstring) : option (number * jsstring) :=
  let '(neg, s0) :=
    match s with
    | c :: s' => if c =? 45 then (true, s') else (false, s)
    | [] => (false, s)
    end in
  match parse_int s0 with
  | Some (int, s1) =>
      match parse_frac s1 with
      | Some (frac, s2) =>
          match parse_exp s2 with
          | Some (e, rest) =>
              Some (MkNumber neg (digits_value (int ++ frac))
                      (e - Z.of_nat (length frac)), rest)
          | None => None
          end
      | None => None
      end
  | None => None
  end.

Definition true_text : jsstring := Eval vm_compute in js "true".
Definition false_text : jsstring := Eval vm_compute in js "false".
Definition null_text : jsstring := Eval vm_compute in js "null".

Definition parse_literal (s : jsstring) : option (value * jsstring) :=
  match RegExp.strip_prefix true_text s with
  | Some rest => Some (VBool true, rest)
  | None =>
      match RegExp.strip_prefix false_text s with
      | Some rest => Some (VBool false, rest)
      | None =>
          match RegExp.strip_prefix null_text s with
          | Some rest => Some (VNull, rest)
          | None => None
          end
      end
  end.

Definition of_option {A} (o : option (A * jsstring)) : parsed A :=
  match o with Some (a, rest) => Parsed a rest | None => Invalid end.

(** [parse_value] reads one value at the head of [s] (no leading white
    space); [parse_elements] reads the elements of an array from its
    first element to the closing bracket; [parse_members] the members
    of an object from its first key to the closing brace, a repeated
    key keeping its last value. *)
Fixpoint parse_value (fuel : nat) (s : jsstring) : parsed value :=
  match fuel with
  | O => OutOfFuel
  | S fuel =>
      match s with
      | [] => Invalid
      | c :: s' =>
          if c =? 123 then
            match skip_ws s' with
            | [] => Invalid
            | d :: s'' =>
                if d =? 125 then Parsed (VObject ∅) s''
                else
                  match parse_members fuel (d :: s'') ∅ with
                  | Parsed m rest => Parsed (VObject m) rest
                  | Invalid => Invalid
                  | OutOfFuel => OutOfFuel
                  end
            end
          else if c =? 91 then
            match skip_ws s' with
            | [] => Invalid
            | d :: s'' =>
                if d =? 93 then Parsed (VArray []) s''
                else
                  match parse_elements fuel (d :: s'') with
                  | Parsed l rest => Parsed (VArray l) rest
                  | Invalid => Invalid
                  | OutOfFuel => OutOfFuel
                  end
            end
          else if c =? 34 then
            match parse_chars s' with
            | Some (str, rest) => Parsed (VString str) rest
            | None => Invalid
            end
          else if (c =? 45) || is_digit c then
            match parse_number s with
            | Some (n, rest) => Parsed (VNumber n) rest
            | None => Invalid
            end
          else of_option (parse_literal s)
      end
  end
with parse_elements (fuel : nat) (s : jsstring) : parsed (list value) :=
  match fuel with
  | O => OutOfFuel
  | S fuel =>
      match parse_value fuel s with
      | Parsed v rest =>
          match skip_ws rest with
          | [] => Invalid
          | d :: rest' =>
              if d =? 44 then
                match parse_elements fuel (skip_ws rest') with
                | Parsed l rest'' => Parsed (v :: l) rest''
                | Invalid => Invalid
                | OutOfFuel => OutOfFuel
                end
              else if d =? 93 then Parsed [v] rest'
              else Invalid
          end
      | Invalid => Invalid
      | OutOfFuel => OutOfFuel
      end
  end
with parse_members (fuel : nat) (s : jsstring)
    (acc : gmap (list N) value) : parsed (gmap (list N) value) :=
  match fuel with
  | O => OutOfFuel
  | S fuel =>
      match s with
      | [] => Invalid
      | q :: s' =>
          if q =? 34 then
            match parse_chars s' with
            | None => Invalid
            | Some (key, s1) =>
                match skip_ws s1 with
                | [] => Invalid
                | colon :: s2 =>
                    if colon =? 58 then
                      match parse_value fuel (skip_ws s2) with
                      | Parsed v rest =>
                          match skip_ws rest with
                          | [] => Invalid
                          | d :: rest' =>
                              if d =? 44 then
                                parse_members fuel (skip_ws rest')
                                  (<[key := v]> acc)
                              else if d =? 125 then
                                Parsed (<[key := v]> acc) rest'
                              else Invalid
                          end
                      | Invalid => Invalid
                      | OutOfFuel => OutOfFuel
                      end
                    else Invalid
                end
            end
          else Invalid
      end
  end.

(** Recursion budget that suffices for [text]. *)
Definition fuel_for (text : jsstring) : nat := 2 * length text + 1.

(** [JSON.parse(text)]: the value of a JSON text, [None] for the
    [SyntaxError] it throws on anything else. *)
Definition parse (text : jsstring) : option value :=
  match parse_value (fuel_for text) (skip_ws text) with
  | Parsed v rest =>
      match skip_ws rest with
      | [] => Some v
      | _ :: _ => None
      end
  | _ => None
  end.

End JSON.

(** ** Exceptions *)

(** The [TypeError]s of the engine that the pipeline can run into. *)
Inductive type_error : Type :=
| CannotReadProperty (target : value) (property : jsstring)
| NotAFunction (callee : value).

(** A thrown value. [Error] is [new Error(message)]; [SyntaxError] is
    what [JSON.parse(text)] throws; [NotAnError] is a thrown or rejected
    value that is not an instance of [Error]. *)
Inductive thrown : Type :=
| Error (message : jsstring)
| SyntaxError (text : jsstring)
| TypeError (cause : type_error)
| NotAnError (v : value).

(** [e instanceof Error] *)
Definition instanceof_Error (e : thrown) : bool :=
  match e with NotAnError _ => false | _ => true end.

(** The [message] of an error: the text given to [new Error], or the
    engine's own wording for the errors the engine raises, which the
    language leaves to the implementation. *)
Inductive message : Type :=
| Text (s : jsstring)
| EngineText (e : thrown).

Definition message_of (e : thrown) : message :=
  match e with
  | Error m => Text m
  | _ => EngineText e
  end.

Inductive outcome (A : Type) : Type :=
| Return (a : A)
| Throw (e : thrown).
Arguments Return {A} a.
Arguments Throw {A} e.

#[global] Instance outcome_ret : MRet outcome := λ A a, Return a.
#[global] Instance outcome_bind : MBind outcome := λ A B f m,
  match m with Return a => f a | Throw e => Throw e end.

(** ** The data contract of the analysis *)

(** [AnalysisResult] as it is at run time: the TypeScript interface is
    not checked, so a risk is whatever object the spread built, and the
    score, the clause count and the revised sections are whatever the
    payload held. *)
Record AnalysisResult : Type := MkAnalysisResult {
  risks : list (gmap (list N) value);
  overallScore : value;
  totalClauses : value;
  originalText : jsstring;
  revisedSections : value
}.

(** [v.key], for a property name that no built-in prototype defines and
    that is neither an index nor [length] (the names the pipeline reads:
    risks, overallScore, totalClauses, revisedSections). *)
Definition Get (v : value) (key : jsstring) : outcome value :=
  match v with
  | VUndefined | VNull => Throw (TypeError (CannotReadProperty v key))
  | VObject m => Return (default VUndefined (m !! key))
  | _ => Return VUndefined
  end.

(** [v.map(f)] for a value that came out of [JSON.parse]: only an array
    has a callable [map]. *)
Definition call_map {B} (v : value) (f : value → nat → B) : outcome (list B) :=
  match v with
  | VArray l => Return (imap (λ index x, f x index) l)
  | VUndefined | VNull => Throw (TypeError (CannotReadProperty v (js "map")))
  | VObject m => Throw (TypeError (NotAFunction (default VUndefined (m !! js "map"))))
  | _ => Throw (TypeError (NotAFunction VUndefined))
  end.

(** [{ ...risk, id: `risk-${index + 1}` }] *)
Definition with_id (risk : value) (index : nat) : gmap (list N) value :=
  <[js "id" := VString (js "risk-" ++ nat_to_string (index + 1))]>
    (own_enumerable_properties risk).

(** [a || b] *)
Definition or_else (a b : value) : value := if ToBoolean a then a else b.

(** Lines 150-162 of [analyzeContract]: from the parsed payload to the
    result. *)
Definition normalize (contractText : jsstring) (analysisData : value)
    : outcome AnalysisResult :=
  risks_ ← Get analysisData (js "risks");
  risksWithIds ← call_map risks_ with_id;
  overallScore_ ← Get analysisData (js "overallScore");
  totalClauses_ ← Get analysisData (js "totalClauses");
  revisedSections_ ← Get analysisData (js "revisedSections");
  mret {| risks := risksWithIds;
          overallScore := overallScore_;
          totalClauses := totalClauses_;
          originalText := contractText;
          revisedSections := or_else revisedSections_ (VArray []) |}.

(** [JSON.parse] with its exception. *)
Definition JSON_parse (text : jsstring) : outcome value :=
  match JSON.parse text with
  | Some v => Return v
  | None => Throw (SyntaxError text)
  end.

(** Lines 146-148 of [analyzeContract]: from the raw response text to the
    parsed payload. *)
Definition parsePayload (response : jsstring) : outcome value :=
  let cleanResponse := cleanResponse response in
  JSON_parse cleanResponse.

(** Lines 146-162 of [analyzeContract], the response parser and
    normalizer: from the raw response text to the result. *)
Definition parseResponse (contractText response : jsstring)
    : outcome AnalysisResult :=
  analysisData ← parsePayload response;
  normalize contractText analysisData.

(** A response that holds [j] in a fenced code block: the opening fence
    with or without the language tag, [j], and the closing fence, with
    or without a line break between each fence and [j]. *)
Definition wrap (tag line_before line_after : bool) (j : jsstring)
    : jsstring :=
  (if tag then fence_json else fence) ++
  (if line_before then newline else []) ++
  j ++
  (if line_after then newline else []) ++ fence.

(** ** The platform and the effects of the pipeline *)

Record File : Type := MkFile {
  file_name : jsstring;
  file_type : jsstring;
  file_bytes : list N
}.

Record ChatRequest : Type := MkChatRequest {
  messages : list (jsstring * jsstring);   (* role, content *)
  model : jsstring;
  temperature : number;
  max_tokens : N
}.

(** A chat completion as the SDK types it: [choices[i].message.content]
    is [string | null]; the source guards the first choice and its
    message with [?.]. *)
Record ChatMessage : Type := MkChatMessage { content : option jsstring }.
Record Choice : Type := MkChoice { choice_message : option ChatMessage }.
Record ChatCompletion : Type := MkChatCompletion { choices : list Choice }.

(** What surrounds the pipeline: the build-time environment, the
    browser's file reader, the mammoth library, the completion endpoint
    and the clock. *)
Record Platform : Type := MkPlatform {
  VITE_GROQ_API_KEY : option jsstring;
  (** [FileReader.readAsText]: the text on load, [None] on error *)
  readAsText : File → option jsstring;
  (** [import('mammoth')], [file.arrayBuffer()] and
      [mammoth.extractRawText], whose [value] is returned *)
  extractRawText : File → outcome jsstring;
  (** what a call of [groq.chat.completions.create] settles with: the
      completion of the endpoint, or the failure that the client gives
      up with *)
  completions_create : ChatRequest → outcome ChatCompletion;
  (** [new Date()], in milliseconds *)
  now : Z
}.

(** What the pipeline does to the outside. [NetworkRequest] is a call of
    [groq.chat.completions.create]: the request as it is handed to the
    client. The client of [getGroqClient] keeps the retries of the SDK, so
    that one call may reach the endpoint more than once; how often it
    does is not recorded. Without a call nothing is sent. *)
Inductive event : Type :=
| FileRead (file : File)
| NetworkRequest (apiKey : jsstring) (request : ChatRequest)
| ConsoleError (label : jsstring) (e : thrown).

(** The requests handed to the completion client, out of a log: one for
    each call of [groq.chat.completions.create]. *)
Definition network_requests (evs : list event) : list ChatRequest :=
  omap (λ ev, match ev with NetworkRequest _ r => Some r | _ => None end) evs.

Inductive view : Type :=
| landing | upload | analysis | compare | pricing | success.

(** The React state that [handleFileUpload] writes. *)
Record AppState : Type := MkAppState {
  currentView : view;
  uploadedFile : option File;
  analysisResult : option AnalysisResult;
  isAnalyzing : bool;
  analysisError : option message;
  originalContractText : jsstring;
  uploadedFileName : jsstring;
  uploadedAt : Z
}.

Record World : Type := MkWorld {
  ui : AppState;
  (** the effects so far, the latest first *)
  log : list event
}.

(** A computation of the pipeline: it reads the platform, changes the
    world and returns or throws. *)
Definition M (A : Type) : Type := Platform → World → outcome A * World.

#[global] Instance M_ret : MRet M := λ A a _ w, (Return a, w).
#[global] Instance M_bind : MBind M := λ A B f m p w,
  match m p w with
  | (Return a, w') => f a p w'
  | (Throw e, w') => (Throw e, w')
  end.

Definition throw {A} (e : thrown) : M A := λ _ w, (Throw e, w).

Definition lift {A} (o : outcome A) : M A := λ _ w, (o, w).

Definition ask : M Platform := λ p w, (Return p, w).

Definition emit (ev : event) : M unit :=
  λ _ w, (Return (), {| ui := ui w; log := ev :: log w |}).

Definition update (f : AppState → AppState) : M unit :=
  λ _ w, (Return (), {| ui := f (ui w); log := log w |}).

(** [try { body } catch (error) { handler }] *)
Definition try_catch {A} (body : M A) (handler : thrown → M A) : M A :=
  λ p w,
    match body p w with
    | (Return a, w') => (Return a, w')
    | (Throw e, w') => handler e p w'
    end.

(** [try { body } finally { final }] *)
Definition try_finally {A} (body : M A) (final : M unit) : M A :=
  λ p w,
    let '(o, w') := body p w in
    match final p w' with
    | (Return _, w'') => (o, w'')
    | (Throw e, w'') => (Throw e, w'')
    end.

Definition console_error (label : jsstring) (e : thrown) : M unit :=
  emit (ConsoleError label e).

(** ** src/services/contractAnalyzer.ts *)

Record Groq : Type := MkGroq {
  apiKey : jsstring;
  dangerouslyAllowBrowser : bool
}.

Definition key_message : jsstring :=
  js "Groq API key not found. Please add VITE_GROQ_API_KEY to your .env file.".

Definition getGroqClient : M Groq :=
  p ← ask;
  let apiKey := VITE_GROQ_API_KEY p in
  match apiKey with
  | Some key =>
      if string_falsy key
      then throw (Error key_message)
      else mret {| apiKey := key; dangerouslyAllowBrowser := true |}
  | None => throw (Error key_message)
  end.

(** [groq.chat.completions.create(request)]: one call of the client,
    with the request recorded as handed over. *)
Definition chat_completions_create (groq : Groq) (request : ChatRequest)
    : M ChatCompletion :=
  emit (NetworkRequest (apiKey groq) request);;
  p ← ask;
  lift (completions_create p request).

Definition pdf_type : jsstring := js "application/pdf".
Definition docx_type : jsstring :=
  js "application/vnd.openxmlformats-officedocument.wordprocessingml.document".
Definition text_type : jsstring := js "text/plain".

Definition pdf_message : jsstring :=
  js "PDF files are not yet supported. Please convert your contract to a DOCX file or copy/paste the text into a new Word document and upload that instead.".
Definition docx_message : jsstring :=
  js "Error reading DOCX file. Please ensure the file is not corrupted.".
Definition text_message : jsstring := js "Error reading text file".
Definition unsupported_message : jsstring :=
  js "Unsupported file type. Please upload a DOCX or TXT file.".

Definition extractTextFromFile (file : File) : M jsstring :=
  if decide (file_type file = pdf_type) then
    throw (Error pdf_message)
  else if decide (file_type file = docx_type) then
    try_catch
      (emit (FileRead file);;
       p ← ask;
       lift (extractRawText p file))
      (λ error, throw (Error docx_message))
  else if decide (file_type file = text_type) then
    emit (FileRead file);;
    p ← ask;
    match readAsText p file with
    | Some result => mret result
    | None => throw (Error text_message)
    end
  else
    throw (Error unsupported_message).

(** The template of the prompt, before and after the contract text. In
    [prompt_tail] the double quotes of the source are written [@]. *)
Definition prompt_head : jsstring :=
  js "
You are a legal expert analyzing a contract for potential risks. Analyze the following contract text and identify problematic clauses.

Contract Text:
".

Definition prompt_tail : jsstring :=
  jsq "

Please analyze this contract and identify risks in the following categories:
1. Payment Terms (vague timelines, unclear amounts, no late fees)
2. Intellectual Property (unclear ownership, missing IP clauses)
3. Scope of Work (unlimited revisions, vague deliverables)
4. Termination (no notice period, unfair termination clauses)
5. Liability (unlimited liability, missing limitation clauses)
6. Non-compete (overly broad restrictions)
7. Confidentiality (missing or weak NDAs)

For each risk found, provide:
- Risk level (high/medium/low)
- Category
- Brief description
- Plain English explanation of why it's problematic
- Specific suggestion for improvement
- Location in contract (section/clause reference if available)
- Original problematic clause text (exact quote from contract)
- Suggested replacement clause text

Also provide:
- Overall risk score (0-100, where 100 is safest)
- Total number of clauses analyzed
- For the top 3-5 most important risks, provide revised sections showing original vs improved text

Format your response as a JSON object with this structure:
{
  @risks@: [
    {
      @type@: @high|medium|low@,
      @category@: @category name@,
      @description@: @brief description@,
      @explanation@: @why this is problematic@,
      @suggestion@: @specific improvement suggestion@,
      @location@: @section reference@
      @originalClause@: @exact text from contract@,
      @suggestedClause@: @improved replacement text@
    }
  ],
  @overallScore@: number,
  @totalClauses@: number,
  @revisedSections@: [
    {
      @section@: @section name/number@,
      @original@: @original problematic text@,
      @revised@: @improved text with changes highlighted@
    }
  ]
}

Only return the JSON object, no other text.
".

(** [completion.choices[0]?.message?.content] *)
Definition first_content (completion : ChatCompletion) : option jsstring :=
  match choices completion with
  | choice :: _ =>
      match choice_message choice with
      | Some m => content m
      | None => None
      end
  | [] => None
  end.

Definition no_response_message : jsstring := js "No response from AI analysis".
Definition unexpected_message : jsstring :=
  js "An unexpected error occurred during analysis".

(** The prompt of [analyzeContract], a template literal. *)
Definition build_prompt (contractText : jsstring) : jsstring :=
  prompt_head ++ contractText ++ prompt_tail.

(** The argument of [groq.chat.completions.create]. *)
Definition analysis_request (prompt : jsstring) : ChatRequest :=
  {| messages := [(js "user", prompt)];
     model := js "llama-3.3-70b-versatile";
     temperature := MkNumber false 1 (-1);
     max_tokens := 4000 |}.

Definition analyzeContract (contractText : jsstring) : M AnalysisResult :=
  let prompt := build_prompt contractText in
  try_catch
    (groq ← getGroqClient;
     completion ← chat_completions_create groq (analysis_request prompt);
     let response := first_content completion in
     match response with
     | Some response =>
         if string_falsy response
         then throw (Error no_response_message)
         else lift (parseResponse contractText response)
     | None => throw (Error no_response_message)
     end)
    (λ error,
       console_error (js "Error analyzing contract:") error;;
       if instanceof_Error error then throw error
       else throw (Error unexpected_message)).

(** ** src/App.tsx *)

Definition setUploadedFile (x : option File) : M unit :=
  update (λ st, MkAppState (currentView st) x (analysisResult st)
    (isAnalyzing st) (analysisError st) (originalContractText st)
    (uploadedFileName st) (uploadedAt st)).
Definition setUploadedFileName (x : jsstring) : M unit :=
  update (λ st, MkAppState (currentView st) (uploadedFile st)
    (analysisResult st) (isAnalyzing st) (analysisError st)
    (originalContractText st) x (uploadedAt st)).
Definition setUploadedAt (x : Z) : M unit :=
  update (λ st, MkAppState (currentView st) (uploadedFile st)
    (analysisResult st) (isAnalyzing st) (analysisError st)
    (originalContractText st) (uploadedFileName st) x).
Definition setCurrentView (x : view) : M unit :=
  update (λ st, MkAppState x (uploadedFile st) (analysisResult st)
    (isAnalyzing st) (analysisError st) (originalContractText st)
    (uploadedFileName st) (uploadedAt st)).
Definition setIsAnalyzing (x : bool) : M unit :=
  update (λ st, MkAppState (currentView st) (uploadedFile st)
    (analysisResult st) x (analysisError st) (originalContractText st)
    (uploadedFileName st) (uploadedAt st)).
Definition setAnalysisError (x : option message) : M unit :=
  update (λ st, MkAppState (currentView st) (uploadedFile st)
    (analysisResult st) (isAnalyzing st) x (originalContractText st)
    (uploadedFileName st) (uploadedAt st)).
Definition setOriginalContractText (x : jsstring) : M unit :=
  update (λ st, MkAppState (currentView st) (uploadedFile st)
    (analysisResult st) (isAnalyzing st) (analysisError st) x
    (uploadedFileName st) (uploadedAt st)).
Definition setAnalysisResult (x : option AnalysisResult) : M unit :=
  update (λ st, MkAppState (currentView st) (uploadedFile st) x
    (isAnalyzing st) (analysisError st) (originalContractText st)
    (uploadedFileName st) (uploadedAt st)).

Definition insufficient_message : jsstring :=
  js "Unable to extract sufficient text from the file. Please ensure the file contains readable contract text.".

(** [!contractText || contractText.trim().length < 100] *)
Definition insufficient (contractText : jsstring) : bool :=
  string_falsy contractText || (length (trim contractText) <? 100)%nat.

(** Lines 31-36 of [handleFileUpload]. *)
Definition begin_upload (file : File) : M unit :=
  setUploadedFile (Some file);;
  setUploadedFileName (file_name file);;
  p ← ask;
  setUploadedAt (now p);;
  setCurrentView analysis;;
  setIsAnalyzing true;;
  setAnalysisError None.

(** Lines 51-53, the [catch] block of [handleFileUpload]. *)
Definition report_failure (error : thrown) : M unit :=
  console_error (js "Analysis error:") error;;
  setAnalysisError
    (Some (if instanceof_Error error then message_of error
           else Text (js "An error occurred during analysis")));;
  setAnalysisResult None.

(** Lines 47-56 of [handleFileUpload]: the call of the analysis client
    and what follows it, the [catch] and [finally] blocks included. *)
Definition analyze_and_settle (analyze : jsstring → M AnalysisResult)
    (contractText : jsstring) : M unit :=
  try_finally
    (try_catch
       (result ← analyze contractText;
        setAnalysisResult (Some result))
       report_failure)
    (setIsAnalyzing false).

(** [handleFileUpload], with the analysis client it calls as a parameter
    so that a test double can stand in for [analyzeContract]. *)
Definition handleFileUpload_with (analyze : jsstring → M AnalysisResult)
    (file : File) : M unit :=
  begin_upload file;;
  try_finally
    (try_catch
       (contractText ← extractTextFromFile file;
        setOriginalContractText contractText;;
        (if insufficient contractText
         then throw (Error insufficient_message)
         else mret ());;
        result ← analyze contractText;
        setAnalysisResult (Some result))
       report_failure)
    (setIsAnalyzing false).

Definition handleFileUpload : File → M unit :=
  handleFileUpload_with analyzeContract.

(** ** A test scenario

    The end-to-end scenario of the specification: a plain-text contract,
    a configured key and an endpoint that answers with a fenced JSON
    payload. The platform is a function of what varies between tests. *)

Definition sample_text : jsstring :=
  js "Payment due within 30 days of invoice with no late fee specified. Payment due within 30 days of invoice with no late fee specified.".

Definition sample_json : jsstring :=
  jsq "{@risks@:[{@type@:@medium@,@category@:@Payment Terms@}],@overallScore@:70}".

Definition sample_file : File := MkFile (js "contract.txt") text_type [].

Definition completion_of (response : jsstring) : ChatCompletion :=
  MkChatCompletion [MkChoice (Some (MkChatMessage (Some response)))].

Definition test_platform (key : option jsstring) (text response : jsstring)
    : Platform :=
  {| VITE_GROQ_API_KEY := key;
     readAsText := λ _, Some text;
     extractRawText := λ _, Return text;
     completions_create := λ _, Return (completion_of response);
     now := 0 |}.

Definition initial_world : World :=
  MkWorld (MkAppState landing None None false None [] [] 0) [].

Definition short_text : jsstring := js "Payment due within 30 days.".

(** 100 characters between a blank and a line feed. *)
Definition hundred_text : jsstring := [32] ++ replicate 100 120 ++ [10].

(** 12 characters followed by 100 blanks. *)
Definition blank_padded_text : jsstring :=
  js "Payment due." ++ replicate 100 32.

Definition trailing_comma : jsstring := jsq "{@risks@: [],}".
Definition truncated_braces : jsstring := jsq "{@risks@: [{@type@: @high@".

(** A payload whose first risk has a severity outside the taxonomy and an
    identifier of its own, and whose other risks are not objects. *)
Definition sample_payload : gmap (list N) value :=
  {[ js "risks" :=
       VArray [VObject {[ js "type" := VString (js "catastrophic");
                          js "id" := VString (js "supplied") ]};
               VNull;
               VString (js "ab")];
     js "revisedSections" := VArray [VNull] ]}.

Definition sample_platform : Platform :=
  test_platform (Some (js "key")) sample_text (wrap true true true sample_json).
Definition short_platform : Platform :=
  test_platform (Some (js "key")) short_text sample_json.
Definition keyless_platform : Platform :=
  test_platform None sample_text sample_json.
Definition malformed_platform : Platform :=
  test_platform (Some (js "key")) sample_text trailing_comma.
Definition hundred_platform : Platform :=
  test_platform (Some (js "key")) hundred_text sample_json.
Definition blank_platform : Platform :=
  test_platform (Some (js "key")) blank_padded_text sample_json.

(** ** Patterns with a class, a lazy star and a group

    The fragment of ECMAScript patterns that the two regular expressions
    of [src/App.tsx] are written in: literal characters, a class atom
    (such as [.] or [[^a-zA-Z0-9]]), [c*?] for a class atom [c], one
    capture group and concatenation, matched by backtracking with a
    continuation; the continuation takes what is left of the input and
    the text captured so far. *)
Module Pattern.

Inductive pattern : Type :=
| Lit (lit : jsstring)
| Class (member : N → bool)
| LazyStar (member : N → bool)
| Group (r : pattern)
| Seq (r1 r2 : pattern).

(** Where a match ends: what is left of the input, and the capture. *)
Definition result : Type := jsstring * option jsstring.

Fixpoint matcher (r : pattern) (s : jsstring) (capture : option jsstring)
    (k : jsstring → option jsstring → option result) : option result :=
  match r with
  | Lit lit =>
      match RegExp.strip_prefix lit s with
      | Some rest => k rest capture
      | None => None
      end
  | Class member =>
      match s with
      | c :: rest => if member c then k rest capture else None
      | [] => None
      end
  | LazyStar member =>
      (* the shortest repetition first *)
      (fix star (s : jsstring) : option result :=
         match k s capture with
         | Some final => Some final
         | None =>
             match s with
             | c :: rest => if member c then star rest else None
             | [] => None
             end
         end) s
  | Group r' =>
      matcher r' s capture
        (λ rest _, k rest (Some (take (length s - length rest) s)))
  | Seq r1 r2 =>
      matcher r1 s capture (λ rest capture', matcher r2 rest capture' k)
  end.

Definition exec_at (r : pattern) (s : jsstring) : option result :=
  matcher r s None (λ rest capture, Some (rest, capture)).

(** A replacement string, cut at its [$1]. *)
Inductive piece : Type :=
| Verbatim (text : jsstring)
| Captured.

(** [GetSubstitution]: a group that took no part in the match is replaced
    by the empty string. *)
Definition substitute (template : list piece) (capture : option jsstring)
    : jsstring :=
  concat ((λ p, match p with
                | Verbatim text => text
                | Captured => default [] capture
                end) <$> template).

(** The scan of [s.replace(/r/g, template)], as [RegExp.replace_go]. *)
Fixpoint replace_go (fuel : nat) (r : pattern) (template : list piece)
    (s : jsstring) : jsstring :=
  match fuel with
  | O => s
  | S fuel' =>
      match exec_at r s with
      | Some (rest, capture) =>
          let by_ := substitute template capture in
          if decide (length rest < length s)%nat
          then by_ ++ replace_go fuel' r template rest
          else match s with
               | [] => by_
               | c :: s' => by_ ++ c :: replace_go fuel' r template s'
               end
      | None =>
          match s with
          | [] => []
          | c :: s' => c :: replace_go fuel' r template s'
          end
      end
  end.

Definition replace (r : pattern) (template : list piece) (s : jsstring)
    : jsstring :=
  replace_go (S (length s)) r template s.

End Pattern.

(** ** [URLSearchParams]

    The parser of [application/x-www-form-urlencoded] of the URL
    standard: the query is encoded in UTF-8, cut at [&], each piece at
    its first [=], [+] stands for a space, percent escapes are decoded
    and the bytes are decoded as UTF-8, with U+FFFD for what is
    malformed. *)
Module URL.

Definition is_high (c : N) : bool := (0xD800 <=? c) && (c <=? 0xDBFF).
Definition is_low (c : N) : bool := (0xDC00 <=? c) && (c <=? 0xDFFF).

(** The scalar values of a string: a surrogate pair is one code point, a
    lone surrogate is replaced by U+FFFD. *)
Fixpoint scalar_values (s : jsstring) : list N :=
  match s with
  | [] => []
  | c :: s' =>
      if is_high c then
        match s' with
        | d :: s'' =>
            if is_low d
            then (0x10000 + (c - 0xD800) * 0x400 + (d - 0xDC00)) :: scalar_values s''
            else 0xFFFD :: scalar_values s'
        | [] => [0xFFFD]
        end
      else if is_low c then 0xFFFD :: scalar_values s'
      else c :: scalar_values s'
  end.

(** The code units of a sequence of scalar values. *)
Definition code_units (cps : list N) : jsstring :=
  cps ≫= λ cp,
    if cp <? 0x10000 then [cp]
    else [0xD800 + (cp - 0x10000) / 0x400; 0xDC00 + (cp - 0x10000) mod 0x400].

Definition utf8_encode (cps : list N) : list N :=
  cps ≫= λ cp,
    if cp <? 0x80 then [cp]
    else if cp <? 0x800 then [0xC0 + cp / 0x40; 0x80 + cp mod 0x40]
    else if cp <? 0x10000 then
      [0xE0 + cp / 0x1000; 0x80 + (cp / 0x40) mod 0x40; 0x80 + cp mod 0x40]
    else
      [0xF0 + cp / 0x40000; 0x80 + (cp / 0x1000) mod 0x40;
       0x80 + (cp / 0x40) mod 0x40; 0x80 + cp mod 0x40].

(** The UTF-8 decoder of the Encoding standard, with replacement: [cp]
    is the code point under way, [needed] the number of continuation
    bytes it still lacks, [lower] and [upper] the bounds of the next
    one. A byte that cannot continue a sequence ends it with U+FFFD and
    is read again as the start of a new one. *)
Fixpoint utf8_decode_go (bytes : list N) (cp needed lower upper : N) : list N :=
  match bytes with
  | [] => if needed =? 0 then [] else [0xFFFD]
  | b :: bytes' =>
      let start :=
        if b <=? 0x7F then b :: utf8_decode_go bytes' 0 0 0x80 0xBF
        else if (0xC2 <=? b) && (b <=? 0xDF) then
          utf8_decode_go bytes' (b - 0xC0) 1 0x80 0xBF
        else if (0xE0 <=? b) && (b <=? 0xEF) then
          utf8_decode_go bytes' (b - 0xE0) 2
            (if b =? 0xE0 then 0xA0 else 0x80) (if b =? 0xED then 0x9F else 0xBF)
        else if (0xF0 <=? b) && (b <=? 0xF4) then
          utf8_decode_go bytes' (b - 0xF0) 3
            (if b =? 0xF0 then 0x90 else 0x80) (if b =? 0xF4 then 0x8F else 0xBF)
        else 0xFFFD :: utf8_decode_go bytes' 0 0 0x80 0xBF in
      if needed =? 0 then start
      else if (lower <=? b) && (b <=? upper) then
        let cp' := cp * 0x40 + (b - 0x80) in
        if needed =? 1 then cp' :: utf8_decode_go bytes' 0 0 0x80 0xBF
        else utf8_decode_go bytes' cp' (needed - 1) 0x80 0xBF
      else 0xFFFD :: start
  end.

Definition utf8_decode (bytes : list N) : list N :=
  utf8_decode_go bytes 0 0 0x80 0xBF.

(** [%XX] becomes the byte it names; a [%] that two hexadecimal digits
    do not follow stays. *)
Fixpoint percent_decode (bytes : list N) : list N :=
  match bytes with
  | [] => []
  | b :: bytes' =>
      if b =? 37 then
        match bytes' with
        | h :: l :: rest =>
            match JSON.hex_digit h, JSON.hex_digit l with
            | Some x, Some y => (16 * x + y) :: percent_decode rest
            | _, _ => b :: percent_decode bytes'
            end
        | _ => b :: percent_decode bytes'
        end
      else b :: percent_decode bytes'
  end.

(** The pieces of [bytes] between the occurrences of [sep]. *)
Fixpoint split_on (sep : N) (bytes : list N) : list (list N) :=
  match bytes with
  | [] => [[]]
  | b :: bytes' =>
      if b =? sep then [] :: split_on sep bytes'
      else match split_on sep bytes' with
           | piece :: pieces => (b :: piece) :: pieces
           | [] => [[b]]
           end
  end.

(** [bytes] before and after its first [sep]; all of it and nothing when
    there is none. *)
Fixpoint cut_at (sep : N) (bytes : list N) : list N * list N :=
  match bytes with
  | [] => ([], [])
  | b :: bytes' =>
      if b =? sep then ([], bytes')
      else let '(before, after) := cut_at sep bytes' in (b :: before, after)
  end.

Definition decode_component (bytes : list N) : jsstring :=
  code_units
    (utf8_decode (percent_decode ((λ b, if b =? 43 then 32 else b) <$> bytes))).

Definition parse_urlencoded (bytes : list N) : list (jsstring * jsstring) :=
  omap (λ piece,
          match piece with
          | [] => None
          | _ => let '(name, value) := cut_at 61 piece in
                 Some (decode_component name, decode_component value)
          end)
       (split_on 38 bytes).

(** [new URLSearchParams(init)] for a string: a leading [?] is dropped. *)
Definition URLSearchParams (init : jsstring) : list (jsstring * jsstring) :=
  let query := match init with 63 :: rest => rest | _ => init end in
  parse_urlencoded (utf8_encode (scalar_values query)).

(** [params.get(name)]: the value of the first pair of that name, or
    [null]. *)
Definition get (params : list (jsstring * jsstring)) (name : jsstring)
    : option jsstring :=
  snd <$> List.find (λ pair, bool_decide (pair.1 = name)) params.

End URL.

(** ** src/stripe-config.ts *)

Inductive payment_mode : Type := Payment | Subscription.
Inductive billing_interval : Type := Month | Year.

(** A product of the catalogue. Prices are whole numbers of dollars. *)
Module StripeProduct.
Record t : Type := mk {
  id : jsstring;
  name : jsstring;
  description : jsstring;
  priceId : jsstring;
  price : Z;
  mode : payment_mode;
  interval : option billing_interval;
  popular : option bool;
  features : list jsstring
}.
End StripeProduct.

Definition stripeProducts : list StripeProduct.t :=
  [ {| StripeProduct.id := js "prod_Sdz8PGwuqtqf8P";
       StripeProduct.name := js "Pay Per Check";
       StripeProduct.description :=
         js "Comprehensive risk analysis Detailed explanations Revision suggestions Export functionality Side-by-side comparison Priority processing";
       StripeProduct.priceId := js "price_1RihAMH9UjiUVq1X9N2VniYs";
       StripeProduct.price := 25;
       StripeProduct.mode := Payment;
       StripeProduct.interval := None;
       StripeProduct.features :=
         [js "Comprehensive risk analysis"; js "Detailed explanations";
          js "Revision suggestions"; js "Export functionality";
          js "Side-by-side comparison"; js "Priority processing"];
       StripeProduct.popular := Some true |};
    {| StripeProduct.id := js "prod_Sdz9MO674hKLsu";
       StripeProduct.name := js "Pro";
       StripeProduct.description := [];
       StripeProduct.priceId := js "price_1RihBPH9UjiUVq1X9YN1izl7";
       StripeProduct.price := 39;
       StripeProduct.mode := Subscription;
       StripeProduct.interval := Some Month;
       StripeProduct.features :=
         [js "Unlimited contract analysis"; js "Priority support";
          js "Contract templates"; js "Advanced analytics";
          js "Bulk processing"; js "API access"; js "Custom integrations"];
       StripeProduct.popular := None |} ].

(** [Number.isSafeInteger]: the integers that a number holds exactly and
    apart from their neighbours. *)
Definition safe_integer (z : Z) : Prop := (- 2 ^ 53 < z < 2 ^ 53)%Z.

(** [`${price}`] for a safe integer: its decimal digits, after a minus
    sign when it is negative. (From 2^53 on a number no longer holds
    every integer and is written with the shortest digits that
    distinguish it, from 10^21 on with an exponent.) *)
Definition integer_to_string (z : Z) : jsstring :=
  (if (z <? 0)%Z then [45] else []) ++ digits_of_uint (N.to_uint (Z.abs_N z)).

(** The prices of this model are the safe integers, as those of the
    catalogue are: a price with a fraction, [NaN] and the infinities are
    left out, and what is proved of [formatPrice] is proved for
    [safe_integer] prices. *)
Definition formatPrice (price : Z) (mode : payment_mode)
    (interval : option billing_interval) : jsstring :=
  if (price =? 0)%Z then js "Free"
  else
    let formattedPrice := js "$" ++ integer_to_string price in
    match mode, interval with
    | Subscription, Some interval =>
        formattedPrice ++ js "/" ++
        match interval with Month => js "mo" | Year => js "yr" end
    | _, _ => formattedPrice
    end.

(** [stripeProducts.find(p => p.id === productId)] *)
Definition find_by_id (productId : jsstring) : option StripeProduct.t :=
  List.find (λ p, bool_decide (StripeProduct.id p = productId)) stripeProducts.

(** ** src/components/SuccessPage.tsx *)

Definition unknown_plan : jsstring := js "Unknown Plan".

(** The effect that runs when the page is mounted, as a function of
    [window.location.search] and of the state [purchasedProduct] before
    it: the state after it. *)
Definition SuccessPage_effect (search : jsstring)
    (purchasedProduct : option jsstring) : option jsstring :=
  let urlParams := URL.URLSearchParams search in
  let planId := URL.get urlParams (js "plan") in
  match planId with
  | Some planId =>
      if string_falsy planId then purchasedProduct
      else
        let product := find_by_id planId in
        Some (match product with
              | Some product =>
                  if string_falsy (StripeProduct.name product)
                  then unknown_plan
                  else StripeProduct.name product
              | None => unknown_plan
              end)
  | None => purchasedProduct
  end.

(** ** src/hooks/useSubscription.ts *)

(** The rows of the subscription service, which is not among the sources
    at hand, are kept as the objects they are at run time. *)
Definition UserSubscription : Type := gmap (list N) value.
Definition UserOrder : Type := value.

Module AuthUser.
Record t : Type := mk { id : jsstring; email : jsstring }.
End AuthUser.

Record SubscriptionService : Type := MkSubscriptionService {
  getUserSubscription : outcome (option UserSubscription);
  getUserOrders : outcome (list UserOrder);
  (** whether the orders request settles before the subscription request *)
  orders_settle_first : bool
}.

(** [Promise.all([a, b])]: both values, or the first rejection. *)
Definition Promise_all {A B} (a : outcome A) (b : outcome B)
    (b_settles_first : bool) : outcome (A * B) :=
  match a, b with
  | Return x, Return y => Return (x, y)
  | Throw e, Return _ => Throw e
  | Return _, Throw e => Throw e
  | Throw ea, Throw eb => Throw (if b_settles_first then eb else ea)
  end.

Record SubscriptionState : Type := MkSubscriptionState {
  subscription : option UserSubscription;
  orders : list UserOrder;
  loading : bool;
  (** what the hook wrote to the console, the latest first *)
  console : list (jsstring * thrown)
}.

Definition setSubscription (x : option UserSubscription) (st : SubscriptionState)
    : SubscriptionState :=
  MkSubscriptionState x (orders st) (loading st) (console st).
Definition setOrders (x : list UserOrder) (st : SubscriptionState)
    : SubscriptionState :=
  MkSubscriptionState (subscription st) x (loading st) (console st).
Definition setLoading (x : bool) (st : SubscriptionState) : SubscriptionState :=
  MkSubscriptionState (subscription st) (orders st) x (console st).
Definition subscription_console_error (label : jsstring) (e : thrown)
    (st : SubscriptionState) : SubscriptionState :=
  MkSubscriptionState (subscription st) (orders st) (loading st)
    ((label, e) :: console st).

(** The effect of [useSubscription], run to the end of its promise
    chain: the state after it. *)
Definition useSubscription_effect (service : SubscriptionService)
    (user : option AuthUser.t) (st : SubscriptionState) : SubscriptionState :=
  match user with
  | None => setOrders [] (setSubscription None st)
  | Some _ =>
      let st := setLoading true st in
      let st :=
        match Promise_all (getUserSubscription service) (getUserOrders service)
                (orders_settle_first service) with
        | Return (subscriptionData, ordersData) =>
            setOrders ordersData (setSubscription subscriptionData st)
        | Throw error =>
            subscription_console_error (js "Error fetching subscription data:")
              error st
        end in
      setLoading false st
  end.

(** ** src/App.tsx: payment, navigation and export *)

(** [v === s] for a string [s]. *)
Definition is_string (s : jsstring) (v : value) : bool :=
  match v with
  | VString t => bool_decide (t = s)
  | _ => false
  end.

(** [getActiveSubscription]: the product of the catalogue whose price the
    subscription names; [None] stands for [null] and [undefined]. *)
Definition getActiveSubscription (subscription : option UserSubscription)
    : option StripeProduct.t :=
  match subscription with
  | None => None
  | Some subscription =>
      let product :=
        List.find
          (λ p, is_string (StripeProduct.priceId p)
                  (default VUndefined (subscription !! js "price_id")))
          stripeProducts in
      product
  end.

(** [s.split(sep)[0]] for a separator of one character: [s] up to its
    first [sep], all of [s] when there is none. *)
Fixpoint first_piece (sep : N) (s : jsstring) : jsstring :=
  match s with
  | [] => []
  | c :: s' => if c =? sep then [] else c :: first_piece sep s'
  end.

Inductive auth_mode : Type := signin | signup.

Record AuthModal : Type := MkAuthModal {
  isOpen : bool;
  mode : auth_mode
}.

(** [{ ...analysisResult, fileName: uploadedFileName }] *)
Record NamedAnalysis : Type := MkNamedAnalysis {
  named : AnalysisResult;
  fileName : jsstring
}.

(** The argument of [generateAnalysisReport]. *)
Record ReportData : Type := MkReportData {
  report_fileName : jsstring;
  report_analysisResult : NamedAnalysis;
  report_originalText : jsstring;
  report_uploadedAt : Z
}.

(** What surrounds the handlers of this part: the window, the clock and
    the services of the repository that are not among the sources at
    hand (subscription, authentication and export). *)
Record Services : Type := MkServices {
  (** [window.location.origin] *)
  location_origin : jsstring;
  (** [new Date().toISOString()] *)
  toISOString : jsstring;
  (** the [url] of the session that [createCheckoutSession] resolves to,
      [None] when it has none *)
  createCheckoutSession :
    jsstring → payment_mode → jsstring → jsstring → outcome (option jsstring);
  signOut : outcome unit;
  generateAnalysisReport : ReportData → outcome jsstring;
  generateRevisedContract : jsstring → NamedAnalysis → outcome jsstring;
  downloadTextFile : jsstring → jsstring → outcome unit
}.

Inductive effect : Type :=
| CheckoutSession (priceId : jsstring) (mode : payment_mode)
    (successUrl cancelUrl : jsstring)
| SignOut
| Navigate (href : jsstring)
| Alert (text : jsstring)
| Download (content filename : jsstring)
| Console (label : jsstring) (e : thrown).

(** The React state of [App] and what its handlers did, the latest
    first. [user] is the user of [useAuth] that the handlers were
    rendered with: they read it and have no way to set it. It is the
    listener of [useAuth] that sets it, whenever the authentication
    service reports a change; that listener is outside the handlers and
    is not modelled, so that nothing is said here of the user after a
    handler. *)
Record Shell : Type := MkShell {
  appState : AppState;
  authModal : AuthModal;
  selectedProduct : option jsstring;
  isProcessingPayment : bool;
  user : option AuthUser.t;
  effects : list effect
}.

(** A handler: it reads the services, changes the shell and returns or
    throws. *)
Module Handler.

Definition t (A : Type) : Type := Services → Shell → outcome A * Shell.

#[global] Instance ret : MRet t := λ A a _ s, (Return a, s).
#[global] Instance bind : MBind t := λ A B f m svc s,
  match m svc s with
  | (Return a, s') => f a svc s'
  | (Throw e, s') => (Throw e, s')
  end.

Definition lift {A} (o : outcome A) : t A := λ _ s, (o, s).

Definition ask : t Services := λ svc s, (Return svc, s).

Definition get : t Shell := λ _ s, (Return s, s).

Definition modify (f : Shell → Shell) : t unit := λ _ s, (Return (), f s).

Definition perform (eff : effect) : t unit :=
  modify (λ s, MkShell (appState s) (authModal s) (selectedProduct s)
                 (isProcessingPayment s) (user s) (eff :: effects s)).

Definition try_catch {A} (body : t A) (handler : thrown → t A) : t A :=
  λ svc s,
    match body svc s with
    | (Return a, s') => (Return a, s')
    | (Throw e, s') => handler e svc s'
    end.

Definition try_finally {A} (body : t A) (final : t unit) : t A :=
  λ svc s,
    let '(o, s') := body svc s in
    match final svc s' with
    | (Return _, s'') => (o, s'')
    | (Throw e, s'') => (Throw e, s'')
    end.

End Handler.

Definition setAuthModal (x : AuthModal) : Handler.t unit :=
  Handler.modify (λ s, MkShell (appState s) x (selectedProduct s)
                         (isProcessingPayment s) (user s) (effects s)).
Definition setSelectedProduct (x : option jsstring) : Handler.t unit :=
  Handler.modify (λ s, MkShell (appState s) (authModal s) x
                         (isProcessingPayment s) (user s) (effects s)).
Definition setIsProcessingPayment (x : bool) : Handler.t unit :=
  Handler.modify (λ s, MkShell (appState s) (authModal s) (selectedProduct s)
                         x (user s) (effects s)).
(** [setCurrentView] in a handler of this part. *)
Definition show_view (x : view) : Handler.t unit :=
  Handler.modify (λ s,
    MkShell
      (MkAppState x (uploadedFile (appState s)) (analysisResult (appState s))
         (isAnalyzing (appState s)) (analysisError (appState s))
         (originalContractText (appState s)) (uploadedFileName (appState s))
         (uploadedAt (appState s)))
      (authModal s) (selectedProduct s) (isProcessingPayment s) (user s)
      (effects s)).

Definition payment_failed_message : jsstring :=
  js "Payment processing failed. Please try again.".

Definition handleProductSelection (productId : jsstring) : Handler.t unit :=
  let product := find_by_id productId in
  match product with
  | None => mret ()
  | Some product =>
      s ← Handler.get;
      match user s with
      | None => setAuthModal {| isOpen := true; mode := signin |}
      | Some _ =>
          setSelectedProduct (Some productId);;
          setIsProcessingPayment true;;
          Handler.try_finally
            (Handler.try_catch
               (svc ← Handler.ask;
                let successUrl :=
                  location_origin svc ++ js "?view=success&plan=" ++ productId in
                let cancelUrl := location_origin svc ++ js "?view=pricing" in
                Handler.perform
                  (CheckoutSession (StripeProduct.priceId product)
                     (StripeProduct.mode product) successUrl cancelUrl);;
                url ← Handler.lift
                        (createCheckoutSession svc (StripeProduct.priceId product)
                           (StripeProduct.mode product) successUrl cancelUrl);
                match url with
                | Some url =>
                    if string_falsy url then mret ()
                    else Handler.perform (Navigate url)
                | None => mret ()
                end)
               (λ error,
                  Handler.perform (Console (js "Payment error:") error);;
                  Handler.perform (Alert payment_failed_message)))
            (setIsProcessingPayment false;;
             setSelectedProduct None)
      end
  end.

Definition handleFreeAccess : Handler.t unit :=
  s ← Handler.get;
  match user s with
  | None => setAuthModal {| isOpen := true; mode := signin |}
  | Some _ => show_view upload
  end.

(** A sign-out that succeeds reaches the user through the listener of
    [useAuth], not through this handler. *)
Definition handleSignOut : Handler.t unit :=
  Handler.try_catch
    (Handler.perform SignOut;;
     svc ← Handler.ask;
     Handler.lift (signOut svc);;
     show_view landing)
    (λ error, Handler.perform (Console (js "Sign out error:") error)).

(** The effect of [App] that reads the URL when the application is
    mounted. *)
Definition App_effect (search : jsstring) : Handler.t unit :=
  let urlParams := URL.URLSearchParams search in
  let view := URL.get urlParams (js "view") in
  match view with
  | Some view => if bool_decide (view = js "success") then show_view success
                 else mret ()
  | None => mret ()
  end.

(** [/[^a-zA-Z0-9]/] *)
Definition alphanumeric (c : N) : bool :=
  ((97 <=? c) && (c <=? 122)) || ((65 <=? c) && (c <=? 90)) ||
  ((48 <=? c) && (c <=? 57)).

Definition unsafe_re : Pattern.pattern :=
  Pattern.Class (λ c, negb (alphanumeric c)).

(** [uploadedFileName.replace(/[^a-zA-Z0-9]/g, '_')] *)
Definition safeFileName (uploadedFileName : jsstring) : jsstring :=
  Pattern.replace unsafe_re [Pattern.Verbatim (js "_")] uploadedFileName.

(** The name of an exported file:
    [`ContractGuard_${kind}_${safeFileName}_${timestamp}.txt`]. *)
Definition export_name (kind uploadedFileName iso : jsstring) : jsstring :=
  let timestamp := first_piece 84 iso in
  let safeFileName := safeFileName uploadedFileName in
  js "ContractGuard_" ++ kind ++ js "_" ++ safeFileName ++ js "_" ++
  timestamp ++ js ".txt".

Definition call_downloadTextFile (content filename : jsstring) : Handler.t unit :=
  Handler.perform (Download content filename);;
  svc ← Handler.ask;
  Handler.lift (downloadTextFile svc content filename).

Definition handleExportReport : Handler.t unit :=
  s ← Handler.get;
  match analysisResult (appState s) with
  | None => mret ()
  | Some analysisResult =>
      svc ← Handler.ask;
      report ← Handler.lift
        (generateAnalysisReport svc
           {| report_fileName := uploadedFileName (appState s);
              report_analysisResult :=
                {| named := analysisResult;
                   fileName := uploadedFileName (appState s) |};
              report_originalText := originalContractText (appState s);
              report_uploadedAt := uploadedAt (appState s) |});
      call_downloadTextFile report
        (export_name (js "Analysis") (uploadedFileName (appState s)) (toISOString svc))
  end.

Definition handleExportRevised : Handler.t unit :=
  s ← Handler.get;
  match analysisResult (appState s) with
  | None => mret ()
  | Some analysisResult =>
      if string_falsy (originalContractText (appState s)) then mret ()
      else
        svc ← Handler.ask;
        revisedContract ← Handler.lift
          (generateRevisedContract svc (originalContractText (appState s))
             {| named := analysisResult;
                fileName := uploadedFileName (appState s) |});
        call_downloadTextFile revisedContract
          (export_name (js "Revised") (uploadedFileName (appState s)) (toISOString svc))
  end.

(** [analysisResult.risks.filter(r => r.type === level).length], the
    counters of the analysis page. *)
Definition count_risks (level : jsstring) (analysisResult : AnalysisResult)
    : nat :=
  length
    (List.filter (λ r : gmap (list N) value,
                    is_string level (default VUndefined (r !! js "type")))
       (risks analysisResult)).

(** The markup of the comparison page:
    [section.revised.replace(/\*\*(.*?)\*\*/g,
       '<span class="bg-green-200 font-medium">$1</span>')] *)
Definition stars : jsstring := [42; 42].

(** [.] matches every character but a line terminator. *)
Definition dot (c : N) : bool :=
  negb (bool_decide (c ∈ [10; 13; 8232; 8233])).

Definition marked_re : Pattern.pattern :=
  Pattern.Seq (Pattern.Lit stars)
    (Pattern.Seq (Pattern.Group (Pattern.LazyStar dot)) (Pattern.Lit stars)).

Definition span_open : jsstring :=
  Eval vm_compute in jsq "<span class=@bg-green-200 font-medium@>".
Definition span_close : jsstring := Eval vm_compute in js "</span>".

Definition highlight (revised : jsstring) : jsstring :=
  Pattern.replace marked_re
    [Pattern.Verbatim span_open; Pattern.Captured; Pattern.Verbatim span_close]
    revised.

(** ** More test doubles *)

Definition no_choice_platform : Platform :=
  {| VITE_GROQ_API_KEY := Some (js "key");
     readAsText := λ _, Some sample_text;
     extractRawText := λ _, Return sample_text;
     completions_create := λ _, Return (MkChatCompletion []);
     now := 0 |}.

Definition failing_platform (e : thrown) : Platform :=
  {| VITE_GROQ_API_KEY := Some (js "key");
     readAsText := λ _, Some sample_text;
     extractRawText := λ _, Return sample_text;
     completions_create := λ _, Throw e;
     now := 0 |}.

Definition chatty_response : jsstring :=
  js "Here is the analysis: " ++ wrap true true true sample_json.

Definition signed_off_response : jsstring :=
  wrap true true true sample_json ++ newline ++ js "Let me know if you need more.".

Definition signed_out : Shell :=
  MkShell (ui initial_world) (MkAuthModal false signup) None false None [].

Definition signed_in : Shell :=
  MkShell (ui initial_world) (MkAuthModal false signin) None false
    (Some (AuthUser.mk (js "u1") (js "ada@example.org"))) [].

Definition test_services (session : outcome (option jsstring)) : Services :=
  {| location_origin := js "https://contractguard.example";
     toISOString := js "2025-07-08T09:10:11.123Z";
     createCheckoutSession := λ _ _ _ _, session;
     signOut := Return ();
     generateAnalysisReport := λ data, Return (js "Report for " ++ report_fileName data);
     generateRevisedContract := λ text _, Return text;
     downloadTextFile := λ _ _, Return () |}.

Definition mixed_risks : gmap (list N) value :=
  {[ js "risks" :=
       VArray [VObject {[ js "type" := VString (js "high") ]};
               VObject {[ js "type" := VString (js "HIGH") ]};
               VObject {[ js "type" := VString (js "medium") ]};
               VObject {[ js "type" := VString (js "low") ]};
               VObject {[ js "category" := VString (js "Liability") ]}] ]}.

(** ** Vocabulary of the properties *)

(** The characters a JSON value can begin with. *)
Definition value_start (c : N) : bool :=
  (c =? 123) || (c =? 91) || (c =? 34) || (c =? 45) || JSON.is_digit c ||
  (c =? 116) || (c =? 102) || (c =? 110).

(** The characters a JSON value can end with. *)
Definition closer (c : N) : bool :=
  (c =? 125) || (c =? 93) || (c =? 34) || JSON.is_digit c ||
  (c =? 101) || (c =? 108).

(** A parsing outcome with [tail] appended to what is left of the input. *)
Definition parsed_app {A} (r : JSON.parsed A) (tail : jsstring)
    : JSON.parsed A :=
  match r with
  | JSON.Parsed a rest => JSON.Parsed a (rest ++ tail)
  | JSON.Invalid => JSON.Invalid
  | JSON.OutOfFuel => JSON.OutOfFuel
  end.

(** Decimal numerals as they are read. [risk-k] names the number [k] by
    its numeral; what a numeral stands for is told here digit by digit,
    apart from the function that writes numerals. *)

(** The value of a decimal digit. *)
Definition digit_value (c : N) : option nat :=
  if (48 <=? c) && (c <=? 57) then Some (N.to_nat (c - 48)) else None.

(** The digits [s] read from the left, after digits that made [acc]. *)
Fixpoint digits_value (acc : nat) (s : jsstring) : option nat :=
  match s with
  | [] => Some acc
  | c :: s' => d ← digit_value c; digits_value (10 * acc + d) s'
  end.


(** What a handler that contains its failures leaves alone. *)
Definition contained (handler : Handler.t unit) (svc : Services) (s : Shell)
    : Prop :=
  let final := handler svc s in
  fst final = Return () ∧
  effects s `suffix_of` effects (snd final) ∧
  (is_Some (user s) → authModal (snd final) = authModal s) ∧
  (user s = None → currentView (appState (snd final)) ≠ upload ∨
                   currentView (appState s) = upload) ∧
  analysisResult (appState (snd final)) = analysisResult (appState s) ∧
  analysisError (appState (snd final)) = analysisError (appState s) ∧
  originalContractText (appState (snd final)) = originalContractText (appState s).

(** * Properties *)

(** ** Decimal numerals *)

Lemma digits_of_uint_inj u1 u2 :
  digits_of_uint u1 = digits_of_uint u2 → u1 = u2.
Proof.
  revert u2.
  induction u1 as [|u1 IH|u1 IH|u1 IH|u1 IH|u1 IH|u1 IH|u1 IH|u1 IH|u1 IH|u1 IH];
    intros [] H; simplify_eq/=; f_equal; auto.
Qed.

(** Distinct indices get distinct decimal numerals. *)
Lemma nat_to_string_inj m n : nat_to_string m = nat_to_string n → m = n.
Proof.
  intros H%digits_of_uint_inj.
  by rewrite <- (Unsigned.of_to m), <- (Unsigned.of_to n), H.
Qed.







(** ** The regular-expression scan *)

Lemma replace_go_fuel r by_ fuel1 fuel2 s :
  (length s < fuel1)%nat → (length s < fuel2)%nat →
  RegExp.replace_go fuel1 r by_ s = RegExp.replace_go fuel2 r by_ s.
Proof.
  revert fuel2 s. induction fuel1 as [|fuel1 IH]; intros fuel2 s H1 H2; [lia|].
  destruct fuel2 as [|fuel2]; [lia|]. simpl.
  destruct (RegExp.exec_at r s) as [rest|].
  - case_decide.
    + f_equal. apply IH; lia.
    + destruct s as [|c s']; [done|]. simpl in *. do 2 f_equal. apply IH; lia.
  - destruct s as [|c s']; [done|]. simpl in *. f_equal. apply IH; lia.
Qed.

(** The scan, one step at a time: the budget of [RegExp.replace] always
    suffices. *)
Lemma replace_unfold r by_ s :
  RegExp.replace r by_ s =
    match RegExp.exec_at r s with
    | Some rest =>
        if decide (length rest < length s)%nat
        then by_ ++ RegExp.replace r by_ rest
        else match s with
             | [] => by_
             | c :: s' => by_ ++ c :: RegExp.replace r by_ s'
             end
    | None =>
        match s with
        | [] => []
        | c :: s' => c :: RegExp.replace r by_ s'
        end
    end.
Proof.
  unfold RegExp.replace at 1. cbn [RegExp.replace_go].
  destruct (RegExp.exec_at r s) as [rest|].
  - case_decide.
    + f_equal. apply replace_go_fuel; lia.
    + by destruct s.
  - by destruct s.
Qed.

(** One step of case analysis on the characters at the head of the
    scanned text. *)
Ltac head_step :=
  match goal with
  | |- context [N.eqb ?a ?b] =>
      first
        [ is_var b; destruct (N.eqb_spec a b); [subst b|]
        | let v := eval vm_compute in (N.eqb a b) in
          change (N.eqb a b) with v ]
  | |- context [match ?l ++ _ with _ => _ end] => is_var l; destruct l
  | |- context [match ?l with _ => _ end] => is_var l; destruct l
  | |- context [decide ?P] =>
      destruct (decide P);
      [|exfalso; simpl in *; rewrite ?length_app in *; simpl in *; lia]
  end.

Ltac head_cases := repeat (cbn -[N.eqb RegExp.replace]; head_step).

(** Evaluate the comparisons of two known characters. *)
Ltac eqb_consts :=
  repeat (cbn -[N.eqb RegExp.replace];
    match goal with
    | |- context [N.eqb ?a ?b] =>
        tryif is_var b then fail
        else (let v := eval vm_compute in (N.eqb a b) in
              change (N.eqb a b) with v)
    end);
  cbn -[N.eqb RegExp.replace].

Ltac by_shorter IH :=
  try lazymatch goal with |- _ :: _ = _ :: _ => f_equal end;
  lazymatch goal with
  | |- _ = RegExp.replace _ _ ?t => apply (IH t); simpl; lia
  end.

(** A closing fence on a line of its own after [j] leaves no trace. *)
Lemma strip_closing j :
  strip_fences (j ++ newline ++ fence) = strip_fences j.
Proof.
  remember (length j) as n eqn:Hn. revert j Hn.
  induction (lt_wf n) as [n _ IH]. intros j ->.
  assert (IH' : ∀ j', (length j' < length j)%nat →
            strip_fences (j' ++ newline ++ fence) = strip_fences j').
  { intros j' Hlt. by eapply IH. }
  clear IH. unfold strip_fences in *.
  rewrite (replace_unfold _ _ (j ++ _)), (replace_unfold _ _ j).
  unfold RegExp.exec_at.
  destruct j as [|c1 j]; [by vm_compute|].
  unfold fence_re at 1 3. unfold fence_json, fence, newline in *.
  head_cases; try reflexivity; cbn -[N.eqb RegExp.replace]; by_shorter IH'.
Qed.

(** Text without a backtick is left as it is. *)
Lemma strip_no_backtick j : 96 ∉ j → strip_fences j = j.
Proof.
  induction j as [|c j IH]; [by vm_compute|]. intros Hnot.
  apply not_elem_of_cons in Hnot as [Hc Hj]. unfold strip_fences in *.
  rewrite replace_unfold.
  unfold RegExp.exec_at, fence_re at 1, fence_json, fence, newline.
  eqb_consts.
  destruct (N.eqb_spec 96 c) as [<-|_]; [done|].
  destruct (N.eqb_spec 10 c) as [<-|_]; [|by rewrite IH].
  destruct j as [|d j]; [by rewrite IH|].
  eqb_consts.
  destruct (N.eqb_spec 96 d) as [<-|_]; [set_solver|]. by rewrite IH.
Qed.

(** ** Trimming *)

Lemma trimStart_length s : (length (trimStart s) ≤ length s)%nat.
Proof.
  induction s as [|c s IH]; simpl; [lia|].
  destruct (is_white_space c); simpl; lia.
Qed.

Lemma trim_length s : (length (trim s) ≤ length s)%nat.
Proof.
  unfold trim, trimEnd. rewrite length_reverse.
  etrans; [apply trimStart_length|]. rewrite length_reverse.
  apply trimStart_length.
Qed.

(** ** Fences around a text *)

(** A closing fence right after a character that is neither a backtick
    nor a line feed leaves no trace. *)
Lemma strip_closing_compact s c :
  c ≠ 96 → c ≠ 10 → last s = Some c →
  strip_fences (s ++ fence) = strip_fences s.
Proof.
  intros Hc1 Hc2. remember (length s) as n eqn:Hn. revert s Hn.
  induction (lt_wf n) as [n _ IH]. intros s -> Hlast.
  assert (IH' : ∀ s', (length s' < length s)%nat → last s' = Some c →
            strip_fences (s' ++ fence) = strip_fences s').
  { intros s' Hlt. by eapply IH. }
  clear IH. unfold strip_fences in *.
  rewrite (replace_unfold _ _ (s ++ _)), (replace_unfold _ _ s).
  unfold RegExp.exec_at.
  unfold fence_re at 1 3. unfold fence_json, fence, newline in *.
  head_cases; try done; cbn -[N.eqb RegExp.replace].
  all: try (simpl in Hlast; congruence).
  all: try lazymatch goal with |- _ :: _ = _ :: _ => f_equal end.
  all: lazymatch goal with
       | |- _ = RegExp.replace _ _ ?t =>
           first
             [ apply (IH' t); [simpl; lia|exact Hlast]
             | is_var t; destruct t;
               [ first [simpl in Hlast; congruence | by vm_compute]
               | apply (IH' _); [simpl; lia|exact Hlast] ] ]
       end.
Qed.

(** A line feed at the end of the text is either kept or taken by a
    tagged fence right before it. *)
Lemma strip_snoc_newline s :
  ∃ t, (t = [] ∨ t = [10]) ∧ strip_fences (s ++ [10]) = strip_fences s ++ t.
Proof.
  remember (length s) as n eqn:Hn. revert s Hn.
  induction (lt_wf n) as [n _ IH]. intros s ->.
  assert (IH' : ∀ s', (length s' < length s)%nat →
            ∃ t, (t = [] ∨ t = [10]) ∧
                 strip_fences (s' ++ [10]) = strip_fences s' ++ t).
  { intros s' Hlt. by eapply IH. }
  clear IH. unfold strip_fences in *.
  rewrite (replace_unfold _ _ (s ++ _)), (replace_unfold _ _ s).
  unfold RegExp.exec_at.
  unfold fence_re at 1 3. unfold fence_json, fence, newline in *.
  head_cases; cbn -[N.eqb RegExp.replace].
  all: try (by (exists []; vm_compute; auto)).
  all: try (by (exists [10]; vm_compute; auto)).
  all: match goal with
       | |- context [RegExp.replace _ _ ?x] =>
           destruct (IH' x ltac:(simpl; lia)) as (t & Ht & Heq);
           exists t; split; [exact Ht|];
           cbn -[N.eqb RegExp.replace] in Heq |- *; by rewrite Heq
       end.
Qed.

Lemma trimStart_snoc x c :
  is_white_space c = true →
  trimStart (x ++ [c]) = match trimStart x with [] => [] | y => y ++ [c] end.
Proof.
  intros Hc. induction x as [|d x IH]; simpl; [by rewrite Hc|].
  by destruct (is_white_space d).
Qed.

Lemma trimEnd_snoc y c :
  is_white_space c = true → trimEnd (y ++ [c]) = trimEnd y.
Proof. intros Hc. unfold trimEnd. rewrite reverse_snoc. simpl. by rewrite Hc. Qed.

Lemma trim_snoc_newline x t :
  t = [] ∨ t = [10] → trim (x ++ t) = trim x.
Proof.
  intros [-> | ->]; [by rewrite app_nil_r|].
  unfold trim. rewrite trimStart_snoc by done.
  destruct (trimStart x) as [|d y] eqn:E; [done|].
  by rewrite trimEnd_snoc.
Qed.

(** A closing fence right after the text. *)
Lemma clean_closing_compact j :
  last j ≠ Some 96 →
  trim (strip_fences (j ++ fence)) = trim (strip_fences j).
Proof.
  intros Hlast. destruct (last j) as [c|] eqn:Hc.
  - destruct (N.eq_dec c 10) as [->|Hne].
    + apply last_Some in Hc as [j0 ->]. rewrite <- app_assoc.
      change ([10] ++ fence) with (newline ++ fence). rewrite strip_closing.
      destruct (strip_snoc_newline j0) as (t & Ht & ->).
      by rewrite trim_snoc_newline.
    + rewrite (strip_closing_compact j c); [done| |done..]. congruence.
  - apply last_None in Hc as ->. by vm_compute.
Qed.

Lemma strip_newline_cons X :
  head X ≠ Some 96 → strip_fences (10 :: X) = 10 :: strip_fences X.
Proof.
  intros H. unfold strip_fences. rewrite replace_unfold.
  unfold RegExp.exec_at, fence_re at 1, fence_json, fence, newline.
  destruct X as [|c X]; [by vm_compute|].
  eqb_consts. destruct (N.eqb_spec 96 c) as [<-|_]; [done|]. by eqb_consts.
Qed.

Lemma strip_open_tagged_line X :
  strip_fences (fence_json ++ newline ++ X) = strip_fences X.
Proof.
  unfold strip_fences. rewrite replace_unfold.
  unfold RegExp.exec_at, fence_re at 1, fence_json, fence, newline.
  cbn -[RegExp.replace]. case_decide; [done|]. exfalso. simpl in *. lia.
Qed.

Lemma strip_open_tagged X :
  head X ≠ Some 10 → strip_fences (fence_json ++ X) = strip_fences X.
Proof.
  intros H. unfold strip_fences. rewrite replace_unfold.
  unfold RegExp.exec_at, fence_re at 1, fence_json, fence, newline.
  destruct X as [|c X]; [by vm_compute|].
  eqb_consts. destruct (N.eqb_spec 10 c) as [<-|_]; [done|].
  case_decide; [done|]. exfalso. simpl in *. lia.
Qed.

Lemma strip_open_plain X :
  head X ≠ Some 106 → strip_fences (fence ++ X) = strip_fences X.
Proof.
  intros H. unfold strip_fences. rewrite replace_unfold.
  unfold RegExp.exec_at, fence_re at 1, fence_json, fence, newline.
  destruct X as [|c X]; [by vm_compute|].
  eqb_consts. destruct (N.eqb_spec 106 c) as [<-|_]; [done|].
  eqb_consts. case_decide; [done|]. exfalso. simpl in *. lia.
Qed.

(** An opening fence before a text that begins like a JSON text. *)
Lemma clean_opening (tag line_before : bool) c X :
  c ≠ 96 → c ≠ 106 → (c = 10 → head X ≠ Some 96) →
  trim (strip_fences ((if tag then fence_json else fence) ++
                      (if line_before then newline else []) ++ c :: X)) =
  trim (strip_fences (c :: X)).
Proof.
  intros H1 H2 H3. destruct tag, line_before.
  - by rewrite strip_open_tagged_line.
  - rewrite app_nil_l. destruct (N.eq_dec c 10) as [->|Hne].
    + change (fence_json ++ 10 :: X) with (fence_json ++ newline ++ X).
      rewrite strip_open_tagged_line, strip_newline_cons by auto. done.
    + rewrite strip_open_tagged; [done|]. simpl. congruence.
  - rewrite strip_open_plain by done.
    change (newline ++ c :: X) with (10 :: c :: X).
    rewrite strip_newline_cons; [done|]. simpl. congruence.
  - rewrite app_nil_l, strip_open_plain; [done|]. simpl. congruence.
Qed.

(** ** JSON.parse: every parsing function consumes input, the budget of
    [JSON.parse] is never exhausted, and white space around a text does
    not matter *)

Section json_parser.
Import JSON.

Lemma skip_ws_length s : (length (skip_ws s) ≤ length s)%nat.
Proof. induction s as [|c s IH]; simpl; [lia|]. destruct (is_ws c); simpl; lia. Qed.

Lemma strip_prefix_length lit s rest :
  RegExp.strip_prefix lit s = Some rest → (length rest + length lit = length s)%nat.
Proof.
  revert s. induction lit as [|c lit IH]; intros [|d s] H; simplify_eq/=; try lia.
  destruct (c =? d); [|done]. apply IH in H. lia.
Qed.

Lemma parse_chars_length s str rest :
  parse_chars s = Some (str, rest) → (length rest < length s)%nat.
Proof.
  remember (length s) as n eqn:Hn. revert s str rest Hn.
  induction (lt_wf n) as [n _ IH]. intros s str rest -> H.
  destruct s as [|c s]; [done|]. simpl in H.
  repeat case_match; simplify_eq/=; try lia.
  all: match goal with
       | H : parse_chars ?t = Some _ |- _ =>
           eapply (IH (length t)) in H; [|simpl; lia|reflexivity]; simpl in *; lia
       end.
Qed.

Lemma take_digits_length s ds rest :
  take_digits s = (ds, rest) → (length rest ≤ length s)%nat.
Proof.
  revert ds rest. induction s as [|c s IH]; intros ds rest H; simplify_eq/=; [lia|].
  destruct (is_digit c); simplify_eq/=; [|lia].
  destruct (take_digits s) as [ds' rest'] eqn:E. simplify_eq.
  specialize (IH _ _ eq_refl). lia.
Qed.

Lemma parse_int_length s ds rest :
  parse_int s = Some (ds, rest) → (length rest < length s)%nat.
Proof.
  destruct s as [|c s]; [done|]. unfold parse_int.
  destruct (c =? 48); [intros; simplify_eq/=; lia|].
  destruct (is_digit c) eqn:Hc; [|done]. intros H.
  injection H as H. simpl in H. rewrite Hc in H.
  destruct (take_digits s) as [ds' rest'] eqn:E. simplify_eq.
  apply take_digits_length in E. simpl. lia.
Qed.

Lemma parse_frac_length s ds rest :
  parse_frac s = Some (ds, rest) → (length rest ≤ length s)%nat.
Proof.
  destruct s as [|c s]; unfold parse_frac; [intros; simplify_eq/=; lia|].
  destruct (c =? 46); [|intros; simplify_eq/=; lia].
  destruct (take_digits s) as [[|d ds'] rest'] eqn:E; [done|].
  intros; simplify_eq. apply take_digits_length in E. simpl. lia.
Qed.

Lemma parse_exp_length s e rest :
  parse_exp s = Some (e, rest) → (length rest ≤ length s)%nat.
Proof.
  destruct s as [|c s]; unfold parse_exp; [intros; simplify_eq/=; lia|].
  destruct ((c =? 101) || (c =? 69)); [|intros; simplify_eq/=; lia].
  intros H.
  destruct s as [|d s']; [done|].
  destruct (d =? 45); [|destruct (d =? 43)].
  all: match type of H with
       | context [take_digits ?t] =>
           destruct (take_digits t) as [[|x ds] rest'] eqn:E; [done|]
       end; simplify_eq; apply take_digits_length in E; simpl in *; lia.
Qed.

Lemma parse_number_length s n rest :
  parse_number s = Some (n, rest) → (length rest < length s)%nat.
Proof.
  unfold parse_number. intros H.
  repeat case_match; simplify_eq.
  all: repeat match goal with
       | H : parse_int _ = Some _ |- _ => apply parse_int_length in H
       | H : parse_frac _ = Some _ |- _ => apply parse_frac_length in H
       | H : parse_exp _ = Some _ |- _ => apply parse_exp_length in H
       end; simpl in *; lia.
Qed.

Lemma parse_literal_length s v rest :
  parse_literal s = Some (v, rest) → (length rest < length s)%nat.
Proof.
  unfold parse_literal. intros H.
  repeat case_match; simplify_eq.
  all: match goal with
       | H : RegExp.strip_prefix _ _ = Some _ |- _ =>
           apply strip_prefix_length in H; simpl in H; lia
       end.
Qed.

Ltac use_lengths :=
  repeat match goal with
  | H : skip_ws ?s = _ |- _ =>
      let L := fresh "L" in
      pose proof (skip_ws_length s) as L; rewrite H in L; clear H
  | H : parse_chars _ = Some _ |- _ => apply parse_chars_length in H
  | H : parse_number _ = Some _ |- _ => apply parse_number_length in H
  | H : parse_literal _ = Some _ |- _ => apply parse_literal_length in H
  end;
  repeat match goal with
  | H : context [length (skip_ws ?s)] |- _ =>
      lazymatch goal with
      | _ : (length (skip_ws s) ≤ length s)%nat |- _ => fail
      | _ => pose proof (skip_ws_length s)
      end
  | |- context [length (skip_ws ?s)] =>
      lazymatch goal with
      | _ : (length (skip_ws s) ≤ length s)%nat |- _ => fail
      | _ => pose proof (skip_ws_length s)
      end
  end.

Lemma parse_length fuel :
  (∀ s v rest, parse_value fuel s = Parsed v rest →
     (length rest < length s)%nat) ∧
  (∀ s l rest, parse_elements fuel s = Parsed l rest →
     (length rest < length s)%nat) ∧
  (∀ s acc m rest, parse_members fuel s acc = Parsed m rest →
     (length rest < length s)%nat).
Proof.
  induction fuel as [|fuel (IHv & IHe & IHm)]; [done|].
  split_and!.
  - intros s v rest H. cbn [parse_value] in H. unfold of_option in H.
    repeat case_match; simplify_eq.
    all: repeat match goal with
         | H : parse_elements _ _ = Parsed _ _ |- _ => apply IHe in H
         | H : parse_members _ _ _ = Parsed _ _ |- _ => apply IHm in H
         end; use_lengths; simpl in *; lia.
  - intros s l rest H. cbn [parse_elements] in H.
    repeat case_match; simplify_eq.
    all: repeat match goal with
         | H : parse_elements _ _ = Parsed _ _ |- _ => apply IHe in H
         | H : parse_value _ _ = Parsed _ _ |- _ => apply IHv in H
         end; use_lengths; simpl in *; lia.
  - intros s acc m rest H. cbn [parse_members] in H.
    repeat case_match; simplify_eq.
    all: repeat match goal with
         | H : parse_members _ _ _ = Parsed _ _ |- _ => apply IHm in H
         | H : parse_value _ _ = Parsed _ _ |- _ => apply IHv in H
         end; use_lengths; simpl in *; lia.
Qed.

Lemma parse_fuel fuel :
  (∀ s, (2 * length s + 1 ≤ fuel)%nat → parse_value fuel s ≠ OutOfFuel) ∧
  (∀ s, (2 * length s + 2 ≤ fuel)%nat → parse_elements fuel s ≠ OutOfFuel) ∧
  (∀ s acc, (2 * length s + 2 ≤ fuel)%nat → parse_members fuel s acc ≠ OutOfFuel).
Proof.
  induction fuel as [|fuel (IHv & IHe & IHm)]; [split_and!; intros; lia|].
  split_and!.
  - intros s Hf H. cbn [parse_value] in H. unfold of_option in H.
    repeat case_match; simplify_eq.
    all: match goal with
         | H : parse_elements _ _ = OutOfFuel |- _ => apply IHe in H; [done|]
         | H : parse_members _ _ _ = OutOfFuel |- _ => apply IHm in H; [done|]
         end; use_lengths; simpl in *; lia.
  - intros s Hf H. cbn [parse_elements] in H.
    repeat case_match; simplify_eq.
    all: match goal with
         | H : parse_elements _ _ = OutOfFuel |- _ => apply IHe in H; [done|]
         | H : parse_value _ _ = OutOfFuel |- _ => apply IHv in H; [done|]
         end;
         repeat match goal with
         | H : parse_value _ _ = Parsed _ _ |- _ => apply (proj1 (parse_length _)) in H
         end; use_lengths; simpl in *; lia.
  - intros s acc Hf H. cbn [parse_members] in H.
    repeat case_match; simplify_eq.
    all: match goal with
         | H : parse_members _ _ _ = OutOfFuel |- _ => apply IHm in H; [done|]
         | H : parse_value _ _ = OutOfFuel |- _ => apply IHv in H; [done|]
         end;
         repeat match goal with
         | H : parse_value _ _ = Parsed _ _ |- _ => apply (proj1 (parse_length _)) in H
         end; use_lengths; simpl in *; lia.
Qed.

Lemma parse_value_fuel text :
  parse_value (fuel_for text) (skip_ws text) ≠ OutOfFuel.
Proof.
  apply parse_fuel. pose proof (skip_ws_length text). unfold fuel_for. lia.
Qed.

(** *** What a JSON text begins and ends with *)

Lemma skip_ws_suffix s : skip_ws s `suffix_of` s.
Proof.
  induction s as [|c s IH]; simpl; [done|].
  destruct (is_ws c); [by apply suffix_cons_r|done].
Qed.

Lemma strip_prefix_app lit s rest :
  RegExp.strip_prefix lit s = Some rest → s = lit ++ rest.
Proof.
  revert s. induction lit as [|c lit IH]; intros [|d s] H; simplify_eq/=; try done.
  destruct (N.eqb_spec c d) as [->|]; [|done]. f_equal. by apply IH.
Qed.

(** Walk down a chain of suffixes. *)
Ltac walk :=
  first
    [ reflexivity
    | assumption
    | match goal with
      | H : ?m `suffix_of` ?s |- _ `suffix_of` ?s => etrans; [|exact H]; walk
      end
    | apply suffix_cons_r; walk ].

Ltac eqb_hyps :=
  repeat match goal with
  | H : (_ =? _) = true |- _ => apply N.eqb_eq in H; subst
  end.

Lemma parse_chars_suffix s str rest :
  parse_chars s = Some (str, rest) → (34 :: rest) `suffix_of` s.
Proof.
  remember (length s) as n eqn:Hn. revert s str rest Hn.
  induction (lt_wf n) as [n _ IH]. intros s str rest -> H.
  destruct s as [|c s]; [done|]. simpl in H.
  repeat case_match; simplify_eq/=.
  all: try match goal with
       | H : parse_chars ?t = Some _ |- _ =>
           eapply (IH (length t)) in H; [|simpl; lia|reflexivity]
       end.
  all: eqb_hyps; walk.
Qed.

Lemma take_digits_suffix s ds rest :
  take_digits s = (ds, rest) →
  (ds = [] ∧ rest = s) ∨ ∃ c, is_digit c = true ∧ (c :: rest) `suffix_of` s.
Proof.
  revert ds rest. induction s as [|c s IH]; intros ds rest H; simplify_eq/=; [by left|].
  destruct (is_digit c) eqn:Hc; simplify_eq/=; [|by left].
  destruct (take_digits s) as [ds' rest'] eqn:E. simplify_eq. right.
  destruct (IH _ _ eq_refl) as [[-> ->]|(d & Hd & Hs)].
  - by exists c.
  - exists d. split; [done|]. walk.
Qed.

Lemma parse_int_suffix s ds rest :
  parse_int s = Some (ds, rest) → ∃ c, is_digit c = true ∧ (c :: rest) `suffix_of` s.
Proof.
  destruct s as [|c s]; [done|]. unfold parse_int.
  destruct (N.eqb_spec c 48) as [->|_]; [intros; simplify_eq; by exists 48|].
  destruct (is_digit c) eqn:Hc; [|done]. intros H.
  assert (take_digits (c :: s) = (ds, rest)) as H' by congruence.
  destruct (take_digits_suffix _ _ _ H') as [[-> ?]|?]; [|done].
  simpl in H'. rewrite Hc in H'. by destruct (take_digits s).
Qed.

Lemma parse_frac_suffix s ds rest :
  parse_frac s = Some (ds, rest) →
  rest = s ∨ ∃ c, is_digit c = true ∧ (c :: rest) `suffix_of` s.
Proof.
  destruct s as [|c s]; unfold parse_frac; [intros; simplify_eq; by left|].
  destruct (c =? 46); [|intros; simplify_eq; by left].
  destruct (take_digits s) as [[|d ds'] rest'] eqn:E; [done|].
  intros; simplify_eq. right.
  apply take_digits_suffix in E as [[? ?]|(x & Hx & Hs)]; [done|].
  exists x. split; [done|]. walk.
Qed.

Lemma parse_exp_suffix s e rest :
  parse_exp s = Some (e, rest) →
  rest = s ∨ ∃ c, is_digit c = true ∧ (c :: rest) `suffix_of` s.
Proof.
  destruct s as [|c s]; unfold parse_exp; [intros; simplify_eq; by left|].
  destruct ((c =? 101) || (c =? 69)); [|intros; simplify_eq; by left].
  intros H. right.
  destruct s as [|d s']; [done|].
  destruct (d =? 45); [|destruct (d =? 43)].
  all: match type of H with
       | context [take_digits ?t] =>
           destruct (take_digits t) as [[|x ds] rest'] eqn:E; [done|]
       end; simplify_eq;
       apply take_digits_suffix in E as [[? ?]|(y & Hy & Hs)]; [done|];
       exists y; (split; [done|walk]).
Qed.

Lemma parse_number_suffix s n rest :
  parse_number s = Some (n, rest) →
  ∃ c, is_digit c = true ∧ (c :: rest) `suffix_of` s.
Proof.
  unfold parse_number. intros H.
  repeat case_match; simplify_eq.
  all: repeat match goal with
       | H : parse_int _ = Some _ |- _ =>
           apply parse_int_suffix in H as (? & ? & ?)
       | H : parse_frac _ = Some _ |- _ =>
           apply parse_frac_suffix in H as [->|(? & ? & ?)]
       | H : parse_exp _ = Some _ |- _ =>
           apply parse_exp_suffix in H as [->|(? & ? & ?)]
       end.
  all: eexists; (split; [|walk]); done.
Qed.

Lemma parse_literal_suffix s v rest :
  parse_literal s = Some (v, rest) →
  ∃ c, closer c = true ∧ (c :: rest) `suffix_of` s.
Proof.
  unfold parse_literal. intros H.
  repeat case_match; simplify_eq.
  all: match goal with
       | H : RegExp.strip_prefix _ _ = Some _ |- _ =>
           apply strip_prefix_app in H as ->
       end.
  - exists 101. split; [done|]. by exists (js "tru").
  - exists 101. split; [done|]. by exists (js "fals").
  - exists 108. split; [done|]. by exists (js "nul").
Qed.

Lemma digit_closer c : is_digit c = true → closer c = true.
Proof. unfold closer. intros ->. by rewrite !orb_true_r. Qed.

Ltac use_suffixes :=
  repeat match goal with
  | H : skip_ws ?s = _ |- _ =>
      let L := fresh "L" in
      pose proof (skip_ws_suffix s) as L; rewrite H in L; clear H
  | H : parse_chars _ = Some _ |- _ => apply parse_chars_suffix in H
  | H : parse_number _ = Some _ |- _ =>
      apply parse_number_suffix in H as (? & ?%digit_closer & ?)
  | H : parse_literal _ = Some _ |- _ =>
      apply parse_literal_suffix in H as (? & ? & ?)
  end;
  repeat match goal with
  | |- context [skip_ws ?s] =>
      lazymatch goal with
      | _ : skip_ws s `suffix_of` s |- _ => fail
      | _ => pose proof (skip_ws_suffix s)
      end
  | _ : context [skip_ws ?s] |- _ =>
      lazymatch goal with
      | _ : skip_ws s `suffix_of` s |- _ => fail
      | _ => pose proof (skip_ws_suffix s)
      end
  end.

Lemma parse_suffix fuel :
  (∀ s v rest, parse_value fuel s = Parsed v rest →
     ∃ c, closer c = true ∧ (c :: rest) `suffix_of` s) ∧
  (∀ s l rest, parse_elements fuel s = Parsed l rest →
     (93 :: rest) `suffix_of` s) ∧
  (∀ s acc m rest, parse_members fuel s acc = Parsed m rest →
     (125 :: rest) `suffix_of` s).
Proof.
  induction fuel as [|fuel (IHv & IHe & IHm)]; [done|].
  split_and!.
  - intros s v rest H. cbn [parse_value] in H. unfold of_option in H.
    repeat case_match; simplify_eq.
    all: repeat match goal with
         | H : parse_elements _ _ = Parsed _ _ |- _ => apply IHe in H
         | H : parse_members _ _ _ = Parsed _ _ |- _ => apply IHm in H
         end; use_suffixes; eqb_hyps.
    all: eexists; (split; [|walk]); done.
  - intros s l rest H. cbn [parse_elements] in H.
    repeat case_match; simplify_eq.
    all: repeat match goal with
         | H : parse_elements _ _ = Parsed _ _ |- _ => apply IHe in H
         | H : parse_value _ _ = Parsed _ _ |- _ => apply IHv in H as (? & _ & ?)
         end; use_suffixes; eqb_hyps; walk.
  - intros s acc m rest H. cbn [parse_members] in H.
    repeat case_match; simplify_eq.
    all: repeat match goal with
         | H : parse_members _ _ _ = Parsed _ _ |- _ => apply IHm in H
         | H : parse_value _ _ = Parsed _ _ |- _ => apply IHv in H as (? & _ & ?)
         end; use_suffixes; eqb_hyps; walk.
Qed.

Lemma parse_value_start fuel c s v rest :
  parse_value fuel (c :: s) = Parsed v rest → value_start c = true.
Proof.
  destruct fuel as [|fuel]; [done|]. intros H.
  destruct (value_start c) eqn:E; [done|]. exfalso.
  unfold value_start in E. repeat (apply orb_false_iff in E as [E ?]).
  cbn [parse_value] in H.
  repeat match goal with
  | Hc : (c =? _) = false |- _ =>
      try rewrite Hc in H; rewrite N.eqb_sym in Hc
  | Hc : is_digit c = false |- _ => rewrite Hc in H; clear Hc
  end.
  unfold of_option, parse_literal, true_text, false_text, null_text in H.
  cbn -[N.eqb] in H.
  repeat match goal with
  | Hc : (_ =? c) = false |- _ => rewrite Hc in H; clear Hc
  end.
  done.
Qed.

Lemma skip_ws_head s d t :
  skip_ws s = d :: t →
  ∃ c s', s = c :: s' ∧ (is_ws c = true ∨ c = d).
Proof.
  destruct s as [|c s]; [done|]. simpl.
  destruct (is_ws c) eqn:E; [eauto|]. intros [= -> ->]. eauto.
Qed.

Lemma skip_ws_nil_last s c :
  skip_ws s = [] → last s = Some c → is_ws c = true.
Proof.
  induction s as [|d s IH]; [done|]. simpl.
  destruct (is_ws d) eqn:E; [|done]. intros Hs.
  destruct s as [|e s]; [by intros [= <-]|]. intros Hl. by apply IH.
Qed.

(** A JSON text begins with white space or with the first character of a
    value, and after a leading white space it goes on in the same way. *)
Lemma parse_begins j :
  is_Some (parse j) →
  ∃ c j', j = c :: j' ∧ (is_ws c = true ∨ value_start c = true) ∧
    (is_ws c = true →
     ∃ d j'', j' = d :: j'' ∧ (is_ws d = true ∨ value_start d = true)).
Proof.
  intros [v Hv]. unfold parse in Hv.
  destruct (parse_value _ (skip_ws j)) as [v' rest| |] eqn:E; [|done..].
  destruct (skip_ws j) as [|d t] eqn:Hs.
  { by destruct (fuel_for j). }
  apply parse_value_start in E.
  destruct (skip_ws_head _ _ _ Hs) as (c & j' & -> & Hc).
  exists c, j'. split; [done|]. split; [by destruct Hc as [?| ->]; eauto|].
  intros Hws. simpl in Hs. rewrite Hws in Hs.
  destruct (skip_ws_head _ _ _ Hs) as (c' & j'' & -> & Hc').
  exists c', j''. split; [done|]. by destruct Hc' as [?| ->]; eauto.
Qed.

(** A JSON text ends with white space or with the last character of a
    value. *)
Lemma parse_ends j :
  is_Some (parse j) →
  ∃ c, last j = Some c ∧ (is_ws c = true ∨ closer c = true).
Proof.
  intros [v Hv]. unfold parse in Hv.
  destruct (parse_value _ (skip_ws j)) as [v' rest| |] eqn:E; [|done..].
  apply (proj1 (parse_suffix _)) in E as (c & Hc & Hsuf).
  destruct (skip_ws rest) eqn:Hrest; [|done].
  assert ((c :: rest) `suffix_of` j) as [k ->].
  { etrans; [exact Hsuf|apply skip_ws_suffix]. }
  rewrite last_app.
  assert (is_Some (last (c :: rest))) as [e He] by (by apply last_is_Some).
  rewrite He. exists e. split; [done|].
  destruct rest as [|d rest]; [injection He as <-; by right|].
  left. by eapply skip_ws_nil_last.
Qed.

Lemma begins_not_fence c :
  is_ws c = true ∨ value_start c = true → c ≠ 96 ∧ c ≠ 106.
Proof. intros [H|H]; split; intros ->; by vm_compute in H. Qed.

Lemma ends_not_fence c :
  is_ws c = true ∨ closer c = true → c ≠ 96.
Proof. intros [H|H] ->; by vm_compute in H. Qed.

(** *** More budget changes nothing *)

Ltac fuel_step k fuel IHv IHe IHm H :=
  first
    [ match goal with
      | |- context [parse_value k ?a] =>
          rewrite (IHv a) by (intros E; rewrite E in H; by cbn in H)
      | |- context [parse_elements k ?a] =>
          rewrite (IHe a) by (intros E; rewrite E in H; by cbn in H)
      | |- context [parse_members k ?a ?b] =>
          rewrite (IHm a b) by (intros E; rewrite E in H; by cbn in H)
      end
    | reflexivity
    | match goal with
      | |- context [match ?x with _ => _ end] => destruct x eqn:?
      end ].

Lemma parse_fuel_S fuel :
  (∀ s, parse_value fuel s ≠ OutOfFuel →
     parse_value (S fuel) s = parse_value fuel s) ∧
  (∀ s, parse_elements fuel s ≠ OutOfFuel →
     parse_elements (S fuel) s = parse_elements fuel s) ∧
  (∀ s acc, parse_members fuel s acc ≠ OutOfFuel →
     parse_members (S fuel) s acc = parse_members fuel s acc).
Proof.
  induction fuel as [|fuel (IHv & IHe & IHm)]; [done|].
  remember (S fuel) as k eqn:Hk.
  assert (∀ s, parse_value (S fuel) s = parse_value k s) as Ev by by subst.
  assert (∀ s, parse_elements (S fuel) s = parse_elements k s) as Ee by by subst.
  assert (∀ s acc, parse_members (S fuel) s acc = parse_members k s acc) as Em
    by by subst.
  clear Hk.
  split_and!.
  - intros s H. rewrite <- Ev in H |- *. cbn [parse_value] in H |- *.
    repeat fuel_step k fuel IHv IHe IHm H.
  - intros s H. rewrite <- Ee in H |- *. cbn [parse_elements] in H |- *.
    repeat fuel_step k fuel IHv IHe IHm H.
  - intros s acc H. rewrite <- Em in H |- *. cbn [parse_members] in H |- *.
    repeat fuel_step k fuel IHv IHe IHm H.
Qed.

Lemma parse_value_fuel_le fuel fuel' s :
  (fuel ≤ fuel')%nat → parse_value fuel s ≠ OutOfFuel →
  parse_value fuel' s = parse_value fuel s.
Proof.
  induction 1 as [|fuel' _ IH]; [done|]. intros H.
  rewrite <- (IH H). apply parse_fuel_S. by rewrite (IH H).
Qed.

(** *** White space after a text *)

Lemma is_ws_cases c : is_ws c = true → c = 9 ∨ c = 10 ∨ c = 13 ∨ c = 32.
Proof.
  unfold is_ws. rewrite !orb_true_iff, !N.eqb_eq. tauto.
Qed.

Lemma skip_ws_all_ws t : Forall (λ c, is_ws c = true) t → skip_ws t = [].
Proof. induction 1 as [|c l Hc _ IH]; simpl; [done|]. by rewrite Hc. Qed.

Lemma parse_chars_all_ws t :
  Forall (λ c, is_ws c = true) t → parse_chars t = None.
Proof.
  induction 1 as [|c l Hc _ IH]; [done|].
  apply is_ws_cases in Hc as [->|[->|[->| ->]]]; simpl; by rewrite ?IH.
Qed.

Lemma take_digits_all_ws t :
  Forall (λ c, is_ws c = true) t → take_digits t = ([], t).
Proof.
  destruct 1 as [|c l Hc _]; [done|].
  by apply is_ws_cases in Hc as [->|[->|[->| ->]]].
Qed.

Lemma strip_prefix_all_ws lit t :
  Forall (λ c, is_ws c = false) lit → Forall (λ c, is_ws c = true) t →
  lit ≠ [] → RegExp.strip_prefix lit t = None.
Proof.
  destruct 1 as [|c lit Hc _]; [done|]. destruct 1 as [|w t Hw _]; [done|].
  intros _. simpl. destruct (N.eqb_spec c w) as [->|]; [congruence|done].
Qed.

Section trailing_white_space.
Variable tail : jsstring.
Hypothesis tail_ws : Forall (λ c, is_ws c = true) tail.

Lemma skip_ws_tail : skip_ws tail = [].
Proof. by apply skip_ws_all_ws. Qed.

Lemma skip_ws_app x :
  skip_ws (x ++ tail) = match skip_ws x with [] => [] | y => y ++ tail end.
Proof.
  induction x as [|c x IH]; simpl; [apply skip_ws_tail|].
  by destruct (is_ws c).
Qed.

(** Split a hypothesis on the head of the tail into the four characters
    it can be. *)
Ltac tail_head :=
  match goal with
  | H : Forall _ (?w :: _) |- _ =>
      let Hw := fresh in
      apply Forall_cons in H as [Hw H];
      apply is_ws_cases in Hw as [->|[->|[->| ->]]]
  end.

Lemma parse_chars_tail : parse_chars tail = None.
Proof. by apply parse_chars_all_ws. Qed.

Lemma parse_chars_app x :
  parse_chars (x ++ tail) =
    match parse_chars x with
    | Some (str, rest) => Some (str, rest ++ tail)
    | None => None
    end.
Proof.
  remember (length x) as n eqn:Hn. revert x Hn.
  induction (lt_wf n) as [n _ IH]. intros x ->.
  assert (IH' : ∀ x', (length x' < length x)%nat →
    parse_chars (x' ++ tail) =
      match parse_chars x' with
      | Some (str, rest) => Some (str, rest ++ tail)
      | None => None
      end) by (intros; by eapply IH).
  clear IH. destruct x as [|c x]; [apply parse_chars_tail|].
  cbn [app parse_chars].
  destruct (c =? 34); [done|]. destruct (c =? 92).
  - pose proof tail_ws as Hws.
    destruct x as [|e x]; cbn [app].
    { destruct tail; [done|]. by tail_head. }
    destruct (e =? 117).
    + do 4 (destruct x as [|? x]; cbn [app];
            [repeat (destruct tail; [done|]; tail_head; cbn -[N.eqb]);
             by repeat case_match|]).
      rewrite IH' by (simpl; lia).
      destruct (hex_digit n), (hex_digit n0), (hex_digit n1), (hex_digit n2);
        try done.
      by destruct (parse_chars x) as [[??]|].
    + destruct (unescape e); [|done].
      rewrite IH' by (simpl; lia). by destruct (parse_chars x) as [[??]|].
  - destruct (c <? 32); [done|].
    rewrite IH' by (simpl; lia). by destruct (parse_chars x) as [[??]|].
Qed.

Lemma take_digits_app x :
  take_digits (x ++ tail) = let '(ds, rest) := take_digits x in (ds, rest ++ tail).
Proof.
  induction x as [|c x IH]; [by apply take_digits_all_ws|].
  cbn [app take_digits]. destruct (is_digit c); [|done].
  rewrite IH. by destruct (take_digits x).
Qed.

Lemma parse_int_app x :
  parse_int (x ++ tail) =
    match parse_int x with
    | Some (ds, rest) => Some (ds, rest ++ tail)
    | None => None
    end.
Proof.
  destruct x as [|c x].
  - pose proof tail_ws as Hws. destruct tail; [done|]. by tail_head.
  - unfold parse_int. cbn [app]. destruct (c =? 48); [done|].
    destruct (is_digit c); [|done].
    change (c :: x ++ tail) with ((c :: x) ++ tail).
    rewrite take_digits_app. by destruct (take_digits (c :: x)).
Qed.

Lemma parse_frac_app x :
  parse_frac (x ++ tail) =
    match parse_frac x with
    | Some (ds, rest) => Some (ds, rest ++ tail)
    | None => None
    end.
Proof.
  destruct x as [|c x].
  - pose proof tail_ws as Hws. destruct tail; [done|]. by tail_head.
  - unfold parse_frac. cbn [app]. destruct (c =? 46); [|done].
    rewrite take_digits_app. by destruct (take_digits x) as [[|??] ?].
Qed.

Lemma parse_exp_app x :
  parse_exp (x ++ tail) =
    match parse_exp x with
    | Some (e, rest) => Some (e, rest ++ tail)
    | None => None
    end.
Proof.
  destruct x as [|c x].
  - pose proof tail_ws as Hws. destruct tail; [done|]. by tail_head.
  - unfold parse_exp. cbn [app]. destruct ((c =? 101) || (c =? 69)); [|done].
    destruct x as [|d x]; cbn [app].
    + pose proof tail_ws as Hws. destruct tail; [done|]. by tail_head.
    + destruct (d =? 45); [|destruct (d =? 43)].
      * rewrite take_digits_app. by destruct (take_digits x) as [[|??] ?].
      * rewrite take_digits_app. by destruct (take_digits x) as [[|??] ?].
      * change (d :: x ++ tail) with ((d :: x) ++ tail).
        rewrite take_digits_app.
        by destruct (take_digits (d :: x)) as [[|??] ?].
Qed.

Lemma parse_number_app c x :
  parse_number ((c :: x) ++ tail) =
    match parse_number (c :: x) with
    | Some (n, rest) => Some (n, rest ++ tail)
    | None => None
    end.
Proof.
  unfold parse_number. cbn [app].
  assert (∀ neg y,
    match parse_int (y ++ tail) with
    | Some (int, s1) =>
        match parse_frac s1 with
        | Some (frac, s2) =>
            match parse_exp s2 with
            | Some (e, rest) =>
                Some (MkNumber neg (digits_value (int ++ frac))
                        (e - Z.of_nat (length frac)), rest)
            | None => None
            end
        | None => None
        end
    | None => None
    end =
    match
      match parse_int y with
      | Some (int, s1) =>
          match parse_frac s1 with
          | Some (frac, s2) =>
              match parse_exp s2 with
              | Some (e, rest) =>
                  Some (MkNumber neg (digits_value (int ++ frac))
                          (e - Z.of_nat (length frac)), rest)
              | None => None
              end
          | None => None
          end
      | None => None
      end
    with
    | Some (n, rest) => Some (n, rest ++ tail)
    | None => None
    end) as Hgo.
  { intros neg y. rewrite parse_int_app.
    destruct (parse_int y) as [[int s1]|]; [|done]. rewrite parse_frac_app.
    destruct (parse_frac s1) as [[frac s2]|]; [|done]. rewrite parse_exp_app.
    by destruct (parse_exp s2) as [[e rest]|]. }
  destruct (c =? 45); [apply Hgo|apply (Hgo false (c :: x))].
Qed.

Lemma strip_prefix_app_ws lit x :
  Forall (λ c, is_ws c = false) lit →
  RegExp.strip_prefix lit (x ++ tail) =
    (λ rest, rest ++ tail) <$> RegExp.strip_prefix lit x.
Proof.
  intros Hlit. revert x. induction Hlit as [|c lit Hc Hlit IH]; [done|].
  intros [|d x].
  - by apply strip_prefix_all_ws; [constructor|..].
  - cbn [app RegExp.strip_prefix]. by destruct (c =? d).
Qed.

Lemma parse_literal_app x :
  parse_literal (x ++ tail) =
    match parse_literal x with
    | Some (v, rest) => Some (v, rest ++ tail)
    | None => None
    end.
Proof.
  unfold parse_literal.
  rewrite !strip_prefix_app_ws by (by repeat constructor).
  destruct (RegExp.strip_prefix true_text x); [done|].
  destruct (RegExp.strip_prefix false_text x); [done|].
  by destruct (RegExp.strip_prefix null_text x).
Qed.

Lemma parse_value_tail fuel : parse_value (S fuel) tail = Invalid.
Proof.
  pose proof tail_ws as Hws. destruct tail; [done|]. by tail_head.
Qed.

Lemma parse_members_tail fuel acc : parse_members (S fuel) tail acc = Invalid.
Proof.
  pose proof tail_ws as Hws. destruct tail; [done|]. by tail_head.
Qed.

Lemma parse_elements_nil fuel l rest : parse_elements fuel [] ≠ Parsed l rest.
Proof. intros H. apply parse_length in H. simpl in H. lia. Qed.

Lemma parse_members_nil fuel acc m rest :
  parse_members fuel [] acc ≠ Parsed m rest.
Proof. intros H. apply parse_length in H. simpl in H. lia. Qed.

Lemma parse_app fuel :
  (∀ x, parse_value fuel (x ++ tail) = parsed_app (parse_value fuel x) tail) ∧
  (∀ x, parse_elements fuel (x ++ tail) =
        parsed_app (parse_elements fuel x) tail) ∧
  (∀ x acc, parse_members fuel (x ++ tail) acc =
            parsed_app (parse_members fuel x acc) tail).
Proof.
  induction fuel as [|fuel (IHv & IHe & IHm)]; [done|].
  split_and!.
  - intros [|c x]; [apply parse_value_tail|].
    cbn [app parse_value]. destruct (c =? 123); [|destruct (c =? 91)].
    + rewrite skip_ws_app. destruct (skip_ws x) as [|d s'']; [done|].
      cbn [app]. destruct (d =? 125); [done|].
      change (d :: s'' ++ tail) with ((d :: s'') ++ tail). rewrite IHm.
      by destruct (parse_members fuel (d :: s'') ∅).
    + rewrite skip_ws_app. destruct (skip_ws x) as [|d s'']; [done|].
      cbn [app]. destruct (d =? 93); [done|].
      change (d :: s'' ++ tail) with ((d :: s'') ++ tail). rewrite IHe.
      by destruct (parse_elements fuel (d :: s'')).
    + destruct (c =? 34).
      { rewrite parse_chars_app. by destruct (parse_chars x) as [[??]|]. }
      change (c :: x ++ tail) with ((c :: x) ++ tail).
      destruct ((c =? 45) || is_digit c).
      { rewrite parse_number_app. by destruct (parse_number (c :: x)) as [[??]|]. }
      rewrite parse_literal_app. by destruct (parse_literal (c :: x)) as [[??]|].
  - intros x. cbn [parse_elements]. rewrite IHv.
    destruct (parse_value fuel x) as [v rest| |]; [|done..]. cbn [parsed_app].
    rewrite skip_ws_app. destruct (skip_ws rest) as [|d rest']; [done|].
    cbn [app]. destruct (d =? 44); [|by destruct (d =? 93)].
    rewrite skip_ws_app. destruct (skip_ws rest') as [|e y].
    + destruct (parse_elements fuel []) eqn:E; [|done..].
      by apply parse_elements_nil in E.
    + rewrite IHe. by destruct (parse_elements fuel (e :: y)).
  - intros [|q x] acc; [apply parse_members_tail|].
    cbn [app parse_members]. destruct (q =? 34); [|done].
    rewrite parse_chars_app. destruct (parse_chars x) as [[key s1]|]; [|done].
    rewrite skip_ws_app. destruct (skip_ws s1) as [|colon s2]; [done|].
    cbn [app]. destruct (colon =? 58); [|done].
    rewrite skip_ws_app. destruct (skip_ws s2) as [|e y].
    { by destruct fuel. }
    rewrite IHv. destruct (parse_value fuel (e :: y)) as [v rest| |]; [|done..].
    cbn [parsed_app]. rewrite skip_ws_app.
    destruct (skip_ws rest) as [|d rest']; [done|].
    cbn [app]. destruct (d =? 44); [|by destruct (d =? 125)].
    rewrite skip_ws_app. destruct (skip_ws rest') as [|e' y'].
    + destruct (parse_members fuel [] _) eqn:E; [|done..].
      by apply parse_members_nil in E.
    + by rewrite IHm.
Qed.

End trailing_white_space.

Lemma parse_value_enough s fuel1 fuel2 :
  (2 * length s + 1 ≤ fuel1)%nat → (2 * length s + 1 ≤ fuel2)%nat →
  parse_value fuel1 s = parse_value fuel2 s.
Proof.
  intros H1 H2.
  assert (parse_value (2 * length s + 1) s ≠ OutOfFuel) as Hne
    by by apply parse_fuel.
  by rewrite (parse_value_fuel_le _ _ _ H1 Hne), (parse_value_fuel_le _ _ _ H2 Hne).
Qed.

(** [JSON.parse] ignores white space after the text ... *)
Lemma parse_trailing_ws x tail :
  Forall (λ c, is_ws c = true) tail → parse (x ++ tail) = parse x.
Proof.
  intros Hws. unfold parse. rewrite skip_ws_app by done.
  pose proof (skip_ws_length x) as Hlen.
  destruct (skip_ws x) as [|d t] eqn:Hx.
  { unfold fuel_for. by rewrite !Nat.add_1_r. }
  rewrite (proj1 (parse_app tail Hws _)).
  rewrite (parse_value_enough (d :: t) _ (fuel_for x)).
  - destruct (parse_value (fuel_for x) (d :: t)) as [v rest| |]; [|done..].
    cbn [parsed_app]. rewrite skip_ws_app by done.
    by destruct (skip_ws rest).
  - unfold fuel_for. rewrite length_app. lia.
  - unfold fuel_for. lia.
Qed.

Lemma skip_ws_leading lead x :
  Forall (λ c, is_ws c = true) lead → skip_ws (lead ++ x) = skip_ws x.
Proof. induction 1 as [|c l Hc _ IH]; simpl; [done|]. by rewrite Hc. Qed.

(** ... and before it. *)
Lemma parse_leading_ws lead x :
  Forall (λ c, is_ws c = true) lead → parse (lead ++ x) = parse x.
Proof.
  intros Hws. unfold parse. rewrite skip_ws_leading by done.
  pose proof (skip_ws_length x) as Hlen.
  rewrite (parse_value_enough (skip_ws x) _ (fuel_for x)); [done|..];
    unfold fuel_for; rewrite ?length_app; lia.
Qed.

(** *** Trimming a JSON text *)

Lemma white_space_range c :
  is_white_space c = true → 9 ≤ c ≤ 13 ∨ c = 32 ∨ 160 ≤ c.
Proof.
  unfold is_white_space. rewrite orb_true_iff, andb_true_iff, bool_decide_eq_true.
  rewrite !elem_of_cons, elem_of_nil, !N.leb_le. lia.
Qed.

Lemma ws_white_space c : is_ws c = true → is_white_space c = true.
Proof. by intros [->|[->|[->| ->]]]%is_ws_cases. Qed.

Lemma value_start_range c : value_start c = true → 34 ≤ c ≤ 123.
Proof.
  unfold value_start, is_digit.
  rewrite !orb_true_iff, andb_true_iff, !N.eqb_eq, !N.leb_le. lia.
Qed.

Lemma closer_range c : closer c = true → 34 ≤ c ≤ 125.
Proof.
  unfold closer, is_digit.
  rewrite !orb_true_iff, andb_true_iff, !N.eqb_eq, !N.leb_le. lia.
Qed.

Lemma not_white_space c : 34 ≤ c ≤ 125 → is_white_space c = false.
Proof.
  intros H. destruct (is_white_space c) eqn:E; [|done].
  apply white_space_range in E. lia.
Qed.

Lemma trimStart_leading lead y :
  Forall (λ c, is_white_space c = true) lead → trimStart (lead ++ y) = trimStart y.
Proof. induction 1 as [|c l Hc _ IH]; simpl; [done|]. by rewrite Hc. Qed.

Lemma trimEnd_trailing y tail :
  Forall (λ c, is_white_space c = true) tail → trimEnd (y ++ tail) = trimEnd y.
Proof.
  induction tail as [|c tail IH] using rev_ind; [by rewrite app_nil_r|].
  intros [Htail Hc]%Forall_app. rewrite Forall_singleton in Hc.
  rewrite app_assoc, trimEnd_snoc by done. by apply IH.
Qed.

Lemma trimEnd_closed k c : is_white_space c = false → trimEnd (k ++ [c]) = k ++ [c].
Proof.
  intros Hc. unfold trimEnd. rewrite reverse_snoc. simpl. rewrite Hc.
  by rewrite reverse_cons, reverse_involutive.
Qed.

Lemma skip_ws_split s :
  ∃ lead, s = lead ++ skip_ws s ∧ Forall (λ c, is_ws c = true) lead.
Proof.
  induction s as [|c s (lead & IH & Hlead)]; [by exists []|]. simpl.
  destruct (is_ws c) eqn:Hc; [|by exists []].
  exists (c :: lead). split; [by rewrite IH at 1|by constructor].
Qed.

Lemma skip_ws_nil_all s : skip_ws s = [] → Forall (λ c, is_ws c = true) s.
Proof.
  intros H. destruct (skip_ws_split s) as (lead & Hs & Hlead).
  rewrite H, app_nil_r in Hs. by subst.
Qed.

(** A JSON text is its trimmed self between two runs of white space, and
    it parses like its trimmed self. *)
Lemma parse_trim j : is_Some (parse j) → parse (trim j) = parse j.
Proof.
  intros [v Hv]. unfold parse in Hv.
  destruct (parse_value _ (skip_ws j)) as [v' rest| |] eqn:E; [|done..].
  destruct (skip_ws rest) eqn:Hrest; [|done].
  apply skip_ws_nil_all in Hrest.
  destruct (skip_ws_split j) as (lead & Hj & Hlead).
  destruct (skip_ws j) as [|d t] eqn:Hy; [by destruct (fuel_for j)|].
  pose proof (parse_value_start _ _ _ _ _ E) as Hd%value_start_range.
  apply (proj1 (parse_suffix _)) in E as (c & Hc%closer_range & [k Hk]).
  assert (trim j = k ++ [c]) as ->.
  { unfold trim. rewrite Hj, trimStart_leading
      by (eapply Forall_impl; [done|apply ws_white_space]).
    assert (trimStart (d :: t) = d :: t) as ->.
    { simpl. rewrite not_white_space; [done|lia]. }
    rewrite Hk, (assoc_L _ k [c] rest : k ++ c :: rest = (k ++ [c]) ++ rest).
    rewrite trimEnd_trailing
      by (eapply Forall_impl; [done|apply ws_white_space]).
    apply trimEnd_closed, not_white_space. lia. }
  rewrite Hj, Hk, (parse_leading_ws lead) by done.
  rewrite (assoc_L _ k [c] rest : k ++ c :: rest = (k ++ [c]) ++ rest).
  by rewrite (parse_trailing_ws _ rest).
Qed.

End json_parser.

(** ** The cleaner on a fenced JSON text *)

Lemma cleanResponse_wrap tag line_before line_after j :
  is_Some (JSON.parse j) →
  cleanResponse (wrap tag line_before line_after j) = cleanResponse j.
Proof.
  intros Hj. unfold cleanResponse, wrap.
  destruct (parse_begins j Hj) as (c & j' & -> & Hc & Hnext).
  destruct (parse_ends _ Hj) as (e & He & Hend%ends_not_fence).
  apply begins_not_fence in Hc as Hc'. destruct Hc' as [Hc1 Hc2].
  rewrite <- app_comm_cons. rewrite clean_opening; [|done..|].
  - rewrite app_comm_cons. destruct line_after.
    + by rewrite strip_closing.
    + rewrite app_nil_l. apply clean_closing_compact. rewrite He. congruence.
  - intros ->. destruct Hnext as (d & j'' & -> & Hd%begins_not_fence); [done|].
    simpl. intros [= ->]. by destruct Hd.
Qed.

(** ** The pipeline, step by step *)

Ltac run :=
  unfold mbind, mret, M_bind, M_ret, throw, lift, ask, emit, update,
    try_catch, try_finally, console_error in *.

Ltac setters :=
  unfold setUploadedFile, setUploadedFileName, setUploadedAt, setCurrentView,
    setIsAnalyzing, setAnalysisError, setOriginalContractText,
    setAnalysisResult in *.

Ltac pure := unfold mbind, mret, outcome_bind, outcome_ret in *.

(** Extraction only adds to the log: its outcome and the events it adds
    depend on the file and the platform alone, and none of the events is
    a network request. *)
Lemma extract_frame file p :
  ∃ o evs, network_requests evs = [] ∧
    ∀ w, extractTextFromFile file p w = (o, MkWorld (ui w) (evs ++ log w)).
Proof.
  unfold extractTextFromFile. repeat case_decide; run.
  - exists (Throw (Error pdf_message)), []. split; [done|]. by intros [].
  - exists (match extractRawText p file with
            | Return t => Return t
            | Throw _ => Throw (Error docx_message)
            end), [FileRead file].
    split; [done|]. intros w. simpl. by destruct (extractRawText p file).
  - exists (match readAsText p file with
            | Some t => Return t
            | None => Throw (Error text_message)
            end), [FileRead file].
    split; [done|]. intros w. simpl. by destruct (readAsText p file).
  - exists (Throw (Error unsupported_message)), []. split; [done|]. by intros [].
Qed.

Lemma network_requests_app evs1 evs2 :
  network_requests (evs1 ++ evs2) = network_requests evs1 ++ network_requests evs2.
Proof. apply omap_app. Qed.

(** A text that fails the length guard: the client is not run. *)
Lemma upload_aborts analyze file p w contractText :
  fst (extractTextFromFile file p w) = Return contractText →
  insufficient contractText = true →
  handleFileUpload_with analyze file p w =
    (Return (),
     MkWorld
       {| currentView := analysis; uploadedFile := Some file;
          analysisResult := None; isAnalyzing := false;
          analysisError := Some (Text insufficient_message);
          originalContractText := contractText;
          uploadedFileName := file_name file; uploadedAt := now p |}
       (ConsoleError (js "Analysis error:") (Error insufficient_message)
          :: log (snd (extractTextFromFile file p w)))).
Proof.
  destruct (extract_frame file p) as (o & evs & _ & Hrun).
  rewrite !Hrun. simpl. intros -> Hins.
  unfold handleFileUpload_with, begin_upload, report_failure. setters.
  run. simpl. rewrite Hrun. simpl. rewrite Hins. reflexivity.
Qed.

(** A text that passes the length guard: what remains is the call of the
    client and what follows it. *)
Lemma upload_proceeds analyze file p w contractText :
  fst (extractTextFromFile file p w) = Return contractText →
  insufficient contractText = false →
  handleFileUpload_with analyze file p w =
    analyze_and_settle analyze contractText p
      (snd ((begin_upload file;;
             contractText ← extractTextFromFile file;
             setOriginalContractText contractText) p w)).
Proof.
  destruct (extract_frame file p) as (o & evs & _ & Hrun).
  rewrite !Hrun. simpl. intros -> Hins.
  unfold handleFileUpload_with, analyze_and_settle, begin_upload, report_failure. setters.
  run. simpl. rewrite Hrun. simpl. rewrite Hins. reflexivity.
Qed.

Lemma insufficient_short contractText :
  (length contractText < 100)%nat → insufficient contractText = true.
Proof.
  intros H. unfold insufficient. apply orb_true_iff. right.
  apply Nat.ltb_lt. pose proof (trim_length contractText). lia.
Qed.

Lemma settle_failure analyze contractText p w e w' :
  analyze contractText p w = (Throw e, w') →
  instanceof_Error e = true →
  analyze_and_settle analyze contractText p w =
    (Return (),
     MkWorld
       {| currentView := currentView (ui w'); uploadedFile := uploadedFile (ui w');
          analysisResult := None; isAnalyzing := false;
          analysisError := Some (message_of e);
          originalContractText := originalContractText (ui w');
          uploadedFileName := uploadedFileName (ui w');
          uploadedAt := uploadedAt (ui w') |}
       (ConsoleError (js "Analysis error:") e :: log w')).
Proof.
  intros H He. unfold analyze_and_settle, report_failure. setters. run.
  rewrite H. simpl. by rewrite He.
Qed.

Lemma analyzeContract_missing_key contractText p w :
  optional_string_falsy (VITE_GROQ_API_KEY p) = true →
  analyzeContract contractText p w =
    (Throw (Error key_message),
     MkWorld (ui w)
       (ConsoleError (js "Error analyzing contract:") (Error key_message) :: log w)).
Proof.
  intros H. unfold analyzeContract, getGroqClient. run.
  destruct (VITE_GROQ_API_KEY p) as [key|]; simpl in *; [rewrite H|]; reflexivity.
Qed.

(** The parser and normalizer throw instances of [Error] only. *)
Lemma parseResponse_throws_errors contractText response e :
  parseResponse contractText response = Throw e → instanceof_Error e = true.
Proof.
  unfold parseResponse, parsePayload, JSON_parse, normalize, Get, call_map.
  unfold mbind, mret, outcome_bind, outcome_ret.
  intros H. repeat case_match; by simplify_eq.
Qed.

Lemma analyzeContract_response contractText p w key completion response :
  VITE_GROQ_API_KEY p = Some key → string_falsy key = false →
  completions_create p (analysis_request (build_prompt contractText)) = Return completion →
  first_content completion = Some response →
  string_falsy response = false →
  let sent := NetworkRequest key (analysis_request (build_prompt contractText)) in
  analyzeContract contractText p w =
    match parseResponse contractText response with
    | Return result => (Return result, MkWorld (ui w) (sent :: log w))
    | Throw e =>
        (Throw e,
         MkWorld (ui w)
           (ConsoleError (js "Error analyzing contract:") e :: sent :: log w))
    end.
Proof.
  intros Hkey Hk Hc Hf Hr. unfold analyzeContract, getGroqClient, chat_completions_create.
  run. rewrite Hkey, Hk. simpl. rewrite Hc, Hf, Hr.
  destruct (parseResponse contractText response) as [result|e] eqn:E; [done|].
  by rewrite (parseResponse_throws_errors _ _ _ E).
Qed.

Lemma analyzeContract_no_content contractText p w key completion :
  VITE_GROQ_API_KEY p = Some key → string_falsy key = false →
  completions_create p (analysis_request (build_prompt contractText)) = Return completion →
  from_option string_falsy true (first_content completion) = true →
  let sent := NetworkRequest key (analysis_request (build_prompt contractText)) in
  analyzeContract contractText p w =
    (Throw (Error no_response_message),
     MkWorld (ui w)
       (ConsoleError (js "Error analyzing contract:") (Error no_response_message)
          :: sent :: log w)).
Proof.
  intros Hkey Hk Hc Hf. unfold analyzeContract, getGroqClient, chat_completions_create.
  run. rewrite Hkey, Hk. simpl. rewrite Hc.
  destruct (first_content completion) as [r|]; simpl in *; [rewrite Hf|]; done.
Qed.

Lemma analyzeContract_returns contractText p w result :
  fst (analyzeContract contractText p w) = Return result →
  ∃ completion response,
    completions_create p (analysis_request (build_prompt contractText)) = Return completion ∧
    first_content completion = Some response ∧
    parseResponse contractText response = Return result.
Proof.
  unfold analyzeContract, getGroqClient, chat_completions_create. run.
  destruct (VITE_GROQ_API_KEY p) as [key|]; [|done].
  destruct (string_falsy key); [done|]. simpl.
  destruct (completions_create p _) as [completion|e] eqn:Hc;
    [|by destruct (instanceof_Error e)].
  destruct (first_content completion) as [response|] eqn:Hf; [|done].
  destruct (string_falsy response); [done|].
  destruct (parseResponse contractText response) as [r|e] eqn:E.
  - simpl. intros [= ->]. eauto.
  - by destruct (instanceof_Error e).
Qed.

Lemma normalize_object (contractText : jsstring) (m : gmap (list N) value) rs :
  m !! js "risks" = Some (VArray rs) →
  normalize contractText (VObject m) =
    Return {| risks := imap (λ index risk, with_id risk index) rs;
              overallScore := default VUndefined (m !! js "overallScore");
              totalClauses := default VUndefined (m !! js "totalClauses");
              originalText := contractText;
              revisedSections :=
                or_else (default VUndefined (m !! js "revisedSections")) (VArray []) |}.
Proof. intros H. unfold normalize, Get. pure. rewrite H. reflexivity. Qed.

Lemma normalize_returns contractText analysisData result :
  normalize contractText analysisData = Return result →
  ∃ m rs, analysisData = VObject m ∧ m !! js "risks" = Some (VArray rs).
Proof.
  unfold normalize, Get, call_map. pure. intros H.
  destruct analysisData as [| | | | | |m]; try done.
  destruct (m !! js "risks") as [[]|] eqn:E; try done. eauto.
Qed.

Lemma normalize_fields contractText analysisData result :
  normalize contractText analysisData = Return result →
  originalText result = contractText ∧
  Get analysisData (js "overallScore") = Return (overallScore result) ∧
  Get analysisData (js "totalClauses") = Return (totalClauses result).
Proof.
  intros H. destruct (normalize_returns _ _ _ H) as (m & rs & -> & Hr).
  rewrite (normalize_object _ _ _ Hr) in H. by injection H as <-.
Qed.

(** ** The definitions at work *)

Example nat_to_string_examples :
  nat_to_string 1 = js "1" ∧ nat_to_string 10 = js "10" ∧
  nat_to_string 123 = js "123" ∧ nat_to_string 0 = js "0".
Proof. by vm_compute. Qed.

Example trim_examples :
  trim (js "  a b  ") = js "a b" ∧ trim [160; 65279; 97; 8232; 10] = js "a" ∧
  trim (js "   ") = [] ∧ trim [] = [].
Proof. by vm_compute. Qed.

Example cleanResponse_examples :
  cleanResponse (wrap true true true (js "{}")) = js "{}" ∧
  cleanResponse (wrap false true true (js "{}")) = js "{}" ∧
  cleanResponse (wrap true false false (js "{}")) = js "{}" ∧
  cleanResponse (wrap false false false (js "{}")) = js "{}" ∧
  cleanResponse (js "Here you go: ```json{}``` ") = js "Here you go: {}" ∧
  cleanResponse (js "``{}``") = js "``{}``".
Proof. by vm_compute. Qed.

Example JSON_parse_examples :
  JSON.parse (jsq "{@a@: 1, @a@: 2}") =
    Some (VObject {[ js "a" := VNumber (MkNumber false 2 0) ]}) ∧
  JSON.parse (jsq " [1.50e3, -0, true, false, null, @xA\n@] ") =
    Some (VArray [VNumber (MkNumber false 150 1); VNumber (MkNumber true 0 0);
                  VBool true; VBool false; VNull; VString [120; 65; 10]]) ∧
  JSON.parse (js "01") = None ∧ JSON.parse (js "1.") = None ∧
  JSON.parse (js "+1") = None ∧ JSON.parse (js "[1,]") = None ∧
  JSON.parse (js "{} x") = None ∧ JSON.parse (js "") = None ∧
  JSON.parse (jsq "@a") = None ∧ JSON.parse ([34; 9; 34]) = None ∧
  JSON.parse (js "tru") = None ∧ JSON.parse trailing_comma = None ∧
  JSON.parse truncated_braces = None.
Proof. split_and!; by vm_compute. Qed.

Example ToBoolean_examples :
  ToBoolean (VNumber (MkNumber false 0 5)) = false ∧
  ToBoolean (VNumber (MkNumber true 0 0)) = false ∧
  ToBoolean (VNumber (MkNumber false 1 (-400))) = false ∧
  ToBoolean (VNumber (MkNumber false 3 (-324))) = true ∧
  ToBoolean (VString []) = false ∧ ToBoolean (VString (js "0")) = true ∧
  ToBoolean (VArray []) = true ∧ ToBoolean (VObject ∅) = true.
Proof. by vm_compute. Qed.

(** The end-to-end scenario of the specification: one medium risk in the
    Payment Terms category and a score of 70. *)
Example end_to_end_scenario :
  ∃ risk : gmap (list N) value,
    fst (handleFileUpload sample_file sample_platform initial_world) = Return () ∧
    analysisResult
      (ui (snd (handleFileUpload sample_file sample_platform initial_world))) =
      Some {| risks := [risk];
              overallScore := VNumber (MkNumber false 70 0);
              totalClauses := VUndefined;
              originalText := sample_text;
              revisedSections := VArray [] |} ∧
    risk !! js "id" = Some (VString (js "risk-1")) ∧
    risk !! js "category" = Some (VString (js "Payment Terms")) ∧
    risk !! js "type" = Some (VString (js "medium")) ∧
    analysisError
      (ui (snd (handleFileUpload sample_file sample_platform initial_world))) =
      None ∧
    network_requests
      (log (snd (handleFileUpload sample_file sample_platform initial_world))) =
      [analysis_request (build_prompt sample_text)].
Proof. eexists. split_and!; by vm_compute. Qed.

(** A falsy [revisedSections] is replaced like an absent one; a truthy
    one is kept whatever it is. *)
Example falsy_revisedSections :
  parseResponse [] (jsq "{@risks@: [], @revisedSections@: 0}") =
    Return (MkAnalysisResult [] VUndefined VUndefined [] (VArray [])) ∧
  parseResponse [] (jsq "{@risks@: [], @revisedSections@: @later@}") =
    Return (MkAnalysisResult [] VUndefined VUndefined [] (VString (js "later"))).
Proof. by vm_compute. Qed.

Example URLSearchParams_examples :
  URL.URLSearchParams (js "?view=success&plan=prod_1") =
    [(js "view", js "success"); (js "plan", js "prod_1")] ∧
  URL.URLSearchParams (js "a=b=c&&d&=e&f+g=%41%zz%") =
    [(js "a", js "b=c"); (js "d", []); ([], js "e"); (js "f g", js "A%zz%")] ∧
  URL.URLSearchParams (js "x=%C3%A9%E2%82%AC%F0%9F%98%80%FF%C3") =
    [(js "x", [233; 8364; 55357; 56832; 65533; 65533])] ∧
  URL.URLSearchParams [63; 233; 55357; 56832; 61; 55357] =
    [([233; 55357; 56832], [65533])] ∧
  URL.get (URL.URLSearchParams (js "plan=a&plan=b")) (js "plan") = Some (js "a") ∧
  URL.get (URL.URLSearchParams (js "plan=a&plan=b")) (js "view") = None.
Proof. split_and!; by vm_compute. Qed.

Example highlight_examples :
  highlight (js "Net **30 days** from **invoice**.") =
    js "Net " ++ span_open ++ js "30 days" ++ span_close ++ js " from " ++
    span_open ++ js "invoice" ++ span_close ++ js "." ∧
  highlight (js "a ** b") = js "a ** b" ∧
  highlight (js "****") = span_open ++ span_close ∧
  highlight (js "***a***") = span_open ++ js "*a" ++ span_close ++ js "*" ∧
  highlight (js "**a" ++ [10] ++ js "b** **c**") =
    js "**a" ++ [10] ++ js "b" ++ span_open ++ js " " ++ span_close ++ js "c**" ∧
  highlight (js "**<b>x</b>**") = span_open ++ js "<b>x</b>" ++ span_close.
Proof. by vm_compute. Qed.

Example safeFileName_examples :
  safeFileName (js "My contract (v2).docx") = js "My_contract__v2__docx" ∧
  safeFileName [233; 55357; 56832; 97] = js "___a" ∧
  export_name (js "Analysis") (js "nda.txt") (js "2025-07-08T09:10:11.123Z") =
    js "ContractGuard_Analysis_nda_txt_2025-07-08.txt".
Proof. by vm_compute. Qed.

Example formatPrice_examples :
  formatPrice 25 Payment None = js "$25" ∧
  formatPrice 39 Subscription (Some Month) = js "$39/mo" ∧
  formatPrice 120 Subscription (Some Year) = js "$120/yr" ∧
  formatPrice 39 Subscription None = js "$39" ∧
  formatPrice 25 Payment (Some Month) = js "$25" ∧
  formatPrice 0 Subscription (Some Month) = js "Free" ∧
  formatPrice (-5) Payment None = js "$-5" ∧
  (λ p, formatPrice (StripeProduct.price p) (StripeProduct.mode p)
          (StripeProduct.interval p)) <$> stripeProducts =
    [js "$25"; js "$39/mo"].
Proof. split_and!; by vm_compute. Qed.

Example SuccessPage_examples :
  SuccessPage_effect (js "?view=success&plan=prod_Sdz9MO674hKLsu") None =
    Some (js "Pro") ∧
  SuccessPage_effect (js "?view=success&plan=prod_0") None = Some unknown_plan ∧
  SuccessPage_effect (js "?view=success") None = None ∧
  SuccessPage_effect (js "?plan=") (Some (js "Pro")) = Some (js "Pro").
Proof. split_and!; by vm_compute. Qed.

(** ** Claims *)

(** C1. Fence stripping round-trips: for every JSON text [j], the parser
    stage applied to the response that wraps [j] in a fenced code block
    (the opening fence with or without the json tag, [j], the closing
    fence, each fence on a line of its own or right against [j]) yields
    what it yields on [j] itself, both as parsed payload and as final
    result; and when [j] holds no backtick, the parsed payload is the
    very value of [j]. *)
Theorem fence_round_trip (tag line_before line_after : bool) (j : jsstring) :
  is_Some (JSON.parse j) →
  parsePayload (wrap tag line_before line_after j) = parsePayload j ∧
  (∀ contractText,
     parseResponse contractText (wrap tag line_before line_after j) =
     parseResponse contractText j) ∧
  (96 ∉ j → parsePayload (wrap tag line_before line_after j) = JSON_parse j).
Proof.
  intros Hj. unfold parseResponse, parsePayload.
  rewrite (cleanResponse_wrap _ _ _ _ Hj). split_and!; [done..|].
  intros Hnot. unfold cleanResponse. rewrite strip_no_backtick by done.
  unfold JSON_parse. rewrite (parse_trim _ Hj). by destruct Hj as [v ->].
Qed.

Lemma fence_round_trip_witness :
  is_Some (JSON.parse sample_json) ∧
  (96 ∉ sample_json) ∧
  parsePayload (wrap true true true sample_json) = parsePayload sample_json ∧
  (∀ contractText,
     parseResponse contractText (wrap true true true sample_json) =
     parseResponse contractText sample_json) ∧
  parsePayload (wrap true true true sample_json) = JSON_parse sample_json.
Proof.
  assert (is_Some (JSON.parse sample_json)) as H.
  { vm_compute. eexists. reflexivity. }
  assert (96 ∉ sample_json) as Hnot.
  { apply (bool_decide_unpack _). vm_compute. exact I. }
  destruct (fence_round_trip true true true sample_json H) as (H1 & H2 & H3).
  split_and!; [exact H|exact Hnot|exact H1|exact H2|exact (H3 Hnot)].
Defined.

(** The scan removes fences wherever they stand, also inside a string
    literal of the payload, wrapped or not. *)
Example fence_inside_string :
  JSON.parse (jsq "@```@") = Some (VString fence) ∧
  parsePayload (jsq "@```@") = Return (VString []) ∧
  parsePayload (wrap true true true (jsq "@```@")) = Return (VString []).
Proof. by vm_compute. Qed.

(** C2. For every extracted text shorter than 100 characters,
    [handleFileUpload] aborts before the analysis client is invoked:
    whatever client is plugged in, the run ends in the same way (the
    client is never called), it returns normally with the
    insufficient-text message stored, the result cleared and the loading
    flag reset, the log gains the console entry only, and no network
    request is issued. *)
Theorem short_text_aborts_before_analysis
    (analyze : jsstring → M AnalysisResult) file p w contractText :
  fst (extractTextFromFile file p w) = Return contractText →
  (length contractText < 100)%nat →
  let final := handleFileUpload_with analyze file p w in
  (∀ analyze', handleFileUpload_with analyze' file p w = final) ∧
  fst final = Return () ∧
  analysisError (ui (snd final)) = Some (Text insufficient_message) ∧
  analysisResult (ui (snd final)) = None ∧
  isAnalyzing (ui (snd final)) = false ∧
  log (snd final) =
    ConsoleError (js "Analysis error:") (Error insufficient_message)
      :: log (snd (extractTextFromFile file p w)) ∧
  network_requests (log (snd final)) = network_requests (log w).
Proof.
  intros Hext Hlen final. apply insufficient_short in Hlen.
  subst final. rewrite (upload_aborts analyze _ _ _ _ Hext Hlen).
  split_and!; try done.
  - intros analyze'. by rewrite (upload_aborts analyze' _ _ _ _ Hext Hlen).
  - destruct (extract_frame file p) as (o & evs & Hevs & Hrun).
    rewrite Hrun. cbn [snd log].
    change (network_requests (evs ++ log w) = network_requests (log w)).
    by rewrite network_requests_app, Hevs.
Qed.

Lemma short_text_aborts_before_analysis_witness :
  fst (extractTextFromFile sample_file short_platform initial_world) =
    Return short_text ∧
  (length short_text < 100)%nat ∧
  analysisError (ui (snd (handleFileUpload sample_file short_platform initial_world))) =
    Some (Text insufficient_message) ∧
  network_requests
    (log (snd (handleFileUpload sample_file short_platform initial_world))) = [].
Proof.
  assert (fst (extractTextFromFile sample_file short_platform initial_world) =
          Return short_text) as H1 by reflexivity.
  assert (length short_text < 100)%nat as H2 by (vm_compute; lia).
  destruct (short_text_aborts_before_analysis analyzeContract sample_file
              short_platform initial_world short_text H1 H2)
    as (_ & _ & Herr & _ & _ & _ & Hnet).
  split_and!; [exact H1|exact H2|exact Herr|exact Hnet].
Defined.



(** C4. For every raw response text that does not parse as JSON once its
    fences are stripped, the parser stage fails with the [SyntaxError] of
    [JSON.parse], and the pipeline catches the failure: [handleFileUpload]
    returns normally with the error message stored, the result cleared
    and the loading flag reset. (An empty response never reaches the
    parser: the client reports it as missing.) *)
Theorem malformed_response_is_reported
    file p w contractText key completion response :
  fst (extractTextFromFile file p w) = Return contractText →
  insufficient contractText = false →
  VITE_GROQ_API_KEY p = Some key → string_falsy key = false →
  completions_create p (analysis_request (build_prompt contractText)) =
    Return completion →
  first_content completion = Some response →
  JSON.parse (cleanResponse response) = None →
  let failure :=
    if string_falsy response then Error no_response_message
    else SyntaxError (cleanResponse response) in
  let final := handleFileUpload file p w in
  parseResponse contractText response = Throw (SyntaxError (cleanResponse response)) ∧
  fst (analyzeContract contractText p w) = Throw failure ∧
  fst final = Return () ∧
  analysisError (ui (snd final)) = Some (message_of failure) ∧
  analysisResult (ui (snd final)) = None ∧
  isAnalyzing (ui (snd final)) = false.
Proof.
  intros Hext Hins Hkey Hk Hc Hf Hparse failure final.
  assert (parseResponse contractText response =
          Throw (SyntaxError (cleanResponse response))) as Hresp.
  { unfold parseResponse, parsePayload, JSON_parse. by rewrite Hparse. }
  assert (∀ w0, ∃ w1, analyzeContract contractText p w0 = (Throw failure, w1)) as Hrun.
  { intros w0. subst failure. destruct (string_falsy response) eqn:Hr.
    - eexists. eapply analyzeContract_no_content; [done..|]. by rewrite Hf.
    - eexists. rewrite (analyzeContract_response _ _ _ _ _ _ Hkey Hk Hc Hf Hr).
      by rewrite Hresp. }
  assert (instanceof_Error failure = true) as Herr.
  { subst failure. by destruct (string_falsy response). }
  split; [done|]. split; [by destruct (Hrun w) as [w1 ->]|].
  subst final. unfold handleFileUpload. rewrite (upload_proceeds _ _ _ _ _ Hext Hins).
  match goal with |- context [analyze_and_settle _ _ _ ?w0] =>
    destruct (Hrun w0) as [w1 Hw1] end.
  by rewrite (settle_failure _ _ _ _ _ _ Hw1 Herr).
Qed.

Lemma malformed_response_is_reported_witness :
  fst (extractTextFromFile sample_file malformed_platform initial_world) =
    Return sample_text ∧
  insufficient sample_text = false ∧
  JSON.parse (cleanResponse trailing_comma) = None ∧
  JSON.parse (cleanResponse truncated_braces) = None ∧
  fst (handleFileUpload sample_file malformed_platform initial_world) = Return () ∧
  analysisError (ui (snd (handleFileUpload sample_file malformed_platform initial_world))) =
    Some (EngineText (SyntaxError trailing_comma)) ∧
  analysisResult (ui (snd (handleFileUpload sample_file malformed_platform initial_world))) =
    None.
Proof.
  assert (fst (extractTextFromFile sample_file malformed_platform initial_world) =
          Return sample_text) as H1 by reflexivity.
  assert (insufficient sample_text = false) as H2 by (vm_compute; reflexivity).
  assert (JSON.parse (cleanResponse trailing_comma) = None) as H3
    by (vm_compute; reflexivity).
  split_and!; [exact H1|exact H2|exact H3|vm_compute; reflexivity|..].
  all: destruct (malformed_response_is_reported sample_file malformed_platform
         initial_world sample_text (js "key") (completion_of trailing_comma)
         trailing_comma H1 H2 eq_refl eq_refl eq_refl eq_refl H3)
         as (_ & _ & Ha & Hb & Hc & _).
  - exact Ha.
  - exact Hb.
  - exact Hc.
Defined.

(** C5. When the API key is absent from the environment (undefined or
    empty), [analyzeContract] fails with the configuration error for
    every contract text, and the completion endpoint is not invoked: the
    log gains the console entry only. *)
Theorem missing_key_fails_before_network contractText p w :
  optional_string_falsy (VITE_GROQ_API_KEY p) = true →
  fst (analyzeContract contractText p w) = Throw (Error key_message) ∧
  log (snd (analyzeContract contractText p w)) =
    ConsoleError (js "Error analyzing contract:") (Error key_message) :: log w ∧
  network_requests (log (snd (analyzeContract contractText p w))) =
    network_requests (log w).
Proof.
  intros H. by rewrite (analyzeContract_missing_key _ _ _ H).
Qed.

Lemma missing_key_fails_before_network_witness :
  optional_string_falsy (VITE_GROQ_API_KEY keyless_platform) = true ∧
  fst (analyzeContract sample_text keyless_platform initial_world) =
    Throw (Error key_message) ∧
  network_requests
    (log (snd (analyzeContract sample_text keyless_platform initial_world))) = [].
Proof.
  assert (optional_string_falsy (VITE_GROQ_API_KEY keyless_platform) = true) as H
    by reflexivity.
  split; [exact H|].
  destruct (missing_key_fails_before_network sample_text keyless_platform
              initial_world H) as (H1 & _ & H2).
  split; [exact H1|exact H2].
Defined.

(** C6. [extractTextFromFile] dispatches on the declared MIME type alone:
    text/plain yields the text the reader loads (or the read error), the
    DOCX type yields what the parsing library returns and the format
    error if the library throws, the PDF type fails at once with the
    not-supported error without touching the file, and every other type
    fails with the unsupported-type error. *)
Theorem extract_dispatches_on_type file p w :
  (file_type file = text_type →
   extractTextFromFile file p w =
     (match readAsText p file with
      | Some text => Return text
      | None => Throw (Error text_message)
      end, MkWorld (ui w) (FileRead file :: log w))) ∧
  (file_type file = docx_type →
   extractTextFromFile file p w =
     (match extractRawText p file with
      | Return text => Return text
      | Throw _ => Throw (Error docx_message)
      end, MkWorld (ui w) (FileRead file :: log w))) ∧
  (file_type file = pdf_type →
   extractTextFromFile file p w = (Throw (Error pdf_message), w)) ∧
  (file_type file ≠ text_type → file_type file ≠ docx_type →
   file_type file ≠ pdf_type →
   extractTextFromFile file p w = (Throw (Error unsupported_message), w)).
Proof.
  unfold extractTextFromFile. split_and!.
  - intros ->. run. simpl. by destruct (readAsText p file).
  - intros ->. run. simpl. by destruct (extractRawText p file).
  - intros ->. done.
  - intros H1 H2 H3. by rewrite !decide_False.
Qed.

Lemma extract_dispatches_on_type_witness :
  extractTextFromFile (MkFile (js "a.txt") text_type []) sample_platform initial_world =
    (Return sample_text,
     MkWorld (ui initial_world) [FileRead (MkFile (js "a.txt") text_type [])]) ∧
  extractTextFromFile (MkFile (js "a.pdf") pdf_type []) sample_platform initial_world =
    (Throw (Error pdf_message), initial_world) ∧
  extractTextFromFile (MkFile (js "a.png") (js "image/png") []) sample_platform
    initial_world = (Throw (Error unsupported_message), initial_world).
Proof.
  split_and!.
  - exact (proj1 (extract_dispatches_on_type (MkFile (js "a.txt") text_type [])
             sample_platform initial_world) eq_refl).
  - exact (proj1 (proj2 (proj2 (extract_dispatches_on_type
             (MkFile (js "a.pdf") pdf_type []) sample_platform initial_world)))
             eq_refl).
  - apply (proj2 (proj2 (proj2 (extract_dispatches_on_type
             (MkFile (js "a.png") (js "image/png") []) sample_platform
             initial_world)))); by vm_compute.
Defined.

(** C7, as the code has it. For every payload whose [risks] is an array:
    normalization succeeds; when [revisedSections] is absent the result
    holds the empty sequence, and when it is an array the result holds
    that array. *)
Theorem revisedSections_default (contractText : jsstring)
    (m : gmap (list N) value) (rs : list value) :
  m !! js "risks" = Some (VArray rs) →
  ∃ result,
    normalize contractText (VObject m) = Return result ∧
    (m !! js "revisedSections" = None → revisedSections result = VArray []) ∧
    (∀ sections, m !! js "revisedSections" = Some (VArray sections) →
       revisedSections result = VArray sections).
Proof.
  intros H. eexists. split; [by apply normalize_object|]. cbn [revisedSections].
  split; [by intros ->|]. by intros sections ->.
Qed.

Lemma revisedSections_default_witness :
  sample_payload !! js "risks" =
    Some (VArray [VObject {[ js "type" := VString (js "catastrophic");
                             js "id" := VString (js "supplied") ]};
                  VNull;
                  VString (js "ab")]) ∧
  ∃ result,
    normalize sample_text (VObject sample_payload) = Return result ∧
    revisedSections result = VArray [VNull].
Proof.
  assert (sample_payload !! js "risks" =
    Some (VArray [VObject {[ js "type" := VString (js "catastrophic");
                             js "id" := VString (js "supplied") ]};
                  VNull;
                  VString (js "ab")])) as H by (vm_compute; reflexivity).
  split; [exact H|].
  destruct (revisedSections_default sample_text sample_payload _ H)
    as (result & Hn & _ & Hsome).
  exists result. split; [exact Hn|]. apply Hsome. vm_compute. reflexivity.
Defined.

(** C7 as stated fails: a payload without [revisedSections] and without
    [risks] does not normalize. *)
Lemma revisedSections_absent_without_risks_fails :
  parsePayload (jsq "{@overallScore@: 70, @totalClauses@: 3}") =
    Return (VObject {[ js "overallScore" := VNumber (MkNumber false 70 0);
                       js "totalClauses" := VNumber (MkNumber false 3 0) ]}) ∧
  ({[ js "overallScore" := VNumber (MkNumber false 70 0);
      js "totalClauses" := VNumber (MkNumber false 3 0) ]}
     : gmap (list N) value) !! js "revisedSections" = None ∧
  normalize sample_text
    (VObject {[ js "overallScore" := VNumber (MkNumber false 70 0);
                js "totalClauses" := VNumber (MkNumber false 3 0) ]}) =
    Throw (TypeError (CannotReadProperty VUndefined (js "map"))).
Proof. split_and!; by vm_compute. Qed.

(** C8, as the code has it. Beyond JSON parsing the only requirement is
    that the payload be an object whose [risks] is an array: for every
    parsed payload the parser stage succeeds exactly in that case, it
    fails with a [TypeError] of the engine otherwise (not a validation
    error), and on success a missing [overallScore] or [totalClauses]
    shows as undefined in the result. *)
Theorem normalize_succeeds_iff_risks_array
    (contractText response : jsstring) (analysisData : value) :
  parsePayload response = Return analysisData →
  ((∃ result, parseResponse contractText response = Return result) ↔
   (∃ m rs, analysisData = VObject m ∧ m !! js "risks" = Some (VArray rs))) ∧
  (∀ e, parseResponse contractText response = Throw e →
     ∃ cause, e = TypeError cause) ∧
  (∀ result m, parseResponse contractText response = Return result →
     analysisData = VObject m →
     (m !! js "overallScore" = None → overallScore result = VUndefined) ∧
     (m !! js "totalClauses" = None → totalClauses result = VUndefined) ∧
     (m !! js "revisedSections" = None → revisedSections result = VArray [])).
Proof.
  intros Hp. unfold parseResponse. rewrite Hp. pure. split_and!.
  - split.
    + intros [result H]. by eapply normalize_returns.
    + intros (m & rs & -> & H). eexists. by apply normalize_object.
  - unfold normalize, Get, call_map. pure. intros e H.
    repeat case_match; simplify_eq; eauto.
  - intros result m H ->.
    destruct (normalize_returns _ _ _ H) as (m' & rs & [= <-] & Hr).
    rewrite (normalize_object _ _ _ Hr) in H. injection H as <-. cbn.
    split_and!; by intros ->.
Qed.

Lemma normalize_succeeds_iff_risks_array_witness :
  parsePayload sample_json =
    Return (VObject
      {[ js "risks" :=
           VArray [VObject {[ js "type" := VString (js "medium");
                              js "category" := VString (js "Payment Terms") ]}];
         js "overallScore" := VNumber (MkNumber false 70 0) ]}) ∧
  ∃ result,
    parseResponse sample_text sample_json = Return result ∧
    totalClauses result = VUndefined.
Proof.
  assert (parsePayload sample_json =
    Return (VObject
      {[ js "risks" :=
           VArray [VObject {[ js "type" := VString (js "medium");
                              js "category" := VString (js "Payment Terms") ]}];
         js "overallScore" := VNumber (MkNumber false 70 0) ]})) as H
    by (vm_compute; reflexivity).
  split; [exact H|].
  destruct (normalize_succeeds_iff_risks_array sample_text sample_json _ H)
    as (Hiff & _ & Hfields).
  destruct (proj2 Hiff) as [result Hresult].
  { eexists _, _. split; [reflexivity|]. vm_compute. reflexivity. }
  exists result. split; [exact Hresult|].
  apply (Hfields result _ Hresult eq_refl). vm_compute. reflexivity.
Defined.

(** C8 as stated fails: syntactically valid JSON payloads on which
    normalization throws. *)
Lemma valid_json_fails_normalization :
  parsePayload (js "{}") = Return (VObject ∅) ∧
  parseResponse sample_text (js "{}") =
    Throw (TypeError (CannotReadProperty VUndefined (js "map"))) ∧
  parsePayload (js "null") = Return VNull ∧
  parseResponse sample_text (js "null") =
    Throw (TypeError (CannotReadProperty VNull (js "risks"))) ∧
  parsePayload (jsq "{@risks@: 3}") =
    Return (VObject {[ js "risks" := VNumber (MkNumber false 3 0) ]}) ∧
  parseResponse sample_text (jsq "{@risks@: 3}") =
    Throw (TypeError (NotAFunction VUndefined)).
Proof. split_and!; by vm_compute. Qed.

(** C9. Whenever [analyzeContract] returns a result, its [originalText]
    is the contract text passed in, and its [overallScore] and
    [totalClauses] are those properties of the payload parsed from the
    response of the endpoint. *)
Theorem result_copies_text_score_clauses contractText p w result :
  fst (analyzeContract contractText p w) = Return result →
  originalText result = contractText ∧
  ∃ completion response analysisData,
    completions_create p (analysis_request (build_prompt contractText)) =
      Return completion ∧
    first_content completion = Some response ∧
    parsePayload response = Return analysisData ∧
    Get analysisData (js "overallScore") = Return (overallScore result) ∧
    Get analysisData (js "totalClauses") = Return (totalClauses result).
Proof.
  intros H. apply analyzeContract_returns in H as (completion & response & Hc & Hf & H).
  unfold parseResponse in H. pure.
  destruct (parsePayload response) as [analysisData|] eqn:Hp; [|done].
  apply normalize_fields in H as (? & ? & ?). split; [done|].
  by exists completion, response, analysisData.
Qed.

Lemma result_copies_text_score_clauses_witness :
  ∃ result,
    fst (analyzeContract sample_text sample_platform initial_world) = Return result ∧
    originalText result = sample_text ∧
    overallScore result = VNumber (MkNumber false 70 0).
Proof.
  destruct (fst (analyzeContract sample_text sample_platform initial_world))
    as [result|] eqn:E; [|by vm_compute in E].
  exists result. split; [reflexivity|].
  split; [exact (proj1 (result_copies_text_score_clauses _ _ _ _ E))|].
  vm_compute in E. by injection E as <-.
Defined.

(** C10. The length guard looks at the trimmed text and compares
    strictly: a text whose trimmed length is exactly 100 passes and is
    handed to the analysis client, while a text of 100 or more raw
    characters whose trimmed length is below 100 aborts the pipeline
    without the client being called. *)
Theorem length_guard_is_on_trimmed_text
    (analyze : jsstring → M AnalysisResult) file p w contractText :
  fst (extractTextFromFile file p w) = Return contractText →
  (length (trim contractText) = 100%nat →
   insufficient contractText = false ∧
   handleFileUpload_with analyze file p w =
     analyze_and_settle analyze contractText p
       (snd ((begin_upload file;;
              contractText ← extractTextFromFile file;
              setOriginalContractText contractText) p w))) ∧
  ((100 ≤ length contractText)%nat → (length (trim contractText) < 100)%nat →
   insufficient contractText = true ∧
   (∀ analyze', handleFileUpload_with analyze' file p w =
                handleFileUpload_with analyze file p w) ∧
   analysisError (ui (snd (handleFileUpload_with analyze file p w))) =
     Some (Text insufficient_message) ∧
   network_requests (log (snd (handleFileUpload_with analyze file p w))) =
     network_requests (log w)).
Proof.
  intros Hext. split.
  - intros Hlen.
    assert (insufficient contractText = false) as Hins.
    { unfold insufficient. rewrite Hlen.
      destruct contractText; [done|]. done. }
    split; [done|]. by apply upload_proceeds.
  - intros _ Hlen.
    assert (insufficient contractText = true) as Hins.
    { unfold insufficient. apply orb_true_iff. right. by apply Nat.ltb_lt. }
    split; [done|]. rewrite (upload_aborts analyze _ _ _ _ Hext Hins).
    split_and!; try done.
    + intros analyze'. by rewrite (upload_aborts analyze' _ _ _ _ Hext Hins).
    + destruct (extract_frame file p) as (o & evs & Hevs & Hrun).
      rewrite Hrun. cbn [snd log].
      change (network_requests (evs ++ log w) = network_requests (log w)).
      by rewrite network_requests_app, Hevs.
Qed.

Lemma length_guard_is_on_trimmed_text_witness :
  (fst (extractTextFromFile sample_file hundred_platform initial_world) =
     Return hundred_text ∧
   length hundred_text = 102%nat ∧ length (trim hundred_text) = 100%nat ∧
   insufficient hundred_text = false ∧
   network_requests
     (log (snd (handleFileUpload sample_file hundred_platform initial_world))) =
     [analysis_request (build_prompt hundred_text)]) ∧
  (fst (extractTextFromFile sample_file blank_platform initial_world) =
     Return blank_padded_text ∧
   length blank_padded_text = 112%nat ∧ length (trim blank_padded_text) = 12%nat ∧
   insufficient blank_padded_text = true ∧
   network_requests
     (log (snd (handleFileUpload sample_file blank_platform initial_world))) = []).
Proof.
  split.
  - assert (fst (extractTextFromFile sample_file hundred_platform initial_world) =
            Return hundred_text) as H1 by reflexivity.
    assert (length (trim hundred_text) = 100%nat) as H2 by (vm_compute; reflexivity).
    destruct (proj1 (length_guard_is_on_trimmed_text analyzeContract sample_file
      hundred_platform initial_world hundred_text H1) H2) as [Hins Hrun].
    split_and!; [exact H1|vm_compute; reflexivity|exact H2|exact Hins|].
    unfold handleFileUpload. rewrite Hrun. vm_compute. reflexivity.
  - assert (fst (extractTextFromFile sample_file blank_platform initial_world) =
            Return blank_padded_text) as H1 by reflexivity.
    assert (length (trim blank_padded_text) = 12%nat) as H2 by (vm_compute; reflexivity).
    assert (length blank_padded_text = 112%nat) as H3 by (vm_compute; reflexivity).
    destruct (proj2 (length_guard_is_on_trimmed_text analyzeContract sample_file
      blank_platform initial_world blank_padded_text H1)) as (Hins & _ & _ & Hnet).
    { rewrite H3. lia. }
    { rewrite H2. lia. }
    split_and!; [exact H1|exact H3|exact H2|exact Hins|exact Hnet].
Defined.

(** ** More on the pipeline *)

(** Extraction throws instances of [Error] only. *)
Lemma extract_throws_errors file p w e :
  fst (extractTextFromFile file p w) = Throw e → ∃ m, e = Error m.
Proof.
  unfold extractTextFromFile. repeat case_decide; run; simpl.
  - intros [= <-]. eauto.
  - destruct (extractRawText p file); simpl; intros [= <-]. eauto.
  - destruct (readAsText p file); simpl; intros [= <-]. eauto.
  - intros [= <-]. eauto.
Qed.

(** The analysis client only adds to the log: its outcome and the events
    it adds depend on the text and the platform alone. *)
Lemma analyze_frame contractText p :
  ∃ o evs,
    (∀ w, analyzeContract contractText p w = (o, MkWorld (ui w) (evs ++ log w))) ∧
    network_requests evs =
      (if optional_string_falsy (VITE_GROQ_API_KEY p) then []
       else [analysis_request (build_prompt contractText)]) ∧
    match o with
    | Return _ =>
        ∃ key, evs = [NetworkRequest key (analysis_request (build_prompt contractText))]
    | Throw e =>
        instanceof_Error e = true ∧
        ∃ cause rest,
          evs = ConsoleError (js "Error analyzing contract:") cause :: rest ∧
          e = (if instanceof_Error cause then cause else Error unexpected_message)
    end.
Proof.
  unfold analyzeContract, getGroqClient, chat_completions_create. run.
  destruct (VITE_GROQ_API_KEY p) as [key|] eqn:Hkey; simpl.
  2:{ eexists (Throw _), [_]. split; [intros w; reflexivity|].
      split; [done|]. split; [done|]. by eexists _, []. }
  destruct (string_falsy key) eqn:Hk; simpl.
  { eexists (Throw _), [_]. split; [intros w; reflexivity|].
    split; [done|]. split; [done|]. by eexists _, []. }
  destruct (completions_create p _) as [completion|e] eqn:Hc; simpl.
  2:{ destruct (instanceof_Error e) eqn:He.
      - eexists (Throw _), [_; _]. split; [intros w; reflexivity|].
        split; [done|]. split; [done|]. eexists _, [_]. split; [done|].
        by rewrite He.
      - eexists (Throw _), [_; _]. split; [intros w; reflexivity|].
        split; [done|]. split; [done|]. eexists _, [_]. split; [done|].
        by rewrite He. }
  destruct (first_content completion) as [response|] eqn:Hf; simpl.
  2:{ eexists (Throw _), [_; _]. split; [intros w; reflexivity|].
      split; [done|]. split; [done|]. by eexists _, [_]. }
  destruct (string_falsy response) eqn:Hr; simpl.
  { eexists (Throw _), [_; _]. split; [intros w; reflexivity|].
    split; [done|]. split; [done|]. by eexists _, [_]. }
  destruct (parseResponse contractText response) as [result|e] eqn:E; simpl.
  - eexists (Return _), [_]. split; [intros w; reflexivity|].
    split; [done|]. by eexists.
  - rewrite (parseResponse_throws_errors _ _ _ E).
    eexists (Throw _), [_; _]. split; [intros w; reflexivity|].
    split; [done|]. split; [by apply (parseResponse_throws_errors _ _ _ E)|].
    eexists _, [_]. split; [done|].
    by rewrite (parseResponse_throws_errors _ _ _ E).
Qed.

(** A file whose text cannot be extracted: the failure is reported and
    the contract text in the state stays what it was. *)
Lemma upload_extraction_fails analyze file p w e :
  fst (extractTextFromFile file p w) = Throw e →
  handleFileUpload_with analyze file p w =
    (Return (),
     MkWorld
       {| currentView := analysis; uploadedFile := Some file;
          analysisResult := None; isAnalyzing := false;
          analysisError := Some (message_of e);
          originalContractText := originalContractText (ui w);
          uploadedFileName := file_name file; uploadedAt := now p |}
       (ConsoleError (js "Analysis error:") e
          :: log (snd (extractTextFromFile file p w)))).
Proof.
  intros Hext. destruct (extract_throws_errors _ _ _ _ Hext) as [m ->].
  destruct (extract_frame file p) as (o & evs & _ & Hrun).
  rewrite !Hrun in Hext |- *. simpl in Hext. subst o.
  unfold handleFileUpload_with, begin_upload, report_failure. setters.
  run. simpl. rewrite Hrun. reflexivity.
Qed.

Lemma settle_success analyze contractText p w result w' :
  analyze contractText p w = (Return result, w') →
  analyze_and_settle analyze contractText p w =
    (Return (),
     MkWorld
       {| currentView := currentView (ui w'); uploadedFile := uploadedFile (ui w');
          analysisResult := Some result; isAnalyzing := false;
          analysisError := analysisError (ui w');
          originalContractText := originalContractText (ui w');
          uploadedFileName := uploadedFileName (ui w');
          uploadedAt := uploadedAt (ui w') |}
       (log w')).
Proof.
  intros H. unfold analyze_and_settle, report_failure. setters. run.
  by rewrite H.
Qed.

(** The state in which the analysis client is called. *)
Lemma upload_before_analysis file p w contractText :
  fst (extractTextFromFile file p w) = Return contractText →
  snd ((begin_upload file;;
        contractText ← extractTextFromFile file;
        setOriginalContractText contractText) p w) =
    MkWorld
      {| currentView := analysis; uploadedFile := Some file;
         analysisResult := analysisResult (ui w); isAnalyzing := true;
         analysisError := None;
         originalContractText := contractText;
         uploadedFileName := file_name file; uploadedAt := now p |}
      (log (snd (extractTextFromFile file p w))).
Proof.
  intros Hext. destruct (extract_frame file p) as (o & evs & _ & Hrun).
  rewrite !Hrun in Hext |- *. simpl in Hext. subst o.
  unfold begin_upload. setters. run. simpl. rewrite Hrun. reflexivity.
Qed.

(** Every run of [handleFileUpload], case by case. *)
Lemma upload_run file p w :
  ∃ (err : option thrown) (res : option AnalysisResult) (text : jsstring) evs,
    handleFileUpload file p w =
      (Return (),
       MkWorld
         {| currentView := analysis; uploadedFile := Some file;
            analysisResult := res; isAnalyzing := false;
            analysisError := message_of <$> err;
            originalContractText := text;
            uploadedFileName := file_name file; uploadedAt := now p |}
         (evs ++ log w)) ∧
    (∀ e, err = Some e →
       instanceof_Error e = true ∧ res = None ∧
       ∃ rest, evs = ConsoleError (js "Analysis error:") e :: rest) ∧
    (err = None → is_Some res) ∧
    match fst (extractTextFromFile file p w) with
    | Throw e0 =>
        err = Some e0 ∧ text = originalContractText (ui w) ∧
        network_requests evs = []
    | Return t =>
        text = t ∧
        if insufficient t
        then err = Some (Error insufficient_message) ∧ network_requests evs = []
        else
          network_requests evs =
            (if optional_string_falsy (VITE_GROQ_API_KEY p) then []
             else [analysis_request (build_prompt t)]) ∧
          match fst (analyzeContract t p w) with
          | Return r => err = None ∧ res = Some r
          | Throw e => err = Some e
          end
    end.
Proof.
  destruct (extract_frame file p) as (ox & evx & Hnx & Hx).
  unfold handleFileUpload.
  destruct (fst (extractTextFromFile file p w)) as [t|e0] eqn:Hext.
  2:{ rewrite (upload_extraction_fails _ _ _ _ _ Hext).
      destruct (extract_throws_errors _ _ _ _ Hext) as [m ->].
      rewrite Hx. cbn [snd log].
      exists (Some (Error m)), None, (originalContractText (ui w)),
        (ConsoleError (js "Analysis error:") (Error m) :: evx).
      split; [reflexivity|]. split_and!; try done.
      all: try (by intros e [= <-]; split_and!; eauto).
      all: try (cbn; by rewrite Hnx). }
  destruct (insufficient t) eqn:Hins.
  { rewrite (upload_aborts _ _ _ _ _ Hext Hins). rewrite Hx. cbn [snd log].
    exists (Some (Error insufficient_message)), None, t,
      (ConsoleError (js "Analysis error:") (Error insufficient_message) :: evx).
    split; [reflexivity|]. split_and!; try done.
    all: try (by intros e [= <-]; split_and!; eauto).
    all: try (cbn; by rewrite Hnx). }
  rewrite (upload_proceeds _ _ _ _ _ Hext Hins).
  rewrite (upload_before_analysis _ _ _ _ Hext). rewrite Hx. cbn [snd log].
  destruct (analyze_frame t p) as (oa & eva & Ha & Hna & Hoa).
  rewrite (Ha w). cbn [fst].
  destruct oa as [r|e].
  - rewrite (settle_success _ _ _ _ _ _ (Ha _)). cbn [ui log].
    exists None, (Some r), t, (eva ++ evx). split.
    { by rewrite <- app_assoc. }
    split_and!; try done.
    rewrite network_requests_app, Hnx, app_nil_r. exact Hna.
  - destruct Hoa as (He & cause & rest & -> & Hcause).
    rewrite (settle_failure _ _ _ _ _ _ (Ha _) He). cbn [ui log].
    exists (Some e), None, t,
      (ConsoleError (js "Analysis error:") e
         :: (ConsoleError (js "Error analyzing contract:") cause :: rest) ++ evx).
    split.
    { cbn. by rewrite <- app_assoc. }
    split_and!; try done.
    + intros e' [= <-]. split_and!; eauto.
    + rewrite <- Hna. cbn. by rewrite network_requests_app, Hnx, app_nil_r.
Qed.

Lemma build_prompt_inj t1 t2 : build_prompt t1 = build_prompt t2 → t1 = t2.
Proof.
  unfold build_prompt. intros H%app_inv_head. by apply app_inv_tail in H.
Qed.

(** X1. [analyzeContract] leaves the React state alone and only adds to
    the log; however the call settles, it calls the completion client
    exactly once when a key is configured and not at all otherwise (it
    never calls again after a failure; what the client itself sends for
    the one call, its retries included, is not counted), and the request
    handed over determines the contract text it was built from. *)
Theorem analysis_calls_client_once contractText p w :
  let final := analyzeContract contractText p w in
  ui (snd final) = ui w ∧
  log w `suffix_of` log (snd final) ∧
  network_requests (log (snd final)) =
    (if optional_string_falsy (VITE_GROQ_API_KEY p) then []
     else [analysis_request (build_prompt contractText)]) ++
    network_requests (log w) ∧
  (∀ other,
     analysis_request (build_prompt other) =
     analysis_request (build_prompt contractText) → other = contractText).
Proof.
  destruct (analyze_frame contractText p) as (o & evs & Hrun & Hnet & _).
  cbn zeta. rewrite Hrun. cbn [snd ui log]. split_and!.
  - done.
  - by apply suffix_app_r.
  - by rewrite network_requests_app, Hnet.
  - intros other H. apply (f_equal messages) in H.
    apply build_prompt_inj. unfold analysis_request in H. cbn [messages] in H.
    congruence.
Qed.

(** X2. Whenever [analyzeContract] fails, what it throws is an instance
    of [Error]: the caught error itself, or the unexpected-error message
    when what was caught is no [Error]; and the caught value was logged to
    the console first. When it returns, the log gained the request and
    nothing else. *)
Theorem analysis_failure_is_an_error contractText p w :
  match analyzeContract contractText p w with
  | (Return _, w') =>
      ∃ key,
        log w' =
          NetworkRequest key (analysis_request (build_prompt contractText)) :: log w
  | (Throw e, w') =>
      instanceof_Error e = true ∧
      ∃ cause rest,
        log w' = ConsoleError (js "Error analyzing contract:") cause :: rest ∧
        e = (if instanceof_Error cause then cause else Error unexpected_message)
  end.
Proof.
  destruct (analyze_frame contractText p) as (o & evs & Hrun & _ & Ho).
  rewrite Hrun. destruct o as [r|e].
  - destruct Ho as [key ->]. by exists key.
  - destruct Ho as (He & cause & rest & -> & Hc). split; [done|].
    by exists cause, (rest ++ log w).
Qed.

(** X3. A completion without content (no choice, a first choice without
    message, a null or an empty content) makes [analyzeContract] fail with
    the no-response error after its one request, the parser not being
    run; [handleFileUpload] then shows that message and no result. *)
Theorem empty_response_is_reported contractText p w key completion :
  VITE_GROQ_API_KEY p = Some key → string_falsy key = false →
  completions_create p (analysis_request (build_prompt contractText)) =
    Return completion →
  (choices completion = [] ∨
   (∃ rest, choices completion = MkChoice None :: rest) ∨
   (∃ rest, choices completion = MkChoice (Some (MkChatMessage None)) :: rest) ∨
   (∃ rest, choices completion = MkChoice (Some (MkChatMessage (Some []))) :: rest)) →
  analyzeContract contractText p w =
    (Throw (Error no_response_message),
     MkWorld (ui w)
       (ConsoleError (js "Error analyzing contract:") (Error no_response_message)
          :: NetworkRequest key (analysis_request (build_prompt contractText))
          :: log w)) ∧
  ∀ file w0,
    fst (extractTextFromFile file p w0) = Return contractText →
    insufficient contractText = false →
    fst (handleFileUpload file p w0) = Return () ∧
    analysisError (ui (snd (handleFileUpload file p w0))) =
      Some (Text no_response_message) ∧
    analysisResult (ui (snd (handleFileUpload file p w0))) = None.
Proof.
  intros Hkey Hk Hc Hshape.
  assert (from_option string_falsy true (first_content completion) = true) as Hf.
  { unfold first_content.
    destruct Hshape as [->|[[rest ->]|[[rest ->]|[rest ->]]]]; done. }
  pose proof (λ w, analyzeContract_no_content contractText p w key completion
                Hkey Hk Hc Hf) as Hrun. cbn zeta in Hrun.
  split; [apply Hrun|].
  intros file w0 Hext Hins.
  unfold handleFileUpload. rewrite (upload_proceeds _ _ _ _ _ Hext Hins).
  by rewrite (settle_failure _ _ _ _ _ _ (Hrun _) eq_refl).
Qed.

Lemma empty_response_is_reported_witness :
  fst (analyzeContract sample_text no_choice_platform initial_world) =
    Throw (Error no_response_message) ∧
  analysisError
    (ui (snd (handleFileUpload sample_file no_choice_platform initial_world))) =
    Some (Text no_response_message).
Proof.
  destruct (empty_response_is_reported sample_text no_choice_platform
              initial_world (js "key") (MkChatCompletion [])
              eq_refl eq_refl eq_refl (or_introl eq_refl)) as [H1 H2].
  split; [by rewrite H1|].
  apply (H2 sample_file initial_world); [reflexivity|vm_compute; reflexivity].
Defined.

(** X4. A failure of the endpoint is surfaced: [analyzeContract] rethrows
    the error of the transport as it is (the unexpected-error message
    instead, for a rejection that is no [Error]), and [handleFileUpload]
    returns normally with its message shown, the result cleared and the
    loading flag reset; each of the two logs to the console once. *)
Theorem transport_failure_is_surfaced file p w contractText key e :
  fst (extractTextFromFile file p w) = Return contractText →
  insufficient contractText = false →
  VITE_GROQ_API_KEY p = Some key → string_falsy key = false →
  completions_create p (analysis_request (build_prompt contractText)) = Throw e →
  let surfaced := if instanceof_Error e then e else Error unexpected_message in
  let sent := NetworkRequest key (analysis_request (build_prompt contractText)) in
  let final := handleFileUpload file p w in
  (∀ w0, analyzeContract contractText p w0 =
     (Throw surfaced,
      MkWorld (ui w0)
        (ConsoleError (js "Error analyzing contract:") e :: sent :: log w0))) ∧
  fst final = Return () ∧
  analysisError (ui (snd final)) = Some (message_of surfaced) ∧
  analysisResult (ui (snd final)) = None ∧
  isAnalyzing (ui (snd final)) = false ∧
  log (snd final) =
    ConsoleError (js "Analysis error:") surfaced
      :: ConsoleError (js "Error analyzing contract:") e
      :: sent :: log (snd (extractTextFromFile file p w)).
Proof.
  intros Hext Hins Hkey Hk Hc surfaced sent final.
  assert (∀ w0, analyzeContract contractText p w0 =
     (Throw surfaced,
      MkWorld (ui w0)
        (ConsoleError (js "Error analyzing contract:") e :: sent :: log w0))) as Hrun.
  { intros w0. unfold analyzeContract, getGroqClient, chat_completions_create.
    run. rewrite Hkey, Hk. simpl. rewrite Hc. subst surfaced.
    by destruct (instanceof_Error e). }
  assert (instanceof_Error surfaced = true) as Herr.
  { subst surfaced. by destruct (instanceof_Error e) eqn:E. }
  split; [done|]. subst final. unfold handleFileUpload.
  rewrite (upload_proceeds _ _ _ _ _ Hext Hins).
  rewrite (settle_failure _ _ _ _ _ _ (Hrun _) Herr). cbn.
  split_and!; try done. do 3 f_equal.
  destruct (extract_frame file p) as (o & evs & _ & Hx).
  rewrite Hx in Hext. cbn in Hext. subst o.
  unfold begin_upload. setters. run. cbn. by rewrite !Hx.
Qed.

Lemma transport_failure_is_surfaced_witness :
  analysisError
    (ui (snd (handleFileUpload sample_file
                (failing_platform (Error (js "429 Too Many Requests")))
                initial_world))) =
    Some (Text (js "429 Too Many Requests")) ∧
  analysisError
    (ui (snd (handleFileUpload sample_file
                (failing_platform (NotAnError (VString (js "offline"))))
                initial_world))) =
    Some (Text unexpected_message).
Proof.
  assert (insufficient sample_text = false) as Hins by (vm_compute; reflexivity).
  split.
  - exact (proj1 (proj2 (proj2 (transport_failure_is_surfaced sample_file
      (failing_platform (Error (js "429 Too Many Requests"))) initial_world
      sample_text (js "key") _ eq_refl Hins eq_refl eq_refl eq_refl)))).
  - exact (proj1 (proj2 (proj2 (transport_failure_is_surfaced sample_file
      (failing_platform (NotAnError (VString (js "offline")))) initial_world
      sample_text (js "key") _ eq_refl Hins eq_refl eq_refl eq_refl)))).
Defined.


(** X6. The message that [handleFileUpload] shows is always the message
    of an instance of [Error] that it caught and logged: its fallback text
    for a thrown value that is no [Error] is never needed. *)
Theorem upload_error_is_the_message_of_an_error file p w :
  let final := handleFileUpload file p w in
  ∀ shown, analysisError (ui (snd final)) = Some shown →
    ∃ e rest,
      instanceof_Error e = true ∧ shown = message_of e ∧
      log (snd final) = ConsoleError (js "Analysis error:") e :: rest.
Proof.
  destruct (upload_run file p w) as (err & res & text & evs & -> & Herr & _).
  cbn. intros shown Hshown. destruct err as [e|]; [|done].
  destruct (Herr e eq_refl) as (He & _ & rest & ->).
  exists e, (rest ++ log w). by simplify_eq/=.
Qed.

Lemma upload_error_is_the_message_of_an_error_witness :
  analysisError (ui (snd (handleFileUpload sample_file short_platform initial_world))) =
    Some (Text insufficient_message) ∧
  ∃ e rest,
    instanceof_Error e = true ∧ Text insufficient_message = message_of e ∧
    log (snd (handleFileUpload sample_file short_platform initial_world)) =
      ConsoleError (js "Analysis error:") e :: rest.
Proof.
  assert (analysisError
            (ui (snd (handleFileUpload sample_file short_platform initial_world))) =
          Some (Text insufficient_message)) as H by (by vm_compute).
  split; [exact H|].
  exact (upload_error_is_the_message_of_an_error sample_file short_platform
           initial_world _ H).
Defined.



(** X8. [handleFileUpload] calls the completion client at most once: the
    contract text is handed to the client exactly when it was extracted,
    passes the length guard and a key is configured, and then the request
    of the one call holds the prompt built from that text. (The calls are
    counted, not what the client sends for a call.) *)
Theorem upload_calls_client_only_when_analyzable file p w :
  network_requests (log (snd (handleFileUpload file p w))) =
    match fst (extractTextFromFile file p w) with
    | Return contractText =>
        if insufficient contractText ||
           optional_string_falsy (VITE_GROQ_API_KEY p)
        then []
        else [analysis_request (build_prompt contractText)]
    | Throw _ => []
    end ++ network_requests (log w).
Proof.
  destruct (upload_run file p w) as (err & res & text & evs & -> & _ & _ & Hcases).
  cbn. rewrite network_requests_app. f_equal.
  destruct (fst (extractTextFromFile file p w)) as [t|e0]; [|by destruct Hcases as (_ & _ & ->)].
  destruct Hcases as [_ Hcases].
  destruct (insufficient t); [by destruct Hcases as [_ ->]|].
  by destruct Hcases as [-> _].
Qed.

(** X9. When the text of the file can be extracted, the React state after
    [handleFileUpload] does not depend on the state before it: nothing of
    a previous upload is left. When extraction fails, the contract text of
    the previous upload stays in the state, now under the name of the new
    file, with the error shown and no result. *)
Theorem upload_replaces_previous_session file p w :
  (∀ contractText, fst (extractTextFromFile file p w) = Return contractText →
     ∀ w', ui (snd (handleFileUpload file p w')) = ui (snd (handleFileUpload file p w))) ∧
  (∀ e, fst (extractTextFromFile file p w) = Throw e →
     let final := handleFileUpload file p w in
     originalContractText (ui (snd final)) = originalContractText (ui w) ∧
     uploadedFileName (ui (snd final)) = file_name file ∧
     analysisError (ui (snd final)) = Some (message_of e) ∧
     analysisResult (ui (snd final)) = None).
Proof.
  split.
  - intros t Ht w'.
    assert (fst (extractTextFromFile file p w') = Return t) as Ht'.
    { destruct (extract_frame file p) as (o & evs & _ & Hx).
      rewrite Hx in Ht |- *. done. }
    destruct (upload_run file p w) as (err & res & text & evs & -> & Herr & _ & Hcases).
    destruct (upload_run file p w') as (err' & res' & text' & evs' & -> & Herr' & _ & Hcases').
    rewrite Ht in Hcases. rewrite Ht' in Hcases'. cbn.
    destruct Hcases as [-> Hcases], Hcases' as [-> Hcases'].
    destruct (insufficient t).
    { destruct Hcases as [-> _], Hcases' as [-> _].
      destruct (Herr _ eq_refl) as (_ & -> & _).
      by destruct (Herr' _ eq_refl) as (_ & -> & _). }
    destruct Hcases as [_ Hcases], Hcases' as [_ Hcases'].
    destruct (analyze_frame t p) as (o & eva & Ha & _).
    rewrite Ha in Hcases, Hcases'. cbn in *. destruct o as [r|e].
    + by destruct Hcases as [-> ->], Hcases' as [-> ->].
    + subst. destruct (Herr _ eq_refl) as (_ & -> & _).
      by destruct (Herr' _ eq_refl) as (_ & -> & _).
  - intros e He.
    destruct (upload_run file p w) as (err & res & text & evs & -> & Herr & _ & Hcases).
    rewrite He in Hcases. destruct Hcases as (-> & -> & _). cbn.
    by destruct (Herr _ eq_refl) as (_ & -> & _).
Qed.

(** X10. The identifiers of the risks of a normalized result are pairwise
    distinct: the risk at (0-based) position [index] has the identifier
    risk-(index+1). *)
Theorem risk_identifiers_are_distinct contractText analysisData result :
  normalize contractText analysisData = Return result →
  NoDup ((λ risk : gmap (list N) value, risk !! js "id") <$> risks result) ∧
  ∀ index risk, risks result !! index = Some risk →
    risk !! js "id" = Some (VString (js "risk-" ++ nat_to_string (index + 1))).
Proof.
  intros H. destruct (normalize_returns _ _ _ H) as (m & rs & -> & Hr).
  rewrite (normalize_object _ _ _ Hr) in H. injection H as <-. cbn [risks].
  assert (∀ index risk,
            imap (λ index risk, with_id risk index) rs !! index = Some risk →
            risk !! js "id" =
              Some (VString (js "risk-" ++ nat_to_string (index + 1)))) as Hid.
  { intros index risk. rewrite list_lookup_imap.
    destruct (rs !! index); [|done]. intros [= <-].
    unfold with_id. by rewrite lookup_insert_eq. }
  split; [|done]. apply NoDup_alt. intros i j x.
  rewrite !list_lookup_fmap.
  destruct (imap _ rs !! i) as [ri|] eqn:Hi; [|done].
  destruct (imap _ rs !! j) as [rj|] eqn:Hj; [|done].
  cbn. rewrite (Hid _ _ Hi), (Hid _ _ Hj). intros [= <-] [= Heq].
  apply nat_to_string_inj in Heq. lia.
Qed.

Lemma risk_identifiers_are_distinct_witness :
  ∃ result,
    normalize sample_text (VObject sample_payload) = Return result ∧
    (λ risk : gmap (list N) value, risk !! js "id") <$> risks result =
      [Some (VString (js "risk-1")); Some (VString (js "risk-2"));
       Some (VString (js "risk-3"))] ∧
    NoDup ((λ risk : gmap (list N) value, risk !! js "id") <$> risks result).
Proof.
  destruct (normalize sample_text (VObject sample_payload)) as [result|] eqn:E;
    [|by vm_compute in E].
  exists result. split; [reflexivity|].
  split; [|exact (proj1 (risk_identifiers_are_distinct _ _ _ E))].
  vm_compute in E. injection E as <-. vm_compute. reflexivity.
Defined.

Lemma trimStart_split s :
  ∃ lead, s = lead ++ trimStart s ∧ Forall (λ c, is_white_space c = true) lead.
Proof.
  induction s as [|c s (lead & IH & Hlead)]; [by exists []|]. simpl.
  destruct (is_white_space c) eqn:Hc; [|by exists []].
  exists (c :: lead). split; [by rewrite IH at 1|by constructor].
Qed.

Lemma trimStart_head s c rest :
  trimStart s = c :: rest → is_white_space c = false.
Proof.
  induction s as [|d s IH]; [done|]. simpl.
  destruct (is_white_space d) eqn:Hd; [done|]. by intros [= <- _].
Qed.

(** A character that begins no fence is kept by the scan. *)
Lemma strip_cons_other c X :
  c ≠ 96 → c ≠ 10 → strip_fences (c :: X) = c :: strip_fences X.
Proof.
  intros H1 H2. unfold strip_fences. rewrite replace_unfold.
  unfold RegExp.exec_at, fence_re at 1, fence_json, fence, newline.
  eqb_consts.
  destruct (N.eqb_spec 96 c) as [<-|_]; [done|].
  by destruct (N.eqb_spec 10 c) as [<-|_].
Qed.

Lemma strip_leading_white_space lead c X :
  Forall (λ c, is_white_space c = true) lead → c ≠ 96 → c ≠ 10 →
  strip_fences (lead ++ c :: X) = lead ++ c :: strip_fences X.
Proof.
  intros Hlead H1 H2. induction Hlead as [|d lead Hd Hrest IH]; simpl.
  { by apply strip_cons_other. }
  destruct (N.eq_dec d 10) as [->|Hne].
  - rewrite strip_newline_cons; [by rewrite IH|].
    destruct lead as [|d' lead]; simpl; [congruence|].
    intros [= ->]. apply Forall_cons in Hrest as [H _]. by vm_compute in H.
  - rewrite strip_cons_other; [by rewrite IH| |done].
    intros ->. by vm_compute in Hd.
Qed.

Lemma trimEnd_cons_kept c X :
  is_white_space c = false → ∃ Y, trimEnd (c :: X) = c :: Y.
Proof.
  intros Hc. unfold trimEnd. rewrite reverse_cons.
  assert (∀ Z, trimStart (Z ++ [c]) = trimStart Z ++ [c]) as ->.
  { induction Z as [|z Z IH]; simpl; [by rewrite Hc|].
    by destruct (is_white_space z). }
  rewrite reverse_snoc. eauto.
Qed.

(** X11. Prose before the payload is fatal: when the first character of
    the response that is not white space is neither a backtick nor a
    character a JSON text can begin with, the cleaned response begins with
    that character and the parser stage fails with the [SyntaxError] of
    [JSON.parse], whether or not a fenced payload follows. *)
Theorem prose_before_payload_is_rejected response c rest :
  trimStart response = c :: rest →
  c ≠ 96 → value_start c = false →
  ∃ cleaned,
    cleanResponse response = c :: cleaned ∧
    parsePayload response = Throw (SyntaxError (c :: cleaned)) ∧
    ∀ contractText,
      parseResponse contractText response = Throw (SyntaxError (c :: cleaned)).
Proof.
  intros Htrim H96 Hstart.
  pose proof (trimStart_head _ _ _ Htrim) as Hc.
  destruct (trimStart_split response) as (lead & Hresp & Hlead).
  rewrite Htrim in Hresp.
  assert (c ≠ 10) as H10 by (intros ->; by vm_compute in Hc).
  assert (∃ cleaned, cleanResponse response = c :: cleaned) as [cleaned Hclean].
  { unfold cleanResponse, trim. rewrite Hresp.
    rewrite strip_leading_white_space, trimStart_leading by done.
    simpl. rewrite Hc. by apply trimEnd_cons_kept. }
  exists cleaned. split; [done|].
  assert (JSON.parse (c :: cleaned) = None) as Hparse.
  { destruct (JSON.parse (c :: cleaned)) as [v|] eqn:E; [|done].
    destruct (parse_begins (c :: cleaned)) as (c' & j' & [= <- <-] & [Hw|Hv] & _);
      [by eauto| |congruence].
    apply ws_white_space in Hw. congruence. }
  unfold parseResponse, parsePayload, JSON_parse. rewrite Hclean, Hparse.
  split; [done|]. done.
Qed.

Lemma prose_before_payload_is_rejected_witness :
  is_Some (JSON.parse sample_json) ∧
  ∃ cleaned,
    parsePayload chatty_response = Throw (SyntaxError (72 :: cleaned)).
Proof.
  split; [vm_compute; eexists; reflexivity|].
  destruct (prose_before_payload_is_rejected chatty_response 72
              (tail chatty_response))
    as (cleaned & _ & H & _);
    [vm_compute; reflexivity|discriminate|vm_compute; reflexivity|].
  exists cleaned. exact H.
Defined.

(** What follows a character that no fence holds is out of the reach of
    the matches before it. *)
Lemma strip_before_other s e t :
  e ∉ [96; 10; 106; 115; 111; 110] →
  strip_fences (s ++ e :: t) = strip_fences s ++ e :: strip_fences t.
Proof.
  rewrite !not_elem_of_cons. intros (H1 & H2 & H3 & H4 & H5 & H6 & _).
  remember (length s) as n eqn:Hn. revert s Hn.
  induction (lt_wf n) as [n _ IH]. intros s ->.
  assert (IH' : ∀ s', (length s' < length s)%nat →
            strip_fences (s' ++ e :: t) = strip_fences s' ++ e :: strip_fences t).
  { intros s' Hlt. by eapply IH. }
  clear IH. unfold strip_fences in *.
  rewrite (replace_unfold _ _ (s ++ _)), (replace_unfold _ _ s).
  unfold RegExp.exec_at.
  unfold fence_re at 1 3. unfold fence_json, fence, newline in *.
  head_cases; try done; cbn -[N.eqb RegExp.replace].
  all: try lazymatch goal with |- _ :: _ = _ :: _ => f_equal end.
  all: lazymatch goal with
       | |- _ = RegExp.replace _ _ ?x ++ _ => apply (IH' x); simpl; lia
       end.
Qed.

Lemma trimEnd_split s :
  ∃ tail, s = trimEnd s ++ tail ∧ Forall (λ c, is_white_space c = true) tail.
Proof.
  unfold trimEnd.
  destruct (trimStart_split (reverse s)) as (lead & Hs & Hlead).
  exists (reverse lead). split.
  - rewrite <- reverse_app, <- Hs. by rewrite reverse_involutive.
  - by apply Forall_reverse.
Qed.

Lemma trimStart_keeps X e T :
  is_white_space e = false → ∃ Y, trimStart (X ++ e :: T) = Y ++ e :: T.
Proof.
  intros He. induction X as [|x X [Y IH]]; simpl.
  - rewrite He. by exists [].
  - destruct (is_white_space x); [by exists Y|]. by exists (x :: X).
Qed.

Lemma white_space_no_backtick tail :
  Forall (λ c, is_white_space c = true) tail → 96 ∉ tail.
Proof.
  intros H Hin. rewrite Forall_forall in H. apply H in Hin. by vm_compute in Hin.
Qed.

(** X12. Prose after the payload is fatal: when the last character of the
    response that is not white space is neither a character of a fence
    (a backtick, j, s, o, n) nor a character a JSON text can end with, the
    cleaned response ends with that character and the parser stage fails
    with the [SyntaxError] of [JSON.parse]. *)
Theorem prose_after_payload_is_rejected response body e :
  trimEnd response = body ++ [e] →
  e ∉ [96; 106; 115; 111; 110] → closer e = false →
  ∃ cleaned,
    cleanResponse response = cleaned ++ [e] ∧
    parsePayload response = Throw (SyntaxError (cleaned ++ [e])) ∧
    ∀ contractText,
      parseResponse contractText response = Throw (SyntaxError (cleaned ++ [e])).
Proof.
  intros Htrim Halpha Hcloser.
  destruct (trimEnd_split response) as (tail & Hresp & Htail).
  rewrite Htrim, <- app_assoc in Hresp. cbn in Hresp.
  assert (is_white_space e = false) as He.
  { destruct (is_white_space e) eqn:E; [|done].
    unfold trimEnd in Htrim. apply (f_equal reverse) in Htrim.
    rewrite reverse_involutive, reverse_snoc in Htrim.
    apply trimStart_head in Htrim. congruence. }
  assert (∃ cleaned, cleanResponse response = cleaned ++ [e]) as [cleaned Hclean].
  { unfold cleanResponse, trim. rewrite Hresp.
    rewrite strip_before_other.
    2:{ rewrite !not_elem_of_cons in Halpha |- *. destruct_and!.
        split_and!; try done; [intros ->; by vm_compute in He|].
        by apply not_elem_of_cons. }
    rewrite (strip_no_backtick tail) by by apply white_space_no_backtick.
    destruct (trimStart_keeps (strip_fences body) e tail He) as [Y ->].
    exists Y. rewrite (app_assoc Y [e] tail) || rewrite cons_middle, app_assoc.
    by rewrite trimEnd_trailing, trimEnd_closed. }
  exists cleaned. split; [done|].
  assert (JSON.parse (cleaned ++ [e]) = None) as Hparse.
  { destruct (JSON.parse (cleaned ++ [e])) as [v|] eqn:E; [|done].
    destruct (parse_ends (cleaned ++ [e])) as (c & Hlast & [Hw|Hc]); [by eauto|..];
      rewrite last_snoc in Hlast; injection Hlast as <-; [|congruence].
    apply ws_white_space in Hw. congruence. }
  unfold parseResponse, parsePayload, JSON_parse. rewrite Hclean, Hparse.
  split; [done|]. done.
Qed.

Lemma prose_after_payload_is_rejected_witness :
  is_Some (JSON.parse sample_json) ∧
  ∃ cleaned,
    parsePayload signed_off_response = Throw (SyntaxError (cleaned ++ [46])).
Proof.
  split; [vm_compute; eexists; reflexivity|].
  destruct (prose_after_payload_is_rejected signed_off_response
              (removelast signed_off_response) 46)
    as (cleaned & _ & H & _);
    [vm_compute; reflexivity| |vm_compute; reflexivity|].
  { apply (bool_decide_unpack _). vm_compute. exact I. }
  exists cleaned. exact H.
Defined.

(** ** The scan of a pattern with classes *)

Lemma pattern_replace_go_fuel r template fuel1 fuel2 s :
  (length s < fuel1)%nat → (length s < fuel2)%nat →
  Pattern.replace_go fuel1 r template s = Pattern.replace_go fuel2 r template s.
Proof.
  revert fuel2 s. induction fuel1 as [|fuel1 IH]; intros fuel2 s H1 H2; [lia|].
  destruct fuel2 as [|fuel2]; [lia|]. simpl.
  destruct (Pattern.exec_at r s) as [[rest capture]|].
  - case_decide.
    + f_equal. apply IH; lia.
    + destruct s as [|c s']; [done|]. simpl in *. do 2 f_equal. apply IH; lia.
  - destruct s as [|c s']; [done|]. simpl in *. f_equal. apply IH; lia.
Qed.

Lemma pattern_replace_unfold r template s :
  Pattern.replace r template s =
    match Pattern.exec_at r s with
    | Some (rest, capture) =>
        let by_ := Pattern.substitute template capture in
        if decide (length rest < length s)%nat
        then by_ ++ Pattern.replace r template rest
        else match s with
             | [] => by_
             | c :: s' => by_ ++ c :: Pattern.replace r template s'
             end
    | None =>
        match s with
        | [] => []
        | c :: s' => c :: Pattern.replace r template s'
        end
    end.
Proof.
  unfold Pattern.replace at 1. cbn [Pattern.replace_go].
  destruct (Pattern.exec_at r s) as [[rest capture]|].
  - cbn zeta. case_decide.
    + f_equal. apply pattern_replace_go_fuel; lia.
    + by destruct s.
  - by destruct s.
Qed.

(** ** File names *)

(** The replacement of a class by one character is a map over the
    characters. *)
Lemma safeFileName_map name :
  safeFileName name = (λ c, if alphanumeric c then c else 95) <$> name.
Proof.
  induction name as [|c name IH]; [done|].
  unfold safeFileName in *. rewrite pattern_replace_unfold.
  cbn [Pattern.exec_at Pattern.matcher unsafe_re].
  destruct (alphanumeric c) eqn:Hc; cbn [negb].
  - cbn [fmap list_fmap]. rewrite Hc. by rewrite IH.
  - cbn zeta. rewrite decide_True by (simpl; lia).
    cbn [fmap list_fmap]. rewrite Hc. by rewrite IH.
Qed.

(** X13. The file name made safe has the length of the name, holds
    letters, digits and underscores only, keeps every letter and digit in
    its place and puts an underscore for every other code unit; making it
    safe again changes nothing, and a name is left as it is exactly when
    it was safe. *)
Theorem safeFileName_is_safe name :
  length (safeFileName name) = length name ∧
  Forall (λ c, alphanumeric c = true ∨ c = 95) (safeFileName name) ∧
  (∀ i c, name !! i = Some c →
     safeFileName name !! i = Some (if alphanumeric c then c else 95)) ∧
  safeFileName (safeFileName name) = safeFileName name ∧
  (safeFileName name = name ↔
   Forall (λ c, alphanumeric c = true ∨ c = 95) name).
Proof.
  rewrite !safeFileName_map. split_and!.
  - by rewrite length_fmap.
  - apply Forall_fmap, Forall_true. intros c. cbn.
    destruct (alphanumeric c) eqn:Hc; auto.
  - intros i c Hi. unfold jsstring in *. by rewrite list_lookup_fmap, Hi.
  - rewrite <- list_fmap_compose. apply list_fmap_ext. intros _ c _. cbn.
    by destruct (alphanumeric c) eqn:Hc; rewrite ?Hc.
  - split.
    + intros <-. apply Forall_fmap, Forall_true. intros c. cbn.
      destruct (alphanumeric c) eqn:Hc; auto.
    + intros H. induction H as [|c l Hc _ IH]; [done|]. cbn. f_equal; [|done].
      destruct Hc as [->| ->]; done.
Qed.

(** ** The markup of the comparison page *)

Lemma strip_prefix_here lit s : RegExp.strip_prefix lit (lit ++ s) = Some s.
Proof. induction lit as [|c lit IH]; [done|]. simpl. by rewrite N.eqb_refl. Qed.

Lemma stars_not_here c s : c ≠ 42 → RegExp.strip_prefix stars (c :: s) = None.
Proof.
  intros H. unfold stars. cbn [RegExp.strip_prefix].
  by destruct (N.eqb_spec 42 c).
Qed.

Lemma stars_not_next c s : c ≠ 42 → RegExp.strip_prefix stars (42 :: c :: s) = None.
Proof.
  intros H. unfold stars. cbn [RegExp.strip_prefix]. rewrite N.eqb_refl.
  by destruct (N.eqb_spec 42 c).
Qed.

Lemma dot_not_star c : dot c = false → c ≠ 42.
Proof. by intros H ->. Qed.

(** No marker begins at a character that is not an asterisk. *)
Lemma marked_not_here c s : c ≠ 42 → Pattern.exec_at marked_re (c :: s) = None.
Proof.
  intros H. unfold Pattern.exec_at, marked_re. cbn [Pattern.matcher].
  by rewrite stars_not_here.
Qed.

Lemma lazy_star_unfold member s capture k :
  Pattern.matcher (Pattern.LazyStar member) s capture k =
    match k s capture with
    | Some final => Some final
    | None =>
        match s with
        | c :: rest =>
            if member c
            then Pattern.matcher (Pattern.LazyStar member) rest capture k
            else None
        | [] => None
        end
    end.
Proof. by destruct s. Qed.

(** The lazy star runs over [x] when what follows the star cannot begin
    inside [x], and then does what it does on [t]. *)
Lemma lazy_star_over x t capture k :
  Forall (λ c, dot c = true) x →
  (∀ x1 c x2, x = x1 ++ c :: x2 → k (c :: x2 ++ t) capture = None) →
  Pattern.matcher (Pattern.LazyStar dot) (x ++ t) capture k =
  Pattern.matcher (Pattern.LazyStar dot) t capture k.
Proof.
  intros Hdot. induction Hdot as [|c x Hc _ IH]; intros Hk; [done|].
  rewrite lazy_star_unfold. rewrite <- app_comm_cons.
  rewrite (Hk [] c x eq_refl), Hc. apply IH.
  intros x1 d x2 ->. apply (Hk (c :: x1) d x2). done.
Qed.

(** The pattern of a marker, step by step. *)
Lemma marked_exec s :
  Pattern.exec_at marked_re s =
    match RegExp.strip_prefix stars s with
    | Some body =>
        Pattern.matcher (Pattern.LazyStar dot) body None
          (λ rest _,
             match RegExp.strip_prefix stars rest with
             | Some after =>
                 Some (after, Some (take (length body - length rest) body))
             | None => None
             end)
    | None => None
    end.
Proof. reflexivity. Qed.

(** A marker that is closed on its line: the match ends after the
    closing asterisks and captures what is between. *)
Lemma marked_closed x b :
  Forall (λ c, dot c = true) x → 42 ∉ x →
  Pattern.exec_at marked_re (stars ++ x ++ stars ++ b) = Some (b, Some x).
Proof.
  intros Hdot Hx. rewrite marked_exec, strip_prefix_here.
  rewrite lazy_star_over; [|done|].
  - rewrite lazy_star_unfold, strip_prefix_here.
    rewrite !length_app. do 3 f_equal.
    replace (length x + (length stars + length b) - (length stars + length b))%nat
      with (length x) by lia.
    by rewrite take_app_length.
  - intros x1 c x2 ->. rewrite stars_not_here; [done|].
    intros ->. apply Hx. set_solver.
Qed.

(** A marker that a line terminator or the end of the text follows
    before any asterisk is no match. *)
Lemma marked_open x t :
  42 ∉ x → match t with [] => True | c :: _ => dot c = false end →
  Pattern.exec_at marked_re (stars ++ x ++ t) = None.
Proof.
  intros Hx Ht. rewrite marked_exec, strip_prefix_here.
  remember (λ rest _ : _, _) as k eqn:Hk.
  assert (∀ c s, c ≠ 42 → k (c :: s) None = None) as Hnot.
  { intros c s Hc. subst k. by rewrite stars_not_here. }
  assert (k [] None = None) as Hnil by by subst k.
  clear Hk. induction x as [|c x IH].
  - rewrite app_nil_l, lazy_star_unfold. destruct t as [|c t]; [by rewrite Hnil|].
    rewrite Hnot by by apply dot_not_star. by rewrite Ht.
  - apply not_elem_of_cons in Hx as [Hc Hx]. rewrite <- app_comm_cons.
    rewrite lazy_star_unfold, Hnot by done. destruct (dot c); [|done]. by apply IH.
Qed.

(** One asterisk alone begins no marker. *)
Lemma marked_lone_star s :
  head s ≠ Some 42 → Pattern.exec_at marked_re (42 :: s) = None.
Proof.
  intros H. rewrite marked_exec. destruct s as [|c s]; [done|].
  rewrite stars_not_next; [done|]. simpl in H. congruence.
Qed.

(** A character at which no marker begins is kept. *)
Lemma highlight_keep c s :
  Pattern.exec_at marked_re (c :: s) = None →
  highlight (c :: s) = c :: highlight s.
Proof. intros H. unfold highlight. by rewrite pattern_replace_unfold, H. Qed.

Lemma highlight_plain s : 42 ∉ s → highlight s = s.
Proof.
  induction s as [|c s IH]; [done|]. intros [Hc Hs]%not_elem_of_cons.
  rewrite highlight_keep by by apply marked_not_here. by rewrite IH.
Qed.

Lemma highlight_after_plain before s :
  42 ∉ before → highlight (before ++ s) = before ++ highlight s.
Proof.
  induction before as [|c b IH]; [done|]. intros [Hc Hs]%not_elem_of_cons.
  rewrite <- !app_comm_cons.
  rewrite highlight_keep by by apply marked_not_here. by rewrite IH.
Qed.

Lemma head_not_star s : 42 ∉ s → head s ≠ Some 42.
Proof. destruct s as [|c s]; [done|]. intros H [= ->]. set_solver. Qed.

(** X14. Text without a closed marker is returned as it is, whatever
    markup it holds (nothing is escaped): a text without asterisk, and a
    text with one pair of asterisks that no other asterisk follows. *)
Theorem text_without_closed_marker_is_unchanged :
  (∀ revised, 42 ∉ revised → highlight revised = revised) ∧
  (∀ before after, 42 ∉ before → 42 ∉ after →
     highlight (before ++ stars ++ after) = before ++ stars ++ after).
Proof.
  split; [apply highlight_plain|]. intros before after Hb Ha.
  rewrite highlight_after_plain by done. f_equal.
  change (stars ++ after) with (42 :: 42 :: after).
  rewrite highlight_keep.
  2:{ change (42 :: 42 :: after) with (stars ++ after).
      rewrite <- (app_nil_r after). by apply marked_open. }
  rewrite highlight_keep by by apply marked_lone_star, head_not_star.
  by rewrite highlight_plain.
Qed.

(** X15. A marked span is wrapped: when no asterisk stands before the
    opening marker and the marked text holds neither an asterisk nor a
    line terminator, the two markers are replaced by the opening and the
    closing tag around the marked text, copied as it is, and the scan goes
    on after the closing marker. *)
Theorem marked_span_is_wrapped before marked after :
  42 ∉ before → 42 ∉ marked → Forall (λ c, dot c = true) marked →
  highlight (before ++ stars ++ marked ++ stars ++ after) =
    before ++ span_open ++ marked ++ span_close ++ highlight after.
Proof.
  intros Hb Hm Hdot. rewrite highlight_after_plain by done. f_equal.
  unfold highlight. rewrite pattern_replace_unfold, marked_closed by done.
  cbn zeta. rewrite decide_True by (rewrite !length_app; simpl; lia).
  unfold Pattern.substitute. cbn [fmap list_fmap concat default].
  by rewrite app_nil_r, <- !app_assoc.
Qed.

Lemma marked_span_is_wrapped_witness :
  highlight (js "Net **30 days** from **invoice**.") =
    js "Net " ++ span_open ++ js "30 days" ++ span_close ++ js " from " ++
    span_open ++ js "invoice" ++ span_close ++ js ".".
Proof.
  change (js "Net **30 days** from **invoice**.")
    with (js "Net " ++ stars ++ js "30 days" ++ stars ++ js " from **invoice**.").
  rewrite (marked_span_is_wrapped (js "Net ") (js "30 days")
             (js " from **invoice**.")).
  - by vm_compute.
  - apply (bool_decide_unpack _). by vm_compute.
  - apply (bool_decide_unpack _). by vm_compute.
  - apply (bool_decide_unpack _). by vm_compute.
Defined.

(** X16. A marker does not cross a line: when a line terminator follows
    the opening marker before any asterisk, the marker and the text up to
    the end of the line stay as they are, and the scan goes on with the
    next line. *)
Theorem marker_does_not_cross_lines before marked c after :
  42 ∉ before → 42 ∉ marked → dot c = false →
  highlight (before ++ stars ++ marked ++ c :: after) =
    before ++ stars ++ marked ++ c :: highlight after.
Proof.
  intros Hb Hm Hc. rewrite highlight_after_plain by done. f_equal.
  change (stars ++ marked ++ c :: after) with (42 :: 42 :: marked ++ c :: after).
  rewrite highlight_keep.
  2:{ change (42 :: 42 :: marked ++ c :: after) with (stars ++ marked ++ c :: after).
      by apply marked_open. }
  rewrite highlight_keep.
  2:{ apply marked_lone_star. destruct marked as [|d m]; simpl.
      - intros [= ->]. done.
      - intros [= ->]. set_solver. }
  rewrite highlight_after_plain by done.
  rewrite highlight_keep by by apply marked_not_here, dot_not_star. done.
Qed.

Lemma marker_does_not_cross_lines_witness :
  highlight (js "Fee: **due" ++ [10] ++ js "on receipt** and **final**") =
    js "Fee: **due" ++ [10] ++ js "on receipt" ++ span_open ++ js " and " ++
    span_close ++ js "final**".
Proof.
  change (js "Fee: **due" ++ [10] ++ js "on receipt** and **final**")
    with (js "Fee: " ++ stars ++ js "due" ++ 10 :: js "on receipt** and **final**").
  rewrite (marker_does_not_cross_lines (js "Fee: ") (js "due") 10
             (js "on receipt** and **final**")).
  - by vm_compute.
  - apply (bool_decide_unpack _). by vm_compute.
  - apply (bool_decide_unpack _). by vm_compute.
  - reflexivity.
Defined.

(** ** Prices *)

Lemma digits_are_digits u : Forall (λ c, JSON.is_digit c = true) (digits_of_uint u).
Proof. induction u; simpl; by constructor. Qed.

Lemma N_to_uint_inj m n : N.to_uint m = N.to_uint n → m = n.
Proof.
  intros H. by rewrite <- (DecimalN.Unsigned.of_to m), <- (DecimalN.Unsigned.of_to n), H.
Qed.

Lemma integer_to_string_inj z1 z2 :
  integer_to_string z1 = integer_to_string z2 → z1 = z2.
Proof.
  unfold integer_to_string. intros H.
  assert (∀ z, head (digits_of_uint (N.to_uint (Z.abs_N z))) ≠ Some 45) as Hd.
  { intros z Hh. pose proof (digits_are_digits (N.to_uint (Z.abs_N z))) as Hall.
    destruct (digits_of_uint (N.to_uint (Z.abs_N z))) as [|c l]; [done|].
    simpl in Hh.
    injection Hh as ->. apply Forall_cons in Hall as [Hc _]. by vm_compute in Hc. }
  destruct (Z.ltb_spec z1 0), (Z.ltb_spec z2 0); simpl in H.
  - injection H as H. apply digits_of_uint_inj, N_to_uint_inj in H. lia.
  - exfalso. apply (Hd z2). by rewrite <- H.
  - exfalso. apply (Hd z1). by rewrite H.
  - apply digits_of_uint_inj, N_to_uint_inj in H. lia.
Qed.

Lemma integer_to_string_chars z :
  Forall (λ c, JSON.is_digit c = true ∨ c = 45) (integer_to_string z).
Proof.
  unfold integer_to_string. apply Forall_app. split.
  - destruct (z <? 0)%Z; [|done]. apply Forall_singleton. by right.
  - eapply Forall_impl; [apply digits_are_digits|]. auto.
Qed.

(** Two texts that end where the characters of [P] end. *)
Lemma split_at_class (P : N → Prop) l1 l2 s1 s2 :
  Forall P l1 → Forall P l2 →
  match s1 with [] => True | c :: _ => ¬ P c end →
  match s2 with [] => True | c :: _ => ¬ P c end →
  l1 ++ s1 = l2 ++ s2 → l1 = l2 ∧ s1 = s2.
Proof.
  intros H1. revert l2. induction H1 as [|c l1 Hc _ IH]; intros l2 H2 Hs1 Hs2 H.
  - destruct H2 as [|d l2 Hd _]; [done|]. simpl in H. subst s1. done.
  - destruct H2 as [|d l2 Hd H2]; simpl in H.
    + subst s2. done.
    + injection H as -> H. destruct (IH l2 H2 Hs1 Hs2 H) as [-> ->]. done.
Qed.

(** X17. For prices that are safe integers (of magnitude below 2^53),
    [formatPrice] shows Free exactly for the price zero; two such prices
    that are shown alike are equal, whatever the modes and intervals; and
    a price other than zero is shown as a dollar sign and its numeral,
    followed by /mo or /yr for a subscription with an interval, and by
    nothing otherwise. *)
Theorem formatPrice_shows_the_price price mode interval :
  safe_integer price →
  (formatPrice price mode interval = js "Free" ↔ price = 0%Z) ∧
  (∀ price' mode' interval',
     safe_integer price' →
     formatPrice price' mode' interval' = formatPrice price mode interval →
     price' = price) ∧
  (price ≠ 0%Z →
   ∃ suffix,
     formatPrice price mode interval = js "$" ++ integer_to_string price ++ suffix ∧
     suffix = match mode, interval with
              | Subscription, Some Month => js "/mo"
              | Subscription, Some Year => js "/yr"
              | _, _ => []
              end).
Proof.
  intros _.
  assert (∀ p m i, p ≠ 0%Z →
            ∃ suffix,
              formatPrice p m i = js "$" ++ integer_to_string p ++ suffix ∧
              suffix = match m, i with
                       | Subscription, Some Month => js "/mo"
                       | Subscription, Some Year => js "/yr"
                       | _, _ => []
                       end) as Hshape.
  { intros p m i Hp. unfold formatPrice.
    destruct (Z.eqb_spec p 0%Z) as [->|_]; [done|].
    destruct m, i as [[]|]; eexists; (split; [|reflexivity]);
      by rewrite ?app_nil_r, <- ?app_assoc. }
  assert (∀ p m i, p ≠ 0%Z → formatPrice p m i ≠ js "Free") as Hnot.
  { intros p m i Hp. destruct (Hshape p m i Hp) as (suffix & -> & _). done. }
  split_and!.
  - split; [|by intros ->].
    intros H. destruct (Z.eq_dec price 0%Z) as [->|Hp]; [done|]. by apply Hnot in H.
  - intros price' mode' interval' _ H.
    destruct (Z.eq_dec price 0%Z) as [->|Hp], (Z.eq_dec price' 0%Z) as [->|Hp']; try done.
    + by apply Hnot in H.
    + symmetry in H. by apply Hnot in H.
    + destruct (Hshape price mode interval Hp) as (s & Hs & Hsuf).
      destruct (Hshape price' mode' interval' Hp') as (s' & Hs' & Hsuf').
      rewrite Hs, Hs' in H. apply app_inv_head in H.
      apply (split_at_class (λ c, JSON.is_digit c = true ∨ c = 45)) in H
        as [H _]; [by apply integer_to_string_inj|apply integer_to_string_chars..| |].
      * subst s'. destruct mode', interval' as [[]|]; try done;
          intros [?|?]; done.
      * subst s. destruct mode, interval as [[]|]; try done;
          intros [?|?]; done.
  - apply Hshape.
Qed.

Lemma formatPrice_shows_the_price_witness :
  safe_integer 39 ∧
  formatPrice 39 Subscription (Some Month) = js "$39/mo" ∧
  (formatPrice 39 Subscription (Some Month) = js "Free" ↔ 39%Z = 0%Z) ∧
  ∀ price' mode' interval',
    safe_integer price' →
    formatPrice price' mode' interval' = formatPrice 39 Subscription (Some Month) →
    price' = 39%Z.
Proof.
  assert (safe_integer 39) as H by (unfold safe_integer; lia).
  destruct (formatPrice_shows_the_price 39 Subscription (Some Month) H)
    as (Hfree & Hinj & Hshape).
  split; [exact H|]. split; [|split; [exact Hfree|exact Hinj]].
  destruct Hshape as (suffix & -> & ->); [lia|]. reflexivity.
Defined.

(** ** The catalogue *)

Lemma find_by_id_Some productId product :
  find_by_id productId = Some product →
  product ∈ stripeProducts ∧ StripeProduct.id product = productId.
Proof.
  intros [Hin Hid]%List.find_some. split; [by apply list_elem_of_In|].
  by apply bool_decide_eq_true in Hid.
Qed.

Lemma find_by_id_None productId product :
  find_by_id productId = None → product ∈ stripeProducts →
  StripeProduct.id product ≠ productId.
Proof.
  intros Hnone Hin%list_elem_of_In Hid.
  apply (List.find_none _ _ Hnone) in Hin. by apply bool_decide_eq_false in Hin.
Qed.

Ltac each_product H :=
  repeat (apply elem_of_cons in H as [->|H]); [..|by apply elem_of_nil in H].

Lemma product_name_nonempty product :
  product ∈ stripeProducts → StripeProduct.name product ≠ [].
Proof. intros H. each_product H; by vm_compute. Qed.

(** X18. The identifiers and the price identifiers of the catalogue are
    keys: for every product of [stripeProducts], the lookup by its [id]
    finds that very product and [getActiveSubscription] finds it for a
    subscription to its price; its name is neither empty nor the
    unknown-plan text, and its identifier is not empty and holds letters,
    digits and underscores only. *)
Theorem catalogue_keys_are_unique product :
  product ∈ stripeProducts →
  find_by_id (StripeProduct.id product) = Some product ∧
  (∀ subscription : UserSubscription,
     subscription !! js "price_id" = Some (VString (StripeProduct.priceId product)) →
     getActiveSubscription (Some subscription) = Some product) ∧
  StripeProduct.name product ≠ [] ∧
  StripeProduct.name product ≠ unknown_plan ∧
  StripeProduct.id product ≠ [] ∧
  safeFileName (StripeProduct.id product) = StripeProduct.id product.
Proof.
  intros H. each_product H.
  all: split_and!; try (by vm_compute).
  all: intros subscription Hsub; unfold getActiveSubscription; rewrite Hsub;
    by vm_compute.
Qed.

Lemma catalogue_keys_are_unique_witness :
  ∃ product,
    stripeProducts !! 1%nat = Some product ∧
    StripeProduct.name product = js "Pro" ∧
    find_by_id (js "prod_Sdz9MO674hKLsu") = Some product ∧
    getActiveSubscription
      (Some {[ js "price_id" := VString (js "price_1RihBPH9UjiUVq1X9YN1izl7");
               js "subscription_status" := VString (js "active") ]}) =
      Some product.
Proof.
  destruct (stripeProducts !! 1%nat) as [product|] eqn:E; [|by vm_compute in E].
  exists product. split; [reflexivity|].
  assert (product ∈ stripeProducts) as Hin by (by eapply list_elem_of_lookup_2).
  destruct (catalogue_keys_are_unique product Hin) as (Hfind & Hactive & _).
  vm_compute in E. injection E as <-.
  split_and!; [reflexivity|exact Hfind|].
  apply Hactive. by vm_compute.
Defined.

(** X19. What [SuccessPage] shows: without a plan parameter, or with an
    empty one, the state is left as it is; otherwise the state holds a
    name that is not empty, the name of the product of that identifier
    when the catalogue has one, the unknown-plan text when it has none. *)
Theorem purchased_product_is_named search purchasedProduct :
  match URL.get (URL.URLSearchParams search) (js "plan") with
  | None | Some [] => SuccessPage_effect search purchasedProduct = purchasedProduct
  | Some planId =>
      ∃ shown,
        SuccessPage_effect search purchasedProduct = Some shown ∧
        shown ≠ [] ∧
        ((∃ product, product ∈ stripeProducts ∧
                     StripeProduct.id product = planId ∧
                     shown = StripeProduct.name product) ∨
         (shown = unknown_plan ∧
          ∀ product, product ∈ stripeProducts → StripeProduct.id product ≠ planId))
  end.
Proof.
  unfold SuccessPage_effect. cbn zeta.
  destruct (URL.get _ _) as [[|c planId]|]; [done| |done].
  cbn [string_falsy].
  destruct (find_by_id (c :: planId)) as [product|] eqn:Hfind.
  - apply find_by_id_Some in Hfind as [Hin Hid].
    eexists. split; [reflexivity|].
    assert (StripeProduct.name product ≠ []) as Hname.
    { by apply product_name_nonempty. }
    destruct (StripeProduct.name product) as [|d name] eqn:E; [done|].
    cbn [string_falsy]. split; [done|]. left. exists product. by rewrite E.
  - eexists. split; [reflexivity|]. split; [done|]. right. split; [done|].
    intros product Hin. by eapply find_by_id_None.
Qed.

(** ** The handlers of the shell *)

Ltac hrun :=
  unfold mbind, mret, Handler.bind, Handler.ret, Handler.lift, Handler.ask,
    Handler.get, Handler.modify, Handler.perform, Handler.try_catch,
    Handler.try_finally, setAuthModal, setSelectedProduct,
    setIsProcessingPayment, show_view, call_downloadTextFile in *.

(** X20. No checkout without a product and a user: for an unknown product
    identifier or a signed-out visitor, [handleProductSelection] returns
    without asking for a checkout session or any other effect and leaves
    the payment flags and the pipeline's state alone; for a known product
    it opens the sign-in dialog, for an unknown one it changes nothing. *)
Theorem checkout_needs_product_and_user productId svc s :
  find_by_id productId = None ∨ user s = None →
  let final := handleProductSelection productId svc s in
  fst final = Return () ∧
  effects (snd final) = effects s ∧
  appState (snd final) = appState s ∧
  selectedProduct (snd final) = selectedProduct s ∧
  isProcessingPayment (snd final) = isProcessingPayment s ∧
  authModal (snd final) =
    match find_by_id productId with
    | Some _ => {| isOpen := true; mode := signin |}
    | None => authModal s
    end.
Proof.
  intros H. unfold handleProductSelection. cbn zeta.
  destruct (find_by_id productId) as [product|]; [|done].
  destruct H as [|H]; [done|]. hrun. by rewrite H.
Qed.

Lemma checkout_needs_product_and_user_witness :
  handleProductSelection (js "prod_Sdz9MO674hKLsu")
    (test_services (Return (Some (js "https://checkout.example/s1")))) signed_out =
    (Return (),
     MkShell (ui initial_world) (MkAuthModal true signin) None false None []) ∧
  effects (snd (handleProductSelection (js "prod_unknown")
                  (test_services (Return (Some (js "https://checkout.example/s1"))))
                  signed_in)) = [].
Proof.
  split.
  - pose proof (checkout_needs_product_and_user (js "prod_Sdz9MO674hKLsu")
      (test_services (Return (Some (js "https://checkout.example/s1")))) signed_out
      (or_intror eq_refl)) as H.
    by vm_compute.
  - exact (proj1 (proj2 (checkout_needs_product_and_user (js "prod_unknown")
      (test_services (Return (Some (js "https://checkout.example/s1")))) signed_in
      (or_introl eq_refl)))).
Defined.

(** X21. A checkout always settles: for a product of the catalogue and a
    signed-in user, [handleProductSelection] asks for exactly one checkout
    session, for the price and the mode of the product and with the
    product identifier in the success URL; it navigates to the URL of the
    session when it has one, it logs and alerts when the request fails,
    and in every case it returns normally with the payment flags reset. *)
Theorem checkout_always_settles productId product svc s :
  find_by_id productId = Some product → is_Some (user s) →
  let successUrl := location_origin svc ++ js "?view=success&plan=" ++ productId in
  let cancelUrl := location_origin svc ++ js "?view=pricing" in
  let asked :=
    CheckoutSession (StripeProduct.priceId product) (StripeProduct.mode product)
      successUrl cancelUrl in
  let final := handleProductSelection productId svc s in
  fst final = Return () ∧
  isProcessingPayment (snd final) = false ∧
  selectedProduct (snd final) = None ∧
  appState (snd final) = appState s ∧ authModal (snd final) = authModal s ∧
  user (snd final) = user s ∧
  effects (snd final) =
    match createCheckoutSession svc (StripeProduct.priceId product)
            (StripeProduct.mode product) successUrl cancelUrl with
    | Return (Some (c :: url)) => [Navigate (c :: url)]
    | Return _ => []
    | Throw e => [Alert payment_failed_message; Console (js "Payment error:") e]
    end ++ asked :: effects s.
Proof.
  intros Hfind [u Hu]. unfold handleProductSelection. cbn zeta. rewrite Hfind.
  hrun. rewrite Hu. cbn.
  destruct (createCheckoutSession svc _ _ _ _) as [[[|c url]|]|e]; by cbn.
Qed.

Lemma checkout_always_settles_witness :
  handleProductSelection (js "prod_Sdz9MO674hKLsu")
    (test_services (Return (Some (js "https://checkout.example/s1")))) signed_in =
    (Return (),
     MkShell (ui initial_world) (MkAuthModal false signin) None false
       (Some (AuthUser.mk (js "u1") (js "ada@example.org")))
       [Navigate (js "https://checkout.example/s1");
        CheckoutSession (js "price_1RihBPH9UjiUVq1X9YN1izl7") Subscription
          (js "https://contractguard.example?view=success&plan=prod_Sdz9MO674hKLsu")
          (js "https://contractguard.example?view=pricing")]) ∧
  effects (snd (handleProductSelection (js "prod_Sdz8PGwuqtqf8P")
                  (test_services (Throw (Error (js "card declined")))) signed_in)) =
    [Alert payment_failed_message;
     Console (js "Payment error:") (Error (js "card declined"));
     CheckoutSession (js "price_1RihAMH9UjiUVq1X9N2VniYs") Payment
       (js "https://contractguard.example?view=success&plan=prod_Sdz8PGwuqtqf8P")
       (js "https://contractguard.example?view=pricing")].
Proof.
  split.
  - pose proof (checkout_always_settles (js "prod_Sdz9MO674hKLsu") _
      (test_services (Return (Some (js "https://checkout.example/s1")))) signed_in
      eq_refl (mk_is_Some _ _ eq_refl)) as H.
    by vm_compute.
  - destruct (checkout_always_settles (js "prod_Sdz8PGwuqtqf8P") _
      (test_services (Throw (Error (js "card declined")))) signed_in
      eq_refl (mk_is_Some _ _ eq_refl)) as (_ & _ & _ & _ & _ & _ & H).
    rewrite H. by vm_compute.
Defined.

(** X22. The success URL leads back to the product: the query that
    [handleProductSelection] writes for a product of the catalogue holds
    nothing that would need escaping, [URLSearchParams] reads the view and
    the plan back from it, the effect of [App] shows the success view, and
    [SuccessPage] shows the name of the product, never the unknown-plan
    text. *)
Theorem success_url_names_the_product productId product svc s :
  find_by_id productId = Some product →
  let search := js "?view=success&plan=" ++ productId in
  Forall (λ c, alphanumeric c = true ∨ c = 95) productId ∧
  URL.URLSearchParams search = [(js "view", js "success"); (js "plan", productId)] ∧
  (∀ purchasedProduct,
     SuccessPage_effect search purchasedProduct = Some (StripeProduct.name product)) ∧
  StripeProduct.name product ≠ unknown_plan ∧
  fst (App_effect search svc s) = Return () ∧
  currentView (appState (snd (App_effect search svc s))) = success.
Proof.
  intros [Hin <-]%find_by_id_Some. each_product Hin.
  all: split_and!; try (by vm_compute).
  all: apply (bool_decide_unpack _); by vm_compute.
Qed.

Lemma success_url_names_the_product_witness :
  URL.URLSearchParams (js "?view=success&plan=prod_Sdz8PGwuqtqf8P") =
    [(js "view", js "success"); (js "plan", js "prod_Sdz8PGwuqtqf8P")] ∧
  SuccessPage_effect (js "?view=success&plan=prod_Sdz8PGwuqtqf8P") None =
    Some (js "Pay Per Check") ∧
  currentView
    (appState (snd (App_effect (js "?view=success&plan=prod_Sdz8PGwuqtqf8P")
                 (test_services (Return None)) signed_out))) = success.
Proof.
  destruct (success_url_names_the_product (js "prod_Sdz8PGwuqtqf8P") _
              (test_services (Return None)) signed_out eq_refl)
    as (_ & H1 & H2 & _ & _ & H3).
  split_and!; [exact H1|exact (H2 None)|exact H3].
Defined.

(** X23. [handleFreeAccess], [handleSignOut], [handleProductSelection] and
    the URL effect of [App] contain their failures: each returns normally,
    leaves the analysis result, the error and the contract text alone,
    only adds effects, leaves the sign-in dialog alone when the user it
    was rendered with is signed in, and does not take a visitor it was
    rendered with as signed out to the upload view. *)
Theorem handlers_contain_their_failures svc s :
  contained handleFreeAccess svc s ∧
  contained handleSignOut svc s ∧
  (∀ productId, contained (handleProductSelection productId) svc s) ∧
  (∀ search, contained (App_effect search) svc s).
Proof.
  assert (currentView (appState s) ≠ upload ∨ currentView (appState s) = upload) as Hview.
  { destruct (currentView (appState s)); first [by right|by left]. }
  split; [|split; [|split]]; [| |intros productId|intros search];
    unfold contained; cbn zeta.
  - unfold handleFreeAccess. hrun. destruct (user s) as [u|] eqn:Hu; cbn.
    all: split_and!; try done; try (by intros [? [=]]).
  - unfold handleSignOut. hrun. cbn. destruct (signOut svc) as [[]|e]; cbn.
    all: split_and!; try done; try (by repeat apply suffix_cons_r).
    by left.
  - unfold handleProductSelection. cbn zeta.
    destruct (find_by_id productId) as [product|]; [|by cbn].
    hrun. destruct (user s) as [u|] eqn:Hu; cbn.
    + destruct (createCheckoutSession svc _ _ _ _) as [[[|c url]|]|e]; cbn.
      all: split_and!; try done; try (by repeat apply suffix_cons_r).
    + split_and!; try done; try (by intros [? [=]]).
  - unfold App_effect. cbn zeta.
    destruct (URL.get _ _) as [view|]; [|by cbn].
    case_bool_decide; hrun; cbn; [|done].
    split_and!; try done. by left.
Qed.

(** ** Exports *)

Lemma first_piece_app date time :
  84 ∉ date → first_piece 84 (date ++ 84 :: time) = date.
Proof.
  induction date as [|c date IH]; [done|]. intros [Hc Hd]%not_elem_of_cons.
  simpl. destruct (N.eqb_spec c 84); [done|]. by rewrite IH.
Qed.




(** X25. With a result in the state, [handleExportReport] generates the
    report from the stored result, file name, text and date, and hands it
    to [downloadTextFile] once; [handleExportRevised] does the same with
    the revised contract unless the contract text is empty; a failure of
    the generation escapes the handler before anything is downloaded, and
    the React state is not changed. For an ISO date the name of the file
    is ContractGuard_kind_name_date.txt, where name has the length of the
    uploaded file's name and holds letters, digits and underscores only. *)
Theorem export_downloads_one_named_file svc s result :
  analysisResult (appState s) = Some result →
  let named := {| named := result; fileName := uploadedFileName (appState s) |} in
  let after content filename :=
    (downloadTextFile svc content filename,
     MkShell (appState s) (authModal s) (selectedProduct s) (isProcessingPayment s)
       (user s) (Download content filename :: effects s)) in
  handleExportReport svc s =
    match generateAnalysisReport svc
            {| report_fileName := uploadedFileName (appState s);
               report_analysisResult := named;
               report_originalText := originalContractText (appState s);
               report_uploadedAt := uploadedAt (appState s) |} with
    | Return report =>
        after report
          (export_name (js "Analysis") (uploadedFileName (appState s)) (toISOString svc))
    | Throw e => (Throw e, s)
    end ∧
  handleExportRevised svc s =
    match originalContractText (appState s) with
    | [] => (Return (), s)
    | _ =>
        match generateRevisedContract svc (originalContractText (appState s)) named with
        | Return revisedContract =>
            after revisedContract
              (export_name (js "Revised") (uploadedFileName (appState s))
                 (toISOString svc))
        | Throw e => (Throw e, s)
        end
    end ∧
  ∀ kind date time,
    toISOString svc = date ++ 84 :: time →
    Forall (λ c, JSON.is_digit c = true ∨ c = 45) date →
    ∃ safe,
      export_name kind (uploadedFileName (appState s)) (toISOString svc) =
        js "ContractGuard_" ++ kind ++ js "_" ++ safe ++ js "_" ++ date ++ js ".txt" ∧
      length safe = length (uploadedFileName (appState s)) ∧
      Forall (λ c, alphanumeric c = true ∨ c = 95) safe.
Proof.
  intros Hres. cbn zeta. split_and!.
  - unfold handleExportReport. hrun. rewrite Hres.
    by destruct (generateAnalysisReport svc _).
  - unfold handleExportRevised. hrun. rewrite Hres.
    destruct (originalContractText (appState s)) as [|c text]; [done|]. cbn.
    by destruct (generateRevisedContract svc _ _).
  - intros kind date time Hiso Hdate.
    exists (safeFileName (uploadedFileName (appState s))). unfold export_name.
    rewrite Hiso, first_piece_app.
    + split; [done|]. rewrite safeFileName_map. split; [by rewrite length_fmap|].
      apply Forall_fmap, Forall_true. intros c. cbn.
      destruct (alphanumeric c) eqn:Hc; auto.
    + intros Hin. rewrite Forall_forall in Hdate.
      by destruct (Hdate _ Hin) as [H|H]; vm_compute in H.
Qed.

Lemma export_downloads_one_named_file_witness :
  let s :=
    MkShell (ui (snd (handleFileUpload sample_file sample_platform initial_world)))
      (MkAuthModal false signin) None false None [] in
  effects (snd (handleExportReport (test_services (Return None)) s)) =
    [Download (js "Report for contract.txt")
       (js "ContractGuard_Analysis_contract_txt_2025-07-08.txt")] ∧
  effects (snd (handleExportRevised (test_services (Return None)) s)) =
    [Download sample_text (js "ContractGuard_Revised_contract_txt_2025-07-08.txt")].
Proof.
  cbn zeta.
  destruct (analysisResult
              (ui (snd (handleFileUpload sample_file sample_platform initial_world))))
    as [result|] eqn:E; [|by vm_compute in E].
  destruct (export_downloads_one_named_file (test_services (Return None))
              (MkShell (ui (snd (handleFileUpload sample_file sample_platform
                                   initial_world)))
                 (MkAuthModal false signin) None false None []) result E)
    as (H1 & H2 & _).
  rewrite H1, H2. split; by vm_compute.
Defined.

(** ** The counters of the analysis page *)

Lemma with_id_type risk index :
  with_id risk index !! js "type" = own_enumerable_properties risk !! js "type".
Proof. unfold with_id. by rewrite lookup_insert_ne. Qed.

Lemma filter_imap_length {A B} (f : B → bool) (h : A → bool)
    (g : nat → A → B) (l : list A) :
  (∀ i x, f (g i x) = h x) →
  length (List.filter f (imap g l)) = length (List.filter h l).
Proof.
  revert g. induction l as [|x l IH]; intros g Hg; [done|].
  cbn. rewrite Hg.
  destruct (h x); cbn; rewrite IH; try done; intros i y; apply Hg.
Qed.

Lemma disjoint_filters_length {A} (f g : A → bool) (l : list A) :
  (∀ x, f x = true → g x = false) →
  (length (List.filter f l) + length (List.filter g l) ≤ length l)%nat.
Proof.
  intros H. induction l as [|x l IH]; [done|]. cbn.
  destruct (f x) eqn:Hf; [rewrite (H x Hf)|destruct (g x)]; cbn; lia.
Qed.

(** X26. The counters of the analysis page count the types of the payload:
    for every level, the number of risks of the result counted for it is
    the number of entries of the payload whose own [type] is that very
    string (an entry without one, or with another spelling, is counted
    for no level); the high and the medium counter together never exceed
    the number of entries. Only the counters are modelled: the list under
    them, which calls [toUpperCase] on the type of every risk, is not. *)
Theorem counters_count_payload_types (contractText : jsstring)
    (m : gmap (list N) value) rs result :
  m !! js "risks" = Some (VArray rs) →
  normalize contractText (VObject m) = Return result →
  (∀ level,
     count_risks level result =
       length (List.filter
                 (λ entry, is_string level
                    (default VUndefined
                       (own_enumerable_properties entry !! js "type")))
                 rs)) ∧
  (count_risks (js "high") result + count_risks (js "medium") result ≤
     length rs)%nat.
Proof.
  intros Hr Hn. rewrite (normalize_object _ _ _ Hr) in Hn. injection Hn as <-.
  assert (∀ level,
     count_risks level
       {| risks := imap (λ index risk, with_id risk index) rs;
          overallScore := default VUndefined (m !! js "overallScore");
          totalClauses := default VUndefined (m !! js "totalClauses");
          originalText := contractText;
          revisedSections :=
            or_else (default VUndefined (m !! js "revisedSections")) (VArray []) |} =
       length (List.filter
                 (λ entry, is_string level
                    (default VUndefined
                       (own_enumerable_properties entry !! js "type")))
                 rs)) as Hcount.
  { intros level. unfold count_risks. cbn [risks].
    apply filter_imap_length. intros i x. by rewrite with_id_type. }
  split; [done|]. rewrite !Hcount. apply disjoint_filters_length.
  intros entry.
  destruct (default VUndefined (own_enumerable_properties entry !! js "type"))
    as [| | | |t| |]; cbn [is_string]; try done.
  intros ->%bool_decide_eq_true. by apply bool_decide_eq_false.
Qed.

Lemma counters_count_payload_types_witness :
  ∃ result,
    normalize sample_text (VObject mixed_risks) = Return result ∧
    length (risks result) = 5%nat ∧
    count_risks (js "high") result = 1%nat ∧
    count_risks (js "medium") result = 1%nat.
Proof.
  destruct (normalize sample_text (VObject mixed_risks)) as [result|] eqn:E;
    [|by vm_compute in E].
  exists result. split; [reflexivity|].
  assert (mixed_risks !! js "risks" =
    Some (VArray [VObject {[ js "type" := VString (js "high") ]};
                  VObject {[ js "type" := VString (js "HIGH") ]};
                  VObject {[ js "type" := VString (js "medium") ]};
                  VObject {[ js "type" := VString (js "low") ]};
                  VObject {[ js "category" := VString (js "Liability") ]}]))
    as Hr by (by vm_compute).
  destruct (counters_count_payload_types _ _ _ _ Hr E) as [Hcount _].
  rewrite !Hcount. split_and!; [|by vm_compute..].
  vm_compute in E. by injection E as <-.
Defined.

(** ** The subscription hook *)

(** X27. The effect of [useSubscription] updates all or nothing: for a
    signed-in user the loading flag ends reset, and either both requests
    succeeded and the subscription and the orders are what they returned,
    or one failed, the subscription and the orders are left as they were
    (the answer of the other request is dropped) and the failure is
    logged; without a user the subscription and the orders are cleared and
    the loading flag is left alone. *)
Theorem subscription_fetch_is_all_or_nothing service user st :
  let st' := useSubscription_effect service user st in
  match user with
  | None =>
      subscription st' = None ∧ orders st' = [] ∧
      loading st' = loading st ∧ console st' = console st
  | Some _ =>
      loading st' = false ∧
      match getUserSubscription service, getUserOrders service with
      | Return subscriptionData, Return ordersData =>
          subscription st' = subscriptionData ∧ orders st' = ordersData ∧
          console st' = console st
      | fetched, listed =>
          subscription st' = subscription st ∧ orders st' = orders st ∧
          ∃ e, console st' = (js "Error fetching subscription data:", e) :: console st ∧
               (fetched = Throw e ∨ listed = Throw e)
      end
  end.
Proof.
  unfold useSubscription_effect. destruct user as [u|]; [|done]. cbn.
  destruct (getUserSubscription service) as [sub|e1],
    (getUserOrders service) as [ords|e2]; cbn; split_and!; try done.
  - by eauto.
  - by eauto.
  - destruct (orders_settle_first service); by eauto.
Qed.
